(** * Wendigo storage core: B-tree cell parsing, cursor balancing and the
    external merge sorter.

    A shallow embedding of [src/btree/cellinfo.go], [src/btree/cursor.go]
    and [src/vdbesort.go].  Machine integers are carried as [Z] with their
    truncations written out, byte buffers as lists of 8-bit [Z], arrays as
    lists indexed through stdpp's lookup and insert, the page cache as a
    finite map from page numbers to pages. *)

From Stdlib Require Import ZArith List Lia Bool Permutation Sorted.
From stdpp Require Import base option list gmap.
Import ListNotations.

Local Open Scope Z_scope.

(** ** Machine integers and result codes *)

Definition uint16 (x : Z) : Z := x mod 65536.
Definition uint32 (x : Z) : Z := x mod 4294967296.

Lemma uint16_small x : 0 <= x < 65536 -> uint16 x = x.
Proof. intros H. unfold uint16. apply Z.mod_small. exact H. Qed.

Lemma uint32_small x : 0 <= x < 4294967296 -> uint32 x = x.
Proof. intros H. unfold uint32. apply Z.mod_small. exact H. Qed.

Lemma uint16_range x : 0 <= uint16 x < 65536.
Proof. unfold uint16. apply Z.mod_pos_bound. lia. Qed.

Lemma uint32_range x : 0 <= uint32 x < 4294967296.
Proof. unfold uint32. apply Z.mod_pos_bound. lia. Qed.

(** The result codes the modelled functions return. *)
Inductive rcode : Type :=
| SQLITE_OK
| SQLITE_ERROR
| SQLITE_NOMEM
| SQLITE_IOERR
| SQLITE_CORRUPT.

Definition rcode_eqb (a b : rcode) : bool :=
  match a, b with
  | SQLITE_OK, SQLITE_OK
  | SQLITE_ERROR, SQLITE_ERROR
  | SQLITE_NOMEM, SQLITE_NOMEM
  | SQLITE_IOERR, SQLITE_IOERR
  | SQLITE_CORRUPT, SQLITE_CORRUPT => true
  | _, _ => false
  end.

Lemma rcode_eqb_eq a b : rcode_eqb a b = true <-> a = b.
Proof. destruct a, b; simpl; split; intros H; congruence. Qed.

(** ** cellinfo.go *)

Module CellCodec.

(** The fields of [MemoryPage] that [ParsePtr] reads; [usableSize] stands
    for [page.pBt.usableSize]. *)
Record MemoryPage : Type := {
  leaf : Z;
  childPtrSize : Z;
  intKey : bool;
  hasData : bool;
  maxLocal : Z;
  minLocal : Z;
  usableSize : Z
}.

Record CellInfo : Type := {
  Key : Z;
  Cell : list Z;
  Data : Z;
  Payload : Z;
  Header : Z;
  Local : Z;
  Overflow : Z;
  Size : Z
}.

Section Parse.

(** The two varint decoders are not part of the sources at hand: each
    takes the bytes at the read position and yields the number of bytes it
    consumed and the decoded value. *)
Variable getVarint32 : list Z -> Z * Z.
Variable getVarint : list Z -> Z * Z.

(** The header walk of [ParsePtr]: the header size [n] (a [uint16]), the
    payload size (a [uint32]) and the values stored in [Key] and [Data].
    The key varint of an integer-key cell is read from the cell at [n];
    the source writes [&p[n]] there. *)
Definition parseHeader (page : MemoryPage) (cell : list Z) : Z * Z * Z * Z :=
  let n := uint16 (childPtrSize page) in
  if intKey page then
    let '(n, payload) :=
      if hasData page then
        let '(k, v) := getVarint32 (drop (Z.to_nat n) cell) in
        (uint16 (n + k), uint32 v)
      else (n, 0) in
    let '(k, key) := getVarint (drop (Z.to_nat n) cell) in
    (uint16 (n + k), payload, key, payload)
  else
    let '(k, v) := getVarint32 (drop (Z.to_nat n) cell) in
    (uint16 (n + k), uint32 v, uint32 v, 0).

(** [surplus = minLocal + (payload - minLocal) % (usableSize - 4)]. *)
Definition surplusOf (page : MemoryPage) (payload : Z) : Z :=
  minLocal page + Z.rem (payload - minLocal page) (usableSize page - 4).

(** [ParsePtr]; [None] is the division by zero of the spill computation
    on a page whose usable size is 4. *)
Definition ParsePtr (page : MemoryPage) (cell : list Z) : option CellInfo :=
  let '(n, payload, key, data) := parseHeader page cell in
  if payload <=? maxLocal page then
    let size := uint16 (n + payload) in
    Some {| Key := key; Cell := cell; Data := data; Payload := payload;
            Header := n;
            Local := uint16 payload;
            Overflow := 0;
            Size := if size <? 4 then 4 else size |}
  else if usableSize page - 4 =? 0 then None
  else
    let surplus := surplusOf page payload in
    let loc := if surplus <=? maxLocal page
               then uint16 surplus else uint16 (minLocal page) in
    let ovfl := uint16 (loc + n) in
    Some {| Key := key; Cell := cell; Data := data; Payload := payload;
            Header := n;
            Local := loc;
            Overflow := ovfl;
            Size := uint16 (ovfl + 4) |}.

Lemma parseHeader_range page cell n payload key data :
  parseHeader page cell = (n, payload, key, data) ->
  0 <= n < 65536 /\ 0 <= payload < 4294967296.
Proof.
  unfold parseHeader. intros H.
  destruct (intKey page).
  - destruct (hasData page).
    + destruct (getVarint32 _) as [k v].
      destruct (getVarint _) as [k2 key2]. inversion H; subst.
      split; [apply uint16_range | apply uint32_range].
    + destruct (getVarint _) as [k2 key2]. inversion H; subst.
      split; [apply uint16_range | lia].
  - destruct (getVarint32 _) as [k v]. inversion H; subst.
    split; [apply uint16_range | apply uint32_range].
Qed.

Lemma ParsePtr_header page cell ci :
  ParsePtr page cell = Some ci ->
  exists key data, parseHeader page cell = (Header ci, Payload ci, key, data).
Proof.
  unfold ParsePtr. destruct (parseHeader page cell) as [[[n payload] key] data].
  intros H. exists key, data.
  destruct (payload <=? maxLocal page).
  - inversion H; subst; reflexivity.
  - destruct (usableSize page - 4 =? 0); [discriminate |].
    inversion H; subst; reflexivity.
Qed.

Definition headerSize (page : MemoryPage) (cell : list Z) : Z :=
  (parseHeader page cell).1.1.1.

Definition payloadSize (page : MemoryPage) (cell : list Z) : Z :=
  (parseHeader page cell).1.1.2.

Lemma headerSize_range page cell : 0 <= headerSize page cell < 65536.
Proof.
  unfold headerSize.
  destruct (parseHeader page cell) as [[[n payload] key] data] eqn:E.
  apply parseHeader_range in E. simpl. tauto.
Qed.

Lemma payloadSize_range page cell : 0 <= payloadSize page cell < 4294967296.
Proof.
  unfold payloadSize.
  destruct (parseHeader page cell) as [[[n payload] key] data] eqn:E.
  apply parseHeader_range in E. simpl. tauto.
Qed.

(** The local branch stores the payload and the cell size through 16-bit
    fields, whatever the page. *)
Lemma ParsePtr_local_fields page cell :
  payloadSize page cell <= maxLocal page ->
  exists ci, ParsePtr page cell = Some ci /\
    Payload ci = payloadSize page cell /\
    Header ci = headerSize page cell /\
    Local ci = uint16 (Payload ci) /\
    Overflow ci = 0 /\
    Size ci = Z.max (uint16 (Header ci + Payload ci)) 4.
Proof.
  unfold payloadSize, headerSize, ParsePtr.
  destruct (parseHeader page cell) as [[[n payload] key] data]. simpl.
  intros Hle. apply Z.leb_le in Hle. rewrite Hle.
  eexists. split; [reflexivity |]. simpl.
  repeat split.
  destruct (uint16 (n + payload) <? 4) eqn:E.
  - apply Z.ltb_lt in E. lia.
  - apply Z.ltb_ge in E. lia.
Qed.

(** The spill branch, again with the truncations of the fields left in. *)
Lemma ParsePtr_spill_fields page cell :
  maxLocal page < payloadSize page cell ->
  usableSize page - 4 <> 0 ->
  exists ci, ParsePtr page cell = Some ci /\
    Payload ci = payloadSize page cell /\
    Header ci = headerSize page cell /\
    Local ci = (if surplusOf page (Payload ci) <=? maxLocal page
                then uint16 (surplusOf page (Payload ci))
                else uint16 (minLocal page)) /\
    Overflow ci = uint16 (Local ci + Header ci) /\
    Size ci = uint16 (Overflow ci + 4).
Proof.
  unfold payloadSize, headerSize, ParsePtr.
  destruct (parseHeader page cell) as [[[n payload] key] data]. simpl.
  intros Hlt Hus.
  apply Z.leb_gt in Hlt. rewrite Hlt.
  apply Z.eqb_neq in Hus. rewrite Hus.
  eexists. split; [reflexivity |]. simpl. repeat split.
Qed.

Lemma surplusOf_mod page payload :
  minLocal page <= payload -> 4 < usableSize page ->
  surplusOf page payload =
  minLocal page + (payload - minLocal page) mod (usableSize page - 4).
Proof.
  intros H1 H2. unfold surplusOf. f_equal.
  apply Z.rem_mod_nonneg; lia.
Qed.

(** C1.  On a page whose thresholds satisfy [0 <= minLocal <= maxLocal]
    and whose largest local cell, header and overflow pointer included,
    fits the 16-bit size field, [ParsePtr] returns a [CellInfo] with:
    when [payload <= maxLocal], [Local = payload], [Overflow = 0] and
    [Size = max (Header + payload) 4]; when [payload > maxLocal], with
    [surplus = minLocal + (payload - minLocal) mod (usableSize - 4)],
    [Local = surplus] if [surplus <= maxLocal] and [minLocal] otherwise,
    [Overflow = Local + Header] and [Size = Overflow + 4]. *)
Theorem ParsePtr_spill_decision page cell :
  0 <= minLocal page <= maxLocal page ->
  4 < usableSize page ->
  maxLocal page + headerSize page cell + 4 < 65536 ->
  exists ci, ParsePtr page cell = Some ci /\
    Payload ci = payloadSize page cell /\
    Header ci = headerSize page cell /\
    (Payload ci <= maxLocal page ->
       Local ci = Payload ci /\ Overflow ci = 0 /\
       Size ci = Z.max (Header ci + Payload ci) 4) /\
    (maxLocal page < Payload ci ->
       let surplus :=
         minLocal page +
         (Payload ci - minLocal page) mod (usableSize page - 4) in
       Local ci = (if surplus <=? maxLocal page then surplus
                   else minLocal page) /\
       Overflow ci = Local ci + Header ci /\
       Size ci = Overflow ci + 4).
Proof.
  intros Hmin Hus Hfit.
  pose proof (headerSize_range page cell) as Hn.
  pose proof (payloadSize_range page cell) as Hp.
  destruct (Z_le_gt_dec (payloadSize page cell) (maxLocal page)) as [Hle | Hgt].
  - destruct (ParsePtr_local_fields page cell Hle)
      as (ci & Hci & HP & HH & HL & HO & HS).
    exists ci. split; [exact Hci |]. split; [exact HP |]. split; [exact HH |].
    split; [| intros Hc; lia].
    intros _. rewrite HL, HO, HS.
    rewrite !uint16_small by lia. auto.
  - destruct (ParsePtr_spill_fields page cell) as
      (ci & Hci & HP & HH & HL & HO & HS); [lia | lia |].
    exists ci. split; [exact Hci |]. split; [exact HP |]. split; [exact HH |].
    split; [intros Hc; lia |].
    intros _. cbv zeta.
    rewrite surplusOf_mod in HL by lia.
    set (surplus := minLocal page +
                    (Payload ci - minLocal page) mod (usableSize page - 4)) in *.
    assert (Hs : minLocal page <= surplus).
    { unfold surplus.
      pose proof (Z.mod_pos_bound (Payload ci - minLocal page)
                    (usableSize page - 4)). lia. }
    assert (HLv : Local ci = (if surplus <=? maxLocal page then surplus
                              else minLocal page) /\
                  0 <= Local ci <= maxLocal page).
    { rewrite HL. destruct (surplus <=? maxLocal page) eqn:E.
      - apply Z.leb_le in E. rewrite uint16_small by lia. lia.
      - rewrite uint16_small by lia. lia. }
    destruct HLv as [HLv HLr].
    assert (HOv : Overflow ci = Local ci + Header ci).
    { rewrite HO. apply uint16_small. lia. }
    split; [exact HLv |]. split; [exact HOv |].
    rewrite HS. apply uint16_small. lia.
Qed.

(** *** What the spill rule guarantees *)

(** X1.  On a page with [0 <= minLocal <= maxLocal] whose cells fit the
    16-bit size field, the [CellInfo] that [ParsePtr] fills in never
    keeps more than [maxLocal] payload bytes on the page nor more than
    the payload has, a cell that spills keeps at least [minLocal], and
    the cell takes between 4 and [Header + maxLocal + 4] bytes of the
    page. *)
Theorem ParsePtr_local_within_bounds page cell ci :
  0 <= minLocal page <= maxLocal page ->
  4 < usableSize page ->
  maxLocal page + headerSize page cell + 4 < 65536 ->
  ParsePtr page cell = Some ci ->
  0 <= Local ci <= maxLocal page /\
  Local ci <= Payload ci /\
  (maxLocal page < Payload ci -> minLocal page <= Local ci) /\
  4 <= Size ci <= Header ci + maxLocal page + 4.
Proof.
  intros Hmin Hus Hfit Hci.
  pose proof (headerSize_range page cell) as Hn.
  pose proof (payloadSize_range page cell) as Hp.
  destruct (Z_le_gt_dec (payloadSize page cell) (maxLocal page)) as [Hle | Hgt].
  - destruct (ParsePtr_local_fields page cell Hle)
      as (ci' & Hci' & HP & HH & HL & HO & HS).
    rewrite Hci in Hci'. inversion Hci'; subst ci'. clear Hci'.
    rewrite HL, HS. rewrite !uint16_small by lia. lia.
  - destruct (ParsePtr_spill_fields page cell) as
      (ci' & Hci' & HP & HH & HL & HO & HS); [lia | lia |].
    rewrite Hci in Hci'. inversion Hci'; subst ci'. clear Hci'.
    rewrite surplusOf_mod in HL by lia.
    pose proof (Z.mod_pos_bound (Payload ci - minLocal page)
                  (usableSize page - 4) ltac:(lia)) as Hm.
    pose proof (Z.mod_le (Payload ci - minLocal page)
                  (usableSize page - 4) ltac:(lia) ltac:(lia)) as Hm2.
    assert (HLr : minLocal page <= Local ci <= maxLocal page /\
                  Local ci <= Payload ci).
    { rewrite HL.
      destruct (_ <=? maxLocal page) eqn:E.
      - apply Z.leb_le in E. rewrite uint16_small by lia. lia.
      - rewrite uint16_small by lia. lia. }
    assert (HOv : Overflow ci = Local ci + Header ci).
    { rewrite HO. apply uint16_small. lia. }
    rewrite HS, HOv. rewrite uint16_small by lia. lia.
Qed.

(** X2.  On such a page the part of a spilled payload that leaves the
    page fills its overflow pages exactly, [usableSize - 4] bytes to the
    page, unless the cell keeps no more than [minLocal] bytes: either
    [Local = minLocal] or [Payload - Local] is a positive multiple of
    [usableSize - 4]. *)
Theorem ParsePtr_spill_fills_overflow_pages page cell ci :
  0 <= minLocal page <= maxLocal page ->
  4 < usableSize page ->
  maxLocal page + headerSize page cell + 4 < 65536 ->
  ParsePtr page cell = Some ci ->
  maxLocal page < Payload ci ->
  Local ci = minLocal page \/
  (0 < Payload ci - Local ci /\
   (Payload ci - Local ci) mod (usableSize page - 4) = 0).
Proof.
  intros Hmin Hus Hfit Hci Hgt.
  pose proof (headerSize_range page cell) as Hn.
  pose proof (payloadSize_range page cell) as Hp.
  destruct (ParsePtr_header page cell ci Hci) as (key & data & Hh).
  assert (HPs : payloadSize page cell = Payload ci).
  { unfold payloadSize. rewrite Hh. reflexivity. }
  destruct (ParsePtr_spill_fields page cell) as
    (ci' & Hci' & HP & HH & HL & HO & HS); [lia | lia |].
  rewrite Hci in Hci'. inversion Hci'; subst ci'. clear Hci'.
  rewrite surplusOf_mod in HL by lia.
  set (u := usableSize page - 4) in *.
  set (d := Payload ci - minLocal page) in *.
  pose proof (Z.mod_pos_bound d u ltac:(lia)) as Hm.
  destruct (minLocal page + d mod u <=? maxLocal page) eqn:E.
  - apply Z.leb_le in E. rewrite uint16_small in HL by lia.
    right. split; [lia |].
    replace (Payload ci - Local ci) with (d - d mod u) by lia.
    rewrite Zminus_mod, Z.mod_mod by lia.
    rewrite Z.sub_diag. apply Z.mod_0_l. lia.
  - rewrite uint16_small in HL by lia. left. exact HL.
Qed.

End Parse.

(** A one-byte varint reader, enough to run [ParsePtr] on small cells:
    a byte below 128 is its own value. *)
Definition varint1 (bs : list Z) : Z * Z :=
  match bs with
  | b :: _ => (1, b)
  | [] => (1, 0)
  end.

(** Varints of one and two bytes: seven bits to the byte, the high bit
    set on the first of two. *)
Definition varint2 (bs : list Z) : Z * Z :=
  match bs with
  | b0 :: b1 :: _ => if b0 <? 128 then (1, b0) else (2, (b0 - 128) * 128 + b1)
  | b0 :: _ => (1, b0)
  | [] => (1, 0)
  end.

(** An index-tree leaf page of a 1024-byte database. *)
Definition page1024 : MemoryPage :=
  {| leaf := 1; childPtrSize := 0; intKey := false; hasData := false;
     maxLocal := 230; minLocal := 103; usableSize := 1024 |}.

Lemma ParsePtr_spill_decision_witness :
  exists ci, ParsePtr varint1 varint1 page1024 [7; 1; 2; 3; 4; 5; 6; 7] = Some ci /\
    Payload ci = payloadSize varint1 varint1 page1024 [7; 1; 2; 3; 4; 5; 6; 7] /\
    Header ci = headerSize varint1 varint1 page1024 [7; 1; 2; 3; 4; 5; 6; 7] /\
    (Payload ci <= maxLocal page1024 ->
       Local ci = Payload ci /\ Overflow ci = 0 /\
       Size ci = Z.max (Header ci + Payload ci) 4) /\
    (maxLocal page1024 < Payload ci ->
       let surplus :=
         minLocal page1024 +
         (Payload ci - minLocal page1024) mod (usableSize page1024 - 4) in
       Local ci = (if surplus <=? maxLocal page1024 then surplus
                   else minLocal page1024) /\
       Overflow ci = Local ci + Header ci /\
       Size ci = Overflow ci + 4).
Proof.
  apply (ParsePtr_spill_decision varint1 varint1 page1024
           [7; 1; 2; 3; 4; 5; 6; 7]).
  - simpl. lia.
  - simpl. lia.
  - vm_compute. reflexivity.
Defined.

(** A payload of 4000 bytes on that page: 103 bytes stay local, the
    overflow page number sits at offset 105 and the cell takes 109
    bytes. *)
Example ParsePtr_payload_4000 :
  (fun ci => (Payload ci, Header ci, Local ci, Overflow ci, Size ci))
    <$> ParsePtr varint2 varint2 page1024 [159; 32; 1; 2; 3]
  = Some (4000, 2, 103, 105, 109).
Proof. vm_compute. reflexivity. Qed.

(** A payload of 230 bytes, the largest that stays local. *)
Example ParsePtr_payload_230 :
  (fun ci => (Payload ci, Header ci, Local ci, Overflow ci, Size ci))
    <$> ParsePtr varint2 varint2 page1024 [129; 102; 1; 2; 3]
  = Some (230, 2, 230, 0, 232).
Proof. vm_compute. reflexivity. Qed.

(** A payload of 1173 bytes on that page: 153 bytes stay local and 1020
    fill one overflow page. *)
Definition cell1173 : list Z := [137; 21; 1; 2; 3].

Lemma ParsePtr_local_within_bounds_witness :
  exists ci, ParsePtr varint2 varint2 page1024 cell1173 = Some ci /\
    (0 <= Local ci <= maxLocal page1024 /\
     Local ci <= Payload ci /\
     (maxLocal page1024 < Payload ci -> minLocal page1024 <= Local ci) /\
     4 <= Size ci <= Header ci + maxLocal page1024 + 4).
Proof.
  eexists. split; [vm_compute; reflexivity |].
  apply (ParsePtr_local_within_bounds varint2 varint2 page1024 cell1173).
  - simpl. lia.
  - simpl. lia.
  - vm_compute. reflexivity.
  - vm_compute. reflexivity.
Defined.

Lemma ParsePtr_spill_fills_overflow_pages_witness :
  exists ci, ParsePtr varint2 varint2 page1024 cell1173 = Some ci /\
    (Local ci = minLocal page1024 \/
     (0 < Payload ci - Local ci /\
      (Payload ci - Local ci) mod (usableSize page1024 - 4) = 0)).
Proof.
  eexists. split; [vm_compute; reflexivity |].
  apply (ParsePtr_spill_fills_overflow_pages varint2 varint2 page1024 cell1173).
  - simpl. lia.
  - simpl. lia.
  - vm_compute. reflexivity.
  - vm_compute. reflexivity.
  - vm_compute. reflexivity.
Defined.


End CellCodec.

(** ** cursor.go *)

Module Btree.

(** *** Data *)

(** A page of the cache.  [aCell] is the cell-index array resolved to the
    cell bytes it points at, so [nCell] is its length; [apOvfl] and
    [aiOvfl] are the staging area of cells that did not fit, with the
    positions they are meant for; [rightChild] is the rightmost child
    pointer of the header of an internal page. *)
Record MemoryPage : Type := {
  pgno : Z;
  IsLeaf : bool;
  IsIntegerKey : bool;
  HasData : bool;
  aCell : list (list Z);
  nOverflow : Z;
  aiOvfl : list Z;
  apOvfl : list (list Z);
  nFree : Z;
  rightChild : Z
}.

Definition nCell (p : MemoryPage) : Z := Z.of_nat (length (aCell p)).

Inductive CursorState : Type :=
| CURSOR_INVALID
| CURSOR_VALID
| CURSOR_REQUIRESEEK
| CURSOR_FAULT.

(** A cursor.  [Pages] holds page pointers; a pointer is the key of the
    page object in the cache, 0 standing for nil.  [nSize] and [nKey] are
    the fields of the embedded [CellInfo] the cursor code touches and
    [hasKeyInfo] tells whether [pKeyInfo] is non-nil. *)
Record Cursor : Type := {
  hasKeyInfo : bool;
  RootPage : Z;
  nSize : Z;
  nKey : Z;
  validNKey : Z;
  eState : CursorState;
  iPage : Z;
  aiIdx : list Z;
  Pages : list Z
}.

(** The calls into the balancing routines, in the order they are made. *)
Inductive BalanceCall : Type :=
| CallDeeper (pRoot : Z)
| CallQuick (pParent pPage : Z)
| CallNonroot (pParent iIdx : Z) (isRoot : bool).

(** What a cursor operation works on: the cursor, [pBt.usableSize], the
    page cache and the log of balancing calls. *)
Record St : Type := {
  cur : Cursor;
  usableSize : Z;
  store : gmap Z MemoryPage;
  calls : list BalanceCall
}.

Definition int16 (x : Z) : Z := (x + 32768) mod 65536 - 32768.

Lemma int16_small x : -32768 <= x < 32768 -> int16 x = x.
Proof. intros H. unfold int16. rewrite Z.mod_small; lia. Qed.

(** Array reads and writes; [None] is the index-out-of-range panic. *)
Definition aget {A} (l : list A) (i : Z) : option A :=
  if i <? 0 then None else l !! Z.to_nat i.

Definition aset {A} (l : list A) (i : Z) (x : A) : option (list A) :=
  if (0 <=? i) && (i <? Z.of_nat (length l))
  then Some (<[Z.to_nat i := x]> l) else None.

Definition with_cur (c : Cursor) (s : St) : St :=
  {| cur := c; usableSize := usableSize s; store := store s;
     calls := calls s |}.

Definition with_store (m : gmap Z MemoryPage) (s : St) : St :=
  {| cur := cur s; usableSize := usableSize s; store := m;
     calls := calls s |}.

Definition log_call (b : BalanceCall) (s : St) : St :=
  {| cur := cur s; usableSize := usableSize s; store := store s;
     calls := calls s ++ [b] |}.

Definition set_iPage (i : Z) (c : Cursor) : Cursor :=
  {| hasKeyInfo := hasKeyInfo c; RootPage := RootPage c; nSize := nSize c;
     nKey := nKey c; validNKey := validNKey c; eState := eState c;
     iPage := i; aiIdx := aiIdx c; Pages := Pages c |}.

Definition set_aiIdx (l : list Z) (c : Cursor) : Cursor :=
  {| hasKeyInfo := hasKeyInfo c; RootPage := RootPage c; nSize := nSize c;
     nKey := nKey c; validNKey := validNKey c; eState := eState c;
     iPage := iPage c; aiIdx := l; Pages := Pages c |}.

Definition set_Pages (l : list Z) (c : Cursor) : Cursor :=
  {| hasKeyInfo := hasKeyInfo c; RootPage := RootPage c; nSize := nSize c;
     nKey := nKey c; validNKey := validNKey c; eState := eState c;
     iPage := iPage c; aiIdx := aiIdx c; Pages := l |}.

(** [pCur.CellInfo.nSize = 0; pCur.validNKey = 0]. *)
Definition invalidate_info (c : Cursor) : Cursor :=
  {| hasKeyInfo := hasKeyInfo c; RootPage := RootPage c; nSize := 0;
     nKey := nKey c; validNKey := 0; eState := eState c;
     iPage := iPage c; aiIdx := aiIdx c; Pages := Pages c |}.

Definition set_nOverflow (n : Z) (p : MemoryPage) : MemoryPage :=
  {| pgno := pgno p; IsLeaf := IsLeaf p; IsIntegerKey := IsIntegerKey p;
     HasData := HasData p; aCell := aCell p; nOverflow := n;
     aiOvfl := aiOvfl p; apOvfl := apOvfl p; nFree := nFree p;
     rightChild := rightChild p |}.

(** *** The operations the cursor code calls but the sources at hand do
    not contain *)

Record Collaborators : Type := {
  (** the length of the cursor's [Pages] and [aiIdx] arrays *)
  BTCURSOR_MAX_DEPTH : Z;
  (** fetch a page into the cache: result code and the cache afterwards;
      on success the page object sits at the pointer [newPageNumber] *)
  GetPageAndInitialize : gmap Z MemoryPage -> Z -> rcode * gmap Z MemoryPage;
  (** [page.DbPage.Write()] *)
  DbPage_Write : gmap Z MemoryPage -> Z -> rcode;
  (** [balance_deeper(pRoot, &pChild)]: result code, the pointer left in
      the child slot, the cache afterwards *)
  balance_deeper : gmap Z MemoryPage -> Z -> rcode * Z * gmap Z MemoryPage;
  (** [balance_quick(pParent, pPage, pSpace)] *)
  balance_quick : gmap Z MemoryPage -> Z -> Z -> rcode * gmap Z MemoryPage;
  (** [pParent.BalanceNonroot(iIdx, pSpace, isRoot)] *)
  BalanceNonroot :
    gmap Z MemoryPage -> Z -> Z -> bool -> rcode * gmap Z MemoryPage
}.

(** *** MoveToChild and Balance *)

Section CursorOps.

Variable E : Collaborators.

(** [Cursor.MoveToChild]; [None] is a runtime panic (an array index out
    of range or a nil page pointer). *)
Definition MoveToChild (newPageNumber : Z) (s : St) : option (rcode * St) :=
  let c := cur s in
  let i := iPage c in
  if BTCURSOR_MAX_DEPTH E - 1 <=? iPage c then Some (SQLITE_CORRUPT, s)
  else
    let '(rc, m) := GetPageAndInitialize E (store s) newPageNumber in
    match rc with
    | SQLITE_OK =>
        pages1 ← aset (Pages c) (i + 1) newPageNumber;
        idx1 ← aset (aiIdx c) (i + 1) 0;
        let c1 := invalidate_info
                    (set_iPage (int16 (i + 1))
                       (set_aiIdx idx1 (set_Pages pages1 c))) in
        pNewPage ← m !! newPageNumber;
        pCurPtr ← aget pages1 i;
        pCurPage ← m !! pCurPtr;
        let rc1 :=
          if (nCell pNewPage <? 1)
             || negb (eqb (IsIntegerKey pNewPage) (IsIntegerKey pCurPage))
          then SQLITE_CORRUPT else SQLITE_OK in
        Some (rc1, with_cur c1 (with_store m s))
    | _ => Some (rc, with_store m s)
    end.

(** The test that selects [balance_quick] in [Balance]; the operands are
    read left to right and only as far as needed. *)
Definition quick_test (pPage pParent : MemoryPage) (iIdx : Z) : option bool :=
  if HasData pPage && (nOverflow pPage =? 1) then
    ovfl0 ← aget (aiOvfl pPage) 0;
    Some ((ovfl0 =? nCell pPage)
          && negb (pgno pParent =? 1)
          && (nCell pParent =? iIdx))
  else Some false.

(** One turn of the loop of [Balance], up to the test that closes the
    loop body: the result code carried so far goes in, the new one comes
    out.  The scratch buffers [pSpace], [pFree] and the page reference
    counts are not modelled. *)
Definition Balance_iter (nMin : Z) (rc : rcode) (s : St) : option (rcode * St) :=
  let c := cur s in
  pPagePtr ← aget (Pages c) (iPage c);
  pPage ← store s !! pPagePtr;
  if iPage c =? 0 then
    if negb (nOverflow pPage =? 0) then
      let '(rc1, child, m) := balance_deeper E (store s) pPagePtr in
      pages1 ← aset (Pages c) 1 child;
      let s1 := log_call (CallDeeper pPagePtr)
                  (with_cur (set_Pages pages1 c) (with_store m s)) in
      match rc1 with
      | SQLITE_OK =>
          idx0 ← aset (aiIdx c) 0 0;
          idx1 ← aset idx0 1 0;
          Some (rc1, with_cur (set_aiIdx idx1 (set_iPage 1 (cur s1))) s1)
      | _ => Some (rc1, s1)
      end
    else Some (rc, s)
  else if (nOverflow pPage =? 0) && (nFree pPage <=? nMin) then Some (rc, s)
  else
    pParentPtr ← aget (Pages c) (iPage c - 1);
    pParent ← store s !! pParentPtr;
    iIdx ← aget (aiIdx c) (iPage c - 1);
    r ← match DbPage_Write E (store s) pParentPtr with
        | SQLITE_OK =>
            q ← quick_test pPage pParent iIdx;
            if q : bool then
              let '(rc1, m) := balance_quick E (store s) pParentPtr pPagePtr in
              Some (rc1, log_call (CallQuick pParentPtr pPagePtr)
                           (with_store m s))
            else
              let '(rc1, m) :=
                BalanceNonroot E (store s) pParentPtr iIdx (iPage c =? 1) in
              Some (rc1, log_call (CallNonroot pParentPtr iIdx (iPage c =? 1))
                           (with_store m s))
        | rc1 => Some (rc1, s)
        end;
    let '(rc1, s1) := r in
    let m2 := alter (set_nOverflow 0) pPagePtr (store s1) in
    Some (rc1, with_cur (set_iPage (int16 (iPage c - 1)) (cur s1))
                 (with_store m2 s1)).

(** The loop of [Balance]: the body is run again as long as the result
    code is not [SQLITE_OK].  [None] with no fuel left. *)
Fixpoint Balance_loop (fuel : nat) (nMin : Z) (rc : rcode) (s : St)
  : option (rcode * St) :=
  match fuel with
  | O => None
  | S fuel' =>
      match Balance_iter nMin rc s with
      | None => None
      | Some (SQLITE_OK, s1) => Some (SQLITE_OK, s1)
      | Some (rc1, s1) => Balance_loop fuel' nMin rc1 s1
      end
  end.

Definition Balance (fuel : nat) (s : St) : option (rcode * St) :=
  Balance_loop fuel (usableSize s * 2 / 3) SQLITE_OK s.

(** *** Delete *)

(** The cursor and pager operations [Delete] calls besides [Balance];
    none is in the sources at hand.  [saveAllCursors] and [clearCell] act
    on other cursors and on overflow chains, which are outside this model,
    so only their result codes are kept. *)
Record CursorMoves : Type := {
  sqlite3BtreePrevious : St -> option (rcode * St);
  saveAllCursors : St -> rcode;
  clearCell : MemoryPage -> list Z -> rcode;
  MoveToRoot : St -> option St
}.

Definition put4byte (v : Z) : list Z :=
  [(v / 16777216) mod 256; (v / 65536) mod 256; (v / 256) mod 256; v mod 256].

Definition get4byte (bs : list Z) : Z :=
  match bs with
  | a :: b :: c :: d :: _ => ((a * 256 + b) * 256 + c) * 256 + d
  | _ => 0
  end.

Arguments put4byte : simpl never.

Definition FindCell (p : MemoryPage) (i : Z) : option (list Z) :=
  aget (aCell p) i.

Definition cellSize (cell : list Z) : Z := Z.of_nat (length cell).

(** Modelled from the spec: [dropCell] is not in the sources at hand.
    "dropCell(i, size)" takes cell [i] out of the page and gives its
    [size] bytes and its 2-byte index entry back to the free space.  It
    receives the result code by reference: it does nothing when that is
    already an error, and an index outside the page is corruption. *)
Definition dropCell (p : MemoryPage) (idx sz : Z) (rc : rcode)
  : rcode * MemoryPage :=
  match rc with
  | SQLITE_OK =>
      if (0 <=? idx) && (idx <? nCell p) then
        (SQLITE_OK,
         {| pgno := pgno p; IsLeaf := IsLeaf p;
            IsIntegerKey := IsIntegerKey p; HasData := HasData p;
            aCell := delete (Z.to_nat idx) (aCell p);
            nOverflow := nOverflow p; aiOvfl := aiOvfl p;
            apOvfl := apOvfl p; nFree := nFree p + sz + 2;
            rightChild := rightChild p |})
      else (SQLITE_CORRUPT, p)
  | _ => (rc, p)
  end.

(** Modelled from the spec: [InsertCell] is not in the sources at hand.
    "insertCell(i, bytes, childPage)": a non-zero [childPage] is written
    over the first four bytes of the cell; the cell goes into the page at
    index [i] if the page has no staged cell yet and has room for the cell
    and its 2-byte index entry, and otherwise into the staging area
    together with its intended position [i], leaving the page "marked
    nOverflow > 0". *)
Definition InsertCell (p : MemoryPage) (i : Z) (cell : list Z) (iChild : Z)
  : rcode * MemoryPage :=
  let cell' := if iChild =? 0 then cell else put4byte iChild ++ drop 4 cell in
  let sz := cellSize cell in
  if negb (nOverflow p =? 0) || (nFree p <? sz + 2) then
    let j := Z.to_nat (nOverflow p) in
    (SQLITE_OK,
     {| pgno := pgno p; IsLeaf := IsLeaf p;
        IsIntegerKey := IsIntegerKey p; HasData := HasData p;
        aCell := aCell p;
        nOverflow := nOverflow p + 1;
        aiOvfl := take j (aiOvfl p) ++ [i];
        apOvfl := take j (apOvfl p) ++ [cell'];
        nFree := nFree p; rightChild := rightChild p |})
  else
    (SQLITE_OK,
     {| pgno := pgno p; IsLeaf := IsLeaf p;
        IsIntegerKey := IsIntegerKey p; HasData := HasData p;
        aCell := take (Z.to_nat i) (aCell p) ++ cell' :: drop (Z.to_nat i) (aCell p);
        nOverflow := nOverflow p; aiOvfl := aiOvfl p;
        apOvfl := apOvfl p; nFree := nFree p - (sz + 2);
        rightChild := rightChild p |}).

Arguments dropCell : simpl never.
Arguments InsertCell : simpl never.

Variable T : CursorMoves.

Definition is_ok (rc : rcode) : bool :=
  match rc with SQLITE_OK => true | _ => false end.

(** The first part of [Delete], down to the call of [Balance]: the cell
    under the cursor is taken out of its page and, on an internal page,
    replaced by the last cell of the leaf the cursor moved to.  The bytes
    handed to [InsertCell] start four bytes before the leaf cell; those
    four bytes are page bytes that the child page number overwrites, and
    stand here as zeros.  [InvalidateIncrblobCursors] and
    [allocateTempSpace] touch nothing of this state and are left out. *)
Definition Delete_remove (s : St) : option (rcode * St) :=
  let c := cur s in
  pPage ← aget (Pages c) (iPage c);
  page ← store s !! pPage;
  idx ← aget (aiIdx c) (iPage c);
  if (nCell page <=? idx)
     || negb (match eState c with CURSOR_VALID => true | _ => false end)
  then Some (SQLITE_ERROR, s)
  else
    let iCellDepth := iPage c in
    let iCellIdx := idx in
    pCell ← FindCell page iCellIdx;
    r ← (if negb (IsLeaf page) then sqlite3BtreePrevious T s
         else Some (SQLITE_OK, s));
    let '(rc, s1) := r in
    if negb (is_ok rc) then Some (rc, s1)
    else
      let rc := saveAllCursors T s1 in
      if negb (is_ok rc) then Some (rc, s1)
      else
        let rc := DbPage_Write E (store s1) pPage in
        if negb (is_ok rc) then Some (rc, s1)
        else
          page1 ← store s1 !! pPage;
          let rc := clearCell T page1 pCell in
          let '(rc, page2) := dropCell page1 iCellIdx (cellSize pCell) rc in
          let s2 := with_store (<[pPage := page2]> (store s1)) s1 in
          if negb (is_ok rc) then Some (rc, s2)
          else if negb (IsLeaf page2) then
            pIsLeaf ← aget (Pages (cur s2)) (iPage (cur s2));
            leaf ← store s2 !! pIsLeaf;
            pChild ← aget (Pages (cur s2)) (iCellDepth + 1);
            child ← store s2 !! pChild;
            let n := pgno child in
            pCell ← FindCell leaf (nCell leaf - 1);
            let nCellSz := cellSize pCell in
            let rc := DbPage_Write E (store s2) pIsLeaf in
            if is_ok rc then
              page3 ← store s2 !! pPage;
              let '(rc, page4) :=
                InsertCell page3 iCellIdx ([0; 0; 0; 0] ++ pCell) n in
              let s3 := with_store (<[pPage := page4]> (store s2)) s2 in
              if is_ok rc then
                leaf1 ← store s3 !! pIsLeaf;
                let '(rc, leaf2) :=
                  dropCell leaf1 (nCell leaf1 - 1) nCellSz rc in
                Some (rc, with_store (<[pIsLeaf := leaf2]> (store s3)) s3)
              else Some (rc, s3)
            else Some (rc, s2)
          else Some (rc, s2).

(** [Delete]: the removal, the rebalancing, the move back to the root.
    [iCellDepth] is the depth the cursor had on entry. *)
Definition Delete (fuel : nat) (s : St) : option (rcode * St) :=
  let iCellDepth := iPage (cur s) in
  r ← Delete_remove s;
  let '(rc, s1) := r in
  if negb (is_ok rc) then Some (rc, s1)
  else
    r ← Balance fuel s1;
    let '(rc, s2) := r in
    r ← (if is_ok rc && (iCellDepth <? iPage (cur s2)) then
           Balance fuel (with_cur (set_iPage iCellDepth (cur s2)) s2)
         else Some (rc, s2));
    let '(rc, s3) := r in
    if is_ok rc then
      s4 ← MoveToRoot T s3;
      Some (rc, s4)
    else Some (rc, s3).

(** *** Facts about the array helpers *)

Lemma aget_Some {A} (l : list A) i x :
  aget l i = Some x <-> 0 <= i /\ l !! Z.to_nat i = Some x.
Proof.
  unfold aget. destruct (i <? 0) eqn:Hi.
  - apply Z.ltb_lt in Hi. split; [discriminate | lia].
  - apply Z.ltb_ge in Hi. tauto.
Qed.

Lemma aset_Some {A} (l : list A) i x :
  0 <= i < Z.of_nat (length l) ->
  aset l i x = Some (<[Z.to_nat i := x]> l).
Proof.
  intros [H1 H2]. unfold aset.
  apply Z.leb_le in H1. apply Z.ltb_lt in H2. rewrite H1, H2. reflexivity.
Qed.

Lemma aset_length {A} (l l' : list A) i x :
  aset l i x = Some l' -> length l' = length l.
Proof.
  unfold aset. destruct (_ && _); [| discriminate].
  intros H. inversion H. apply length_insert.
Qed.

(** *** MoveToChild *)

(** At the depth limit the cursor is left as it is. *)
Lemma MoveToChild_at_limit n s :
  BTCURSOR_MAX_DEPTH E - 1 <= iPage (cur s) ->
  MoveToChild n s = Some (SQLITE_CORRUPT, s).
Proof.
  intros H. unfold MoveToChild.
  apply Z.leb_le in H. rewrite H. reflexivity.
Qed.

(** A failed fetch is handed back as it is, the cursor not moved. *)
Lemma MoveToChild_fetch_failed n s rc m :
  iPage (cur s) < BTCURSOR_MAX_DEPTH E - 1 ->
  GetPageAndInitialize E (store s) n = (rc, m) ->
  rc <> SQLITE_OK ->
  MoveToChild n s = Some (rc, with_store m s).
Proof.
  intros H Hf Hrc. unfold MoveToChild.
  apply Z.leb_gt in H. rewrite H, Hf.
  destruct rc; congruence.
Qed.

(** C10 (amended).  [MoveToChild] returns [SQLITE_CORRUPT] and leaves the
    state alone at depth [BTCURSOR_MAX_DEPTH - 1]; below that depth it
    returns the error of a failed page fetch without descending; and
    when the fetch succeeds it pushes the child with cell index 0,
    increments [iPage], clears [CellInfo.nSize] and [validNKey], and
    returns [SQLITE_CORRUPT] if the child has fewer than one cell or its
    integer-key flag differs from the current page's, [SQLITE_OK]
    otherwise. *)
Theorem MoveToChild_outcomes n s :
  0 <= iPage (cur s) ->
  BTCURSOR_MAX_DEPTH E <= 32768 ->
  BTCURSOR_MAX_DEPTH E <= Z.of_nat (length (Pages (cur s))) ->
  BTCURSOR_MAX_DEPTH E <= Z.of_nat (length (aiIdx (cur s))) ->
  (BTCURSOR_MAX_DEPTH E - 1 <= iPage (cur s) ->
     MoveToChild n s = Some (SQLITE_CORRUPT, s)) /\
  (iPage (cur s) < BTCURSOR_MAX_DEPTH E - 1 ->
   forall rc m, GetPageAndInitialize E (store s) n = (rc, m) ->
     (rc <> SQLITE_OK -> MoveToChild n s = Some (rc, with_store m s)) /\
     (rc = SQLITE_OK ->
      forall child curPtr curPage,
        m !! n = Some child ->
        aget (Pages (cur s)) (iPage (cur s)) = Some curPtr ->
        m !! curPtr = Some curPage ->
        exists c1,
          MoveToChild n s =
            Some (if (nCell child <? 1)
                     || negb (eqb (IsIntegerKey child) (IsIntegerKey curPage))
                  then SQLITE_CORRUPT else SQLITE_OK,
                  with_cur c1 (with_store m s)) /\
          iPage c1 = iPage (cur s) + 1 /\
          aget (Pages c1) (iPage c1) = Some n /\
          aget (aiIdx c1) (iPage c1) = Some 0 /\
          nSize c1 = 0 /\ validNKey c1 = 0)).
Proof.
  intros Hi Hmax HP HI. split; [apply MoveToChild_at_limit |].
  intros Hlt rc m Hf. split; [apply MoveToChild_fetch_failed; assumption |].
  intros -> child curPtr curPage Hchild Hptr Hcur.
  unfold MoveToChild.
  assert (Hlt' := Hlt). apply Z.leb_gt in Hlt'. rewrite Hlt', Hf.
  rewrite (aset_Some (Pages (cur s))) by lia.
  rewrite (aset_Some (aiIdx (cur s))) by lia. simpl.
  rewrite Hchild. simpl.
  apply aget_Some in Hptr. destruct Hptr as [_ Hptr].
  assert (Hrd : aget (<[Z.to_nat (iPage (cur s) + 1) := n]> (Pages (cur s)))
                  (iPage (cur s)) = Some curPtr).
  { apply aget_Some. split; [lia |].
    rewrite list_lookup_insert_ne by lia. exact Hptr. }
  rewrite Hrd. simpl. rewrite Hcur. simpl.
  eexists. split; [reflexivity |]. simpl.
  rewrite int16_small by lia.
  split; [reflexivity |].
  split.
  - apply aget_Some. split; [lia |]. apply list_lookup_insert_eq. lia.
  - split; [| split; reflexivity].
    apply aget_Some. split; [lia |]. apply list_lookup_insert_eq. lia.
Qed.

(** *** Balance *)




(** A successful [balance_deeper] closes the loop at once: [Balance]
    returns [SQLITE_OK] with the cursor on the new child, whatever the
    state of that child. *)
Lemma Balance_stops_after_deeper fuel s pRoot root child m idx0 idx1 pages1 :
  iPage (cur s) = 0 ->
  aget (Pages (cur s)) 0 = Some pRoot ->
  store s !! pRoot = Some root ->
  nOverflow root <> 0 ->
  balance_deeper E (store s) pRoot = (SQLITE_OK, child, m) ->
  aset (Pages (cur s)) 1 child = Some pages1 ->
  aset (aiIdx (cur s)) 0 0 = Some idx0 ->
  aset idx0 1 0 = Some idx1 ->
  exists s1, Balance (S fuel) s = Some (SQLITE_OK, s1) /\
    iPage (cur s1) = 1 /\
    aget (Pages (cur s1)) (iPage (cur s1)) = Some child /\
    store s1 = m /\
    calls s1 = calls s ++ [CallDeeper pRoot].
Proof.
  intros Hi HP Hr Hov Hd Hp1 H0 H1.
  unfold Balance. simpl. unfold Balance_iter.
  rewrite Hi, HP. simpl. rewrite Hr. simpl.
  apply Z.eqb_neq in Hov. rewrite Hov. simpl.
  rewrite Hd, Hp1. simpl. rewrite H0. simpl. rewrite H1. simpl.
  eexists. split; [reflexivity |]. simpl.
  split; [reflexivity |]. split; [| split; reflexivity].
  unfold aset in Hp1. destruct (_ && _) eqn:Eb; [| discriminate].
  inversion Hp1; subst. apply aget_Some. split; [lia |].
  apply list_lookup_insert_eq.
  apply andb_true_iff in Eb. destruct Eb as [_ Eb].
  apply Z.ltb_lt in Eb. lia.
Qed.

(** *** Delete on an internal page *)



Lemma FindCell_Some p i c :
  FindCell p i = Some c -> 0 <= i < nCell p.
Proof.
  unfold FindCell, nCell. intros H. apply aget_Some in H.
  destruct H as [H0 H]. apply lookup_lt_Some in H. lia.
Qed.




(** *** Balance on pages that need nothing, and on failures *)

(** X3.  [Balance] leaves a page that needs no balancing alone: on a
    root with no overflow cell, or on another page with no overflow cell
    and no more than [usableSize * 2 / 3] free bytes, it returns
    [SQLITE_OK] at once, with the cursor and the cache as they were and
    no balancing routine called. *)
Theorem Balance_leaves_balanced_page fuel s pPagePtr pPage :
  aget (Pages (cur s)) (iPage (cur s)) = Some pPagePtr ->
  store s !! pPagePtr = Some pPage ->
  nOverflow pPage = 0 ->
  iPage (cur s) = 0 \/ nFree pPage <= usableSize s * 2 / 3 ->
  Balance (S fuel) s = Some (SQLITE_OK, s).
Proof.
  intros HP Hpage Hov Hcase.
  unfold Balance. simpl. unfold Balance_iter.
  rewrite HP. simpl. rewrite Hpage. simpl. rewrite Hov. simpl.
  destruct (iPage (cur s) =? 0) eqn:Ei; [reflexivity |].
  destruct Hcase as [H0 | Hfree].
  - apply Z.eqb_neq in Ei. contradiction.
  - apply Z.leb_le in Hfree. rewrite Hfree. reflexivity.
Qed.

Lemma Balance_loop_only_ok fuel : forall nMin rc s rc1 s1,
  Balance_loop fuel nMin rc s = Some (rc1, s1) -> rc1 = SQLITE_OK.
Proof.
  induction fuel as [| fuel IH]; intros nMin rc s rc1 s1 H; [discriminate |].
  simpl in H.
  destruct (Balance_iter nMin rc s) as [[rc2 s2] |]; [| discriminate].
  destruct rc2; try (apply IH in H; exact H).
  inversion H. reflexivity.
Qed.

(** X4.  [Balance] never hands an error back: its loop is left only when
    the result code is [SQLITE_OK], so whenever [Balance] returns, however
    many turns it took and whatever the balancing routines answered on
    the way, it returns [SQLITE_OK]. *)
Theorem Balance_never_returns_error fuel s rc s1 :
  Balance fuel s = Some (rc, s1) -> rc = SQLITE_OK.
Proof. apply Balance_loop_only_ok. Qed.

(** X5.  When the parent of a page that needs balancing cannot be made
    writable, the turn of the loop of [Balance] calls no balancing
    routine, yet it still sets [nOverflow] of the page to 0 and moves the
    cursor up to the parent; the error code is what the turn leaves in
    [rc]. *)
Theorem Balance_iter_parent_not_writable nMin rc s pPagePtr pPage pParentPtr
    pParent iIdx :
  aget (Pages (cur s)) (iPage (cur s)) = Some pPagePtr ->
  store s !! pPagePtr = Some pPage ->
  0 < iPage (cur s) <= 32768 ->
  nOverflow pPage <> 0 \/ nMin < nFree pPage ->
  aget (Pages (cur s)) (iPage (cur s) - 1) = Some pParentPtr ->
  store s !! pParentPtr = Some pParent ->
  aget (aiIdx (cur s)) (iPage (cur s) - 1) = Some iIdx ->
  DbPage_Write E (store s) pParentPtr <> SQLITE_OK ->
  exists s1,
    Balance_iter nMin rc s = Some (DbPage_Write E (store s) pParentPtr, s1) /\
    calls s1 = calls s /\
    iPage (cur s1) = iPage (cur s) - 1 /\
    store s1 = alter (set_nOverflow 0) pPagePtr (store s) /\
    (forall p, store s1 !! pPagePtr = Some p -> nOverflow p = 0).
Proof.
  intros HP Hpage Hi Hneed HPar Hparent Hidx Hw.
  unfold Balance_iter.
  rewrite HP. simpl. rewrite Hpage. simpl.
  assert (Ei : (iPage (cur s) =? 0) = false) by (apply Z.eqb_neq; lia).
  rewrite Ei.
  assert (En : (nOverflow pPage =? 0) && (nFree pPage <=? nMin) = false).
  { destruct Hneed as [H | H].
    - apply Z.eqb_neq in H. rewrite H. reflexivity.
    - apply Z.leb_gt in H. rewrite H. apply andb_false_r. }
  rewrite En, HPar. simpl. rewrite Hparent. simpl. rewrite Hidx. simpl.
  destruct (DbPage_Write E (store s) pParentPtr) eqn:Ew; [congruence | | | |];
    (eexists; split; [reflexivity |]; simpl;
     split; [reflexivity |];
     split; [apply int16_small; lia |];
     split; [reflexivity |];
     intros p Hp; rewrite lookup_alter_eq, Hpage in Hp;
     inversion Hp; reflexivity).
Qed.

(** *** Delete on a leaf, and what it refuses *)

(** X6.  [Delete] refuses a cursor that does not stand on a cell: when
    the cursor's index is not below the number of cells of its page, or
    the cursor is not in state [CURSOR_VALID], it returns [SQLITE_ERROR]
    and changes nothing. *)
Theorem Delete_refuses_cursor_off_cell fuel s pPage page idx :
  aget (Pages (cur s)) (iPage (cur s)) = Some pPage ->
  store s !! pPage = Some page ->
  aget (aiIdx (cur s)) (iPage (cur s)) = Some idx ->
  nCell page <= idx \/ eState (cur s) <> CURSOR_VALID ->
  Delete fuel s = Some (SQLITE_ERROR, s).
Proof.
  intros HP Hpage Hidx Hbad.
  unfold Delete, Delete_remove.
  rewrite HP. simpl. rewrite Hpage. simpl. rewrite Hidx. simpl.
  assert (Hc : (nCell page <=? idx)
               || negb (match eState (cur s) with
                        | CURSOR_VALID => true | _ => false end) = true).
  { destruct Hbad as [H | H].
    - apply Z.leb_le in H. rewrite H. reflexivity.
    - destruct (eState (cur s)); try congruence; apply orb_true_r. }
  rewrite Hc. reflexivity.
Qed.


(** X8.  When the positions of the other cursors cannot be saved, or the
    page of the cell cannot be made writable, [Delete] returns that error
    having changed no page and called no balancing routine; on an
    internal page the cursor has by then moved to the predecessor. *)
Theorem Delete_stops_before_changing_pages fuel s pPage page idx pCell s1 :
  aget (Pages (cur s)) (iPage (cur s)) = Some pPage ->
  store s !! pPage = Some page ->
  aget (aiIdx (cur s)) (iPage (cur s)) = Some idx ->
  eState (cur s) = CURSOR_VALID ->
  FindCell page idx = Some pCell ->
  (if IsLeaf page then Some (SQLITE_OK, s) else sqlite3BtreePrevious T s)
    = Some (SQLITE_OK, s1) ->
  saveAllCursors T s1 <> SQLITE_OK \/
  DbPage_Write E (store s1) pPage <> SQLITE_OK ->
  Delete fuel s =
    Some (if is_ok (saveAllCursors T s1) then DbPage_Write E (store s1) pPage
          else saveAllCursors T s1, s1).
Proof.
  intros HP Hpage Hidx Hst HpCell Hprev Hfail.
  pose proof (FindCell_Some _ _ _ HpCell) as Hrange.
  unfold Delete, Delete_remove.
  rewrite HP. simpl. rewrite Hpage. simpl. rewrite Hidx. simpl.
  assert (Hg : (nCell page <=? idx) = false) by (apply Z.leb_gt; lia).
  rewrite Hg, Hst. simpl.
  rewrite HpCell. simpl.
  assert (Hr : (if negb (IsLeaf page) then sqlite3BtreePrevious T s
                else Some (SQLITE_OK, s)) = Some (SQLITE_OK, s1)).
  { destruct (IsLeaf page); exact Hprev. }
  rewrite Hr. simpl.
  destruct (saveAllCursors T s1) eqn:Es; simpl; try reflexivity.
  destruct Hfail as [H | H]; [congruence |].
  destruct (DbPage_Write E (store s1) pPage) eqn:Ew; simpl;
    try reflexivity; congruence.
Qed.

End CursorOps.

(** *** A small pager to run the cursor code on *)

Definition set_aCell (l : list (list Z)) (p : MemoryPage) : MemoryPage :=
  {| pgno := pgno p; IsLeaf := IsLeaf p; IsIntegerKey := IsIntegerKey p;
     HasData := HasData p; aCell := l; nOverflow := nOverflow p;
     aiOvfl := aiOvfl p; apOvfl := apOvfl p; nFree := nFree p;
     rightChild := rightChild p |}.

(** The first page number above all pages of the cache. *)
Definition fresh_pgno (m : gmap Z MemoryPage) : Z :=
  1 + foldr Z.max 1 (map fst (map_to_list m)).

(** Modelled from the spec: [balance_deeper] is not in the sources at
    hand.  "Allocate a new child; copy root's contents into the child;
    leave root pointing to the new child as its sole branch": the child
    takes the root's cells, the staged overflow cells included, and the
    root is left an internal page with no cell. *)
Definition balance_deeper_model (m : gmap Z MemoryPage) (pRoot : Z)
  : rcode * Z * gmap Z MemoryPage :=
  match m !! pRoot with
  | Some root =>
      let c := fresh_pgno m in
      let child :=
        {| pgno := c; IsLeaf := IsLeaf root;
           IsIntegerKey := IsIntegerKey root; HasData := HasData root;
           aCell := aCell root; nOverflow := nOverflow root;
           aiOvfl := aiOvfl root; apOvfl := apOvfl root;
           nFree := nFree root; rightChild := rightChild root |} in
      let root' :=
        {| pgno := pgno root; IsLeaf := false;
           IsIntegerKey := IsIntegerKey root; HasData := HasData root;
           aCell := []; nOverflow := 0; aiOvfl := []; apOvfl := [];
           nFree := nFree root; rightChild := c |} in
      (SQLITE_OK, c, <[c := child]> (<[pRoot := root']> m))
  | None => (SQLITE_CORRUPT, 0, m)
  end.

(** A pager whose pages are all in the cache and writable; [fetch] is the
    result code of fetching a page. The two sibling balancers leave the
    cache alone. *)
Definition memPager (fetch : Z -> rcode) : Collaborators :=
  {| BTCURSOR_MAX_DEPTH := 20;
     GetPageAndInitialize := fun m n => (fetch n, m);
     DbPage_Write := fun _ _ => SQLITE_OK;
     balance_deeper := balance_deeper_model;
     balance_quick := fun m _ _ => (SQLITE_OK, m);
     BalanceNonroot := fun m _ _ _ => (SQLITE_OK, m) |}.

Definition set_eState (e : CursorState) (c : Cursor) : Cursor :=
  {| hasKeyInfo := hasKeyInfo c; RootPage := RootPage c; nSize := nSize c;
     nKey := nKey c; validNKey := validNKey c; eState := e;
     iPage := iPage c; aiIdx := aiIdx c; Pages := Pages c |}.

(** Modelled from the spec: the descent to the last entry below the
    current page is not in the sources at hand.  From an internal page
    the cursor takes the rightmost child pointer, its index set past the
    last cell, until it reaches a leaf, where it stops on the last cell
    ("first()/last(): descend leftmost/rightmost spine"). *)
Fixpoint moveToRightmost (E : Collaborators) (fuel : nat) (s : St)
  : option (rcode * St) :=
  let c := cur s in
  pPage ← aget (Pages c) (iPage c);
  page ← store s !! pPage;
  if IsLeaf page then
    idx ← aset (aiIdx c) (iPage c) (nCell page - 1);
    Some (SQLITE_OK, with_cur (invalidate_info (set_aiIdx idx c)) s)
  else
    match fuel with
    | O => None
    | S fuel' =>
        idx ← aset (aiIdx c) (iPage c) (nCell page);
        r ← MoveToChild E (rightChild page) (with_cur (set_aiIdx idx c) s);
        let '(rc, s1) := r in
        if is_ok rc then moveToRightmost E fuel' s1 else Some (rc, s1)
    end.

(** The climb of [prev] from the first cell of a page: up to the nearest
    ancestor entered through a later cell; [true] when there is none. *)
Fixpoint climbFromFirst (fuel : nat) (s : St) : option (bool * St) :=
  let c := cur s in
  idx ← aget (aiIdx c) (iPage c);
  if idx =? 0 then
    if iPage c =? 0 then
      Some (true, with_cur (set_eState CURSOR_INVALID c) s)
    else
      match fuel with
      | O => None
      | S fuel' =>
          climbFromFirst fuel'
            (with_cur (invalidate_info (set_iPage (iPage c - 1) c)) s)
      end
  else Some (false, s).

(** Modelled from the spec: [sqlite3BtreePrevious] is not in the sources
    at hand.  "prev(): advances to the in-order predecessor at the leaf
    level; may ascend-descend to cross page boundaries; becomes Invalid
    past ends."  On an internal page the predecessor is the last entry
    below the child of the current cell; on a leaf it is the cell before,
    or the entry of the ancestor reached by [climbFromFirst], which in a
    table tree, whose internal cells carry no entry, is stepped over in
    turn. *)
Fixpoint previous_model (E : Collaborators) (fuel : nat) (s : St)
  : option (rcode * St) :=
  match fuel with
  | O => None
  | S fuel' =>
      let c := cur s in
      pPage ← aget (Pages c) (iPage c);
      page ← store s !! pPage;
      if negb (IsLeaf page) then
        idx ← aget (aiIdx c) (iPage c);
        cell ← FindCell page idx;
        r ← MoveToChild E (get4byte cell) s;
        let '(rc, s1) := r in
        if is_ok rc then moveToRightmost E fuel' s1 else Some (rc, s1)
      else
        r ← climbFromFirst fuel' s;
        let '(atStart, s1) := r in
        if atStart : bool then Some (SQLITE_OK, s1)
        else
          let c1 := cur s1 in
          idx ← aget (aiIdx c1) (iPage c1);
          idx1 ← aset (aiIdx c1) (iPage c1) (idx - 1);
          let s2 := with_cur (invalidate_info (set_aiIdx idx1 c1)) s1 in
          pPage2 ← aget (Pages c1) (iPage c1);
          page2 ← store s2 !! pPage2;
          if IsIntegerKey page2 && negb (IsLeaf page2)
          then previous_model E fuel' s2
          else Some (SQLITE_OK, s2)
  end.

(** Cursor moves over [memPager]: every collaborator outside the model
    succeeds, and [MoveToRoot] puts the cursor back on the first cell of
    the root. *)
Definition memMoves (E : Collaborators) : CursorMoves :=
  {| sqlite3BtreePrevious := previous_model E 40;
     saveAllCursors := fun _ => SQLITE_OK;
     clearCell := fun _ _ => SQLITE_OK;
     MoveToRoot := fun s =>
       idx ← aset (aiIdx (cur s)) 0 0;
       Some (with_cur (invalidate_info
                         (set_aiIdx idx (set_iPage 0 (cur s)))) s) |}.

Definition mkCursor (depth : Z) (idx pages : list Z) : Cursor :=
  {| hasKeyInfo := true; RootPage := 2; nSize := 7; nKey := 0;
     validNKey := 1; eState := CURSOR_VALID; iPage := depth;
     aiIdx := idx ++ replicate (20 - length idx)%nat 0;
     Pages := pages ++ replicate (20 - length pages)%nat 0 |}.

Definition mkPage (no : Z) (isLeaf hasData : bool) (cells : list (list Z))
    (ovfl : list (list Z)) (iOvfl : list Z) (free : Z) : MemoryPage :=
  {| pgno := no; IsLeaf := isLeaf; IsIntegerKey := false; HasData := hasData;
     aCell := cells; nOverflow := Z.of_nat (length ovfl); aiOvfl := iOvfl;
     apOvfl := ovfl; nFree := free; rightChild := 0 |}.

Definition mkSt (c : Cursor) (pages : list MemoryPage) : St :=
  {| cur := c; usableSize := 1024;
     store := list_to_map (map (fun p => (pgno p, p)) pages);
     calls := [] |}.

(** Once the result code is an error and the cursor sits on a root that
    is not overfull, no turn of the loop changes anything and none ends
    it. *)
Lemma Balance_loop_stuck_on_error E fuel nMin rc s pRoot root :
  rc <> SQLITE_OK ->
  iPage (cur s) = 0 ->
  aget (Pages (cur s)) 0 = Some pRoot ->
  store s !! pRoot = Some root ->
  nOverflow root = 0 ->
  Balance_loop E fuel nMin rc s = None.
Proof.
  intros Hrc Hi HP Hr Hov. induction fuel as [| fuel IH]; [reflexivity |].
  simpl. unfold Balance_iter. rewrite Hi, HP. simpl. rewrite Hr. simpl.
  rewrite Hov. simpl. destruct rc; congruence.
Qed.

(** **** MoveToChild on concrete cursors *)

(** A two-level index tree: root page 2 with one cell, leaf page 3. *)
Definition twoLevel : St :=
  mkSt (mkCursor 0 [0] [2])
       [mkPage 2 false false [[0; 0; 0; 3; 1; 9]] [] [] 900;
        mkPage 3 true false [[1; 5]; [1; 7]] [] [] 900].

(** C10, counterexample.  Below the depth limit, with no child page
    fetched because the pager reports an I/O error, [MoveToChild] returns
    that error: neither [SQLITE_CORRUPT] nor [SQLITE_OK]. *)
Lemma MoveToChild_fetch_error :
  iPage (cur twoLevel)
    < BTCURSOR_MAX_DEPTH (memPager (fun _ => SQLITE_IOERR)) - 1 /\
  GetPageAndInitialize (memPager (fun _ => SQLITE_IOERR)) (store twoLevel) 3
    = (SQLITE_IOERR, store twoLevel) /\
  MoveToChild (memPager (fun _ => SQLITE_IOERR)) 3 twoLevel
    = Some (SQLITE_IOERR, twoLevel).
Proof. split; [reflexivity |]. split; reflexivity. Qed.

Lemma MoveToChild_outcomes_witness :
  exists c1,
    MoveToChild (memPager (fun _ => SQLITE_OK)) 3 twoLevel
      = Some (SQLITE_OK, with_cur c1 twoLevel) /\
    iPage c1 = 1 /\ aget (Pages c1) 1 = Some 3 /\ aget (aiIdx c1) 1 = Some 0 /\
    nSize c1 = 0 /\ validNKey c1 = 0.
Proof.
  destruct (MoveToChild_outcomes (memPager (fun _ => SQLITE_OK)) 3 twoLevel)
    as [_ H].
  - simpl. lia.
  - simpl. lia.
  - simpl. lia.
  - simpl. lia.
  - destruct (H ltac:(simpl; lia) SQLITE_OK (store twoLevel) eq_refl)
      as [_ H2].
    destruct (H2 eq_refl
                (mkPage 3 true false [[1; 5]; [1; 7]] [] [] 900) 2
                (mkPage 2 false false [[0; 0; 0; 3; 1; 9]] [] [] 900))
      as (c1 & Hc & Hrest).
    + vm_compute. reflexivity.
    + vm_compute. reflexivity.
    + vm_compute. reflexivity.
    + exists c1. split; [exact Hc |].
      destruct Hrest as (Hi & HP & HI & Hn & Hv).
      change (iPage (cur twoLevel)) with 0 in Hi. simpl in Hi.
      rewrite Hi in HP, HI. repeat split; assumption.
Defined.

(** **** Delete on a concrete cursor *)


(** **** Balance on concrete cursors *)

(** A three-level index tree with the cursor on leaf page 7, the
    rightmost child of page 5, holding one overflow cell meant for its
    tail. *)
Definition appendedIndexLeaf : St :=
  mkSt (mkCursor 2 [1; 1] [2; 5; 7])
       [mkPage 2 false false [[0; 0; 0; 4; 1; 3]] [] [] 900;
        mkPage 5 false false [[0; 0; 0; 6; 1; 5]] [] [] 900;
        mkPage 7 true false [[1; 6]; [1; 7]] [[1; 8]] [2] 0].




(** A one-page tree whose root, page 2, holds one staged overflow cell. *)
Definition overfullRoot : St :=
  mkSt (mkCursor 0 [2] [2])
       [mkPage 2 true false [[1; 5]; [1; 7]] [[1; 9]] [2] 0].

(** C2, at the failing input.  With the cursor on an overfull root and a
    [balance_deeper] that succeeds, [Balance] returns [SQLITE_OK] after
    that single call, whatever the fuel: the cursor is on the new child,
    page 3, which still holds the overflow cell and has no free space
    left. *)
Theorem Balance_returns_on_overfull_child (fuel : nat) :
  exists s1 child,
    Balance (memPager (fun _ => SQLITE_OK)) (S fuel) overfullRoot
      = Some (SQLITE_OK, s1) /\
    calls s1 = [CallDeeper 2] /\
    iPage (cur s1) = 1 /\
    aget (Pages (cur s1)) (iPage (cur s1)) = Some 3 /\
    store s1 !! 3 = Some child /\
    nOverflow child = 1 /\ nFree child = 0.
Proof.
  destruct (Balance_stops_after_deeper (memPager (fun _ => SQLITE_OK)) fuel
              overfullRoot 2
              (mkPage 2 true false [[1; 5]; [1; 7]] [[1; 9]] [2] 0) 3
              (snd (balance_deeper_model (store overfullRoot) 2))
              (<[0%nat := 0]> (aiIdx (cur overfullRoot)))
              (<[1%nat := 0]> (<[0%nat := 0]> (aiIdx (cur overfullRoot))))
              (<[1%nat := 3]> (Pages (cur overfullRoot))))
    as (s1 & Hrun & Hi & HP & Hst & Hc).
  - reflexivity.
  - vm_compute. reflexivity.
  - vm_compute. reflexivity.
  - simpl. lia.
  - vm_compute. reflexivity.
  - vm_compute. reflexivity.
  - vm_compute. reflexivity.
  - vm_compute. reflexivity.
  - exists s1, (mkPage 3 true false [[1; 5]; [1; 7]] [[1; 9]] [2] 0).
    split; [exact Hrun |]. split; [exact Hc |]. split; [exact Hi |].
    split; [exact HP |]. rewrite Hst.
    split; [vm_compute; reflexivity |]. split; reflexivity.
Qed.

(** **** Balanced pages, failing writes and leaves *)

(** A pager whose pages cannot be made writable. *)
Definition readOnlyPager : Collaborators :=
  {| BTCURSOR_MAX_DEPTH := 20;
     GetPageAndInitialize := fun m n => (SQLITE_OK, m);
     DbPage_Write := fun _ _ => SQLITE_IOERR;
     balance_deeper := balance_deeper_model;
     balance_quick := fun m _ _ => (SQLITE_OK, m);
     BalanceNonroot := fun m _ _ _ => (SQLITE_OK, m) |}.

(** The two-level index tree with the cursor on the first cell of its
    leaf, page 3. *)
Definition onLeafCell : St :=
  mkSt (mkCursor 1 [0; 0] [2; 3])
       [mkPage 2 false false [[0; 0; 0; 3; 1; 9]] [] [] 900;
        mkPage 3 true false [[1; 5]; [1; 7]] [] [] 500].

(** The same cursor past the last cell of the leaf. *)
Definition pastLastCell : St :=
  mkSt (mkCursor 1 [0; 2] [2; 3])
       [mkPage 2 false false [[0; 0; 0; 3; 1; 9]] [] [] 900;
        mkPage 3 true false [[1; 5]; [1; 7]] [] [] 500].

Lemma Balance_leaves_balanced_page_witness :
  Balance (memPager (fun _ => SQLITE_OK)) 1 onLeafCell
    = Some (SQLITE_OK, onLeafCell).
Proof.
  apply (Balance_leaves_balanced_page (memPager (fun _ => SQLITE_OK)) 0
           onLeafCell 3 (mkPage 3 true false [[1; 5]; [1; 7]] [] [] 500)).
  - vm_compute. reflexivity.
  - vm_compute. reflexivity.
  - reflexivity.
  - right. vm_compute. congruence.
Defined.

Lemma Balance_never_returns_error_witness :
  exists rc s1,
    Balance (memPager (fun _ => SQLITE_OK)) 1 overfullRoot = Some (rc, s1) /\
    rc = SQLITE_OK.
Proof.
  eexists _, _. split; [vm_compute; reflexivity |].
  eapply (Balance_never_returns_error (memPager (fun _ => SQLITE_OK)) 1
            overfullRoot).
  vm_compute. reflexivity.
Defined.

Lemma Balance_iter_parent_not_writable_witness :
  exists s1,
    Balance_iter readOnlyPager 682 SQLITE_OK appendedIndexLeaf
      = Some (SQLITE_IOERR, s1) /\
    calls s1 = [] /\
    iPage (cur s1) = 1 /\
    store s1 = alter (set_nOverflow 0) 7 (store appendedIndexLeaf) /\
    (forall p, store s1 !! 7 = Some p -> nOverflow p = 0).
Proof.
  apply (Balance_iter_parent_not_writable readOnlyPager 682 SQLITE_OK
           appendedIndexLeaf 7
           (mkPage 7 true false [[1; 6]; [1; 7]] [[1; 8]] [2] 0)
           5 (mkPage 5 false false [[0; 0; 0; 6; 1; 5]] [] [] 900) 1).
  - vm_compute. reflexivity.
  - vm_compute. reflexivity.
  - simpl. lia.
  - left. simpl. lia.
  - vm_compute. reflexivity.
  - vm_compute. reflexivity.
  - vm_compute. reflexivity.
  - simpl. congruence.
Defined.

Lemma Delete_refuses_cursor_off_cell_witness :
  Delete (memPager (fun _ => SQLITE_OK))
         (memMoves (memPager (fun _ => SQLITE_OK))) 4 pastLastCell
    = Some (SQLITE_ERROR, pastLastCell).
Proof.
  apply (Delete_refuses_cursor_off_cell (memPager (fun _ => SQLITE_OK))
           (memMoves (memPager (fun _ => SQLITE_OK))) 4 pastLastCell 3
           (mkPage 3 true false [[1; 5]; [1; 7]] [] [] 500) 2).
  - vm_compute. reflexivity.
  - vm_compute. reflexivity.
  - vm_compute. reflexivity.
  - left. vm_compute. congruence.
Defined.


Lemma Delete_stops_before_changing_pages_witness :
  Delete readOnlyPager (memMoves readOnlyPager) 4 onLeafCell
    = Some (SQLITE_IOERR, onLeafCell).
Proof.
  apply (Delete_stops_before_changing_pages readOnlyPager
           (memMoves readOnlyPager) 4 onLeafCell 3
           (mkPage 3 true false [[1; 5]; [1; 7]] [] [] 500) 0 [1; 5]
           onLeafCell).
  - vm_compute. reflexivity.
  - vm_compute. reflexivity.
  - vm_compute. reflexivity.
  - reflexivity.
  - vm_compute. reflexivity.
  - reflexivity.
  - right. simpl. congruence.
Defined.

End Btree.

(** ** vdbesort.go *)

Module Sorter.

(** *** Records and their comparison *)

(** A memory cell of an unpacked record; [Value = None] is SQL NULL. *)
Record Mem (val : Type) : Type := { Value : option val }.
Arguments Value {val} _.

Record UnpackedRecord (val : Type) : Type := {
  nField : Z;
  aMem : list (Mem val);
  flags : Z
}.
Arguments nField {val} _.
Arguments aMem {val} _.
Arguments flags {val} _.

(** [pKeyInfo.nField] is all the sorter reads of a [KeyInfo] itself. *)
Record KeyInfo : Type := { keyFields : Z }.

(** A record of the in-memory list: [pVal] with [nVal] its length. *)
Record SorterRecord : Type := { pVal : list Z; nVal : Z }.

(** An iterator over a PMA.  [File = None] is the nil file handle of an
    iterator at EOF; [Data] is the buffer, whose length is its capacity,
    and [Key] the current key, a slice of [Data]. *)
Record VdbeSorterIter : Type := {
  iReadOff : Z;
  iEof : Z;
  File : option Z;
  Data : list Z;
  Key : list Z
}.

(** The sorter, without its read offset into the temporary file, which
    only the set-up of a merge uses. *)
Record VdbeSorter (val : Type) : Type := {
  iWriteOff : Z;
  nInMemory : Z;
  nTree : Z;
  nPMA : Z;
  mnPmaSize : Z;
  mxPmaSize : Z;
  aIter : list VdbeSorterIter;
  aTree : list Z;
  pTemp1 : option Z;
  pRecord : list SorterRecord;
  pUnpacked : UnpackedRecord val
}.
Arguments iWriteOff {val} _.
Arguments nInMemory {val} _.
Arguments nTree {val} _.
Arguments nPMA {val} _.
Arguments mnPmaSize {val} _.
Arguments mxPmaSize {val} _.
Arguments aIter {val} _.
Arguments aTree {val} _.
Arguments pTemp1 {val} _.
Arguments pRecord {val} _.
Arguments pUnpacked {val} _.

Definition is_ok (rc : rcode) : bool :=
  match rc with SQLITE_OK => true | _ => false end.

Definition zlen {A} (l : list A) : Z := Z.of_nat (length l).

Section Compare.

Variable val : Type.

(** The record (de)serialiser the sorter relies on, not part of the
    sources at hand: unpacking a key overwrites the whole of the
    unpacked record, and the comparison of a packed key with an unpacked
    one yields a negative, zero or positive number. *)
Variable sqlite3VdbeRecordUnpack : KeyInfo -> list Z -> UnpackedRecord val.
Variable RecordCompare : list Z -> UnpackedRecord val -> Z.
Variable UNPACKED_PREFIX_MATCH : Z.

Variable pKeyInfo : KeyInfo.

(** The scan of [sorterCompare] over the first [n] cells of [aMem],
    from index [i] on: [Some true] at the first NULL, [None] when a cell
    is missing. *)
Fixpoint anyNull (n : nat) (i : Z) (mems : list (Mem val)) : option bool :=
  match n with
  | O => Some false
  | S n' =>
      m ← Btree.aget mems i;
      match Value m with
      | None => Some true
      | Some _ => anyNull n' (i + 1) mems
      end
  end.

(** [sorterCompare]: the result and what it leaves in
    [pSorter.pUnpacked].  [pKey2 = None] is the nil key, for which the
    record unpacked last is compared against. *)
Definition sorterCompare (bOmitRowid : bool) (pKey1 : list Z)
    (pKey2 : option (list Z)) (r2 : UnpackedRecord val)
  : option (Z * UnpackedRecord val) :=
  let r2 := match pKey2 with
            | Some k => sqlite3VdbeRecordUnpack pKeyInfo k
            | None => r2
            end in
  if bOmitRowid then
    let r2 := {| nField := keyFields pKeyInfo; aMem := aMem r2;
                 flags := flags r2 |} in
    null ← anyNull (Z.to_nat (nField r2)) 0 (aMem r2);
    if null : bool then Some (-1, r2)
    else
      let r2 := {| nField := nField r2; aMem := aMem r2;
                   flags := Z.lor (flags r2) UNPACKED_PREFIX_MATCH |} in
      Some (RecordCompare pKey1 r2, r2)
  else Some (RecordCompare pKey1 r2, r2).

(** The order the sorter sorts by: [sorterCompare] without the rowid
    rule, on two packed keys. *)
Definition keyCompare (k1 k2 : list Z) : Z :=
  RecordCompare k1 (sqlite3VdbeRecordUnpack pKeyInfo k2).

Definition recLe (a b : SorterRecord) : Prop :=
  keyCompare (pVal a) (pVal b) <= 0.

(** *** The in-memory merge sort *)

(** The loop of [vdbeSorterMerge].  [out] is the merged list built so
    far, last node first; [pVal2] is the key handed to the next
    comparison, [None] once the head of [p2] has been unpacked. *)
Fixpoint vdbeSorterMerge_loop (fuel : nat) (r2 : UnpackedRecord val)
    (p1 p2 : list SorterRecord) (pVal2 : option (list Z))
    (out : list SorterRecord)
  : option (list SorterRecord * UnpackedRecord val) :=
  match p1, p2 with
  | a :: p1', b :: p2' =>
      match fuel with
      | O => None
      | S fuel' =>
          r ← sorterCompare false (pVal a) pVal2 r2;
          let '(res, r2) := r in
          if res <=? 0 then
            vdbeSorterMerge_loop fuel' r2 p1' p2 None (a :: out)
          else
            match p2' with
            | [] => Some (rev_append (b :: out) p1, r2)
            | b' :: _ =>
                vdbeSorterMerge_loop fuel' r2 p1 p2' (Some (pVal b'))
                  (b :: out)
            end
      end
  | _ :: _, [] => Some (rev_append out p1, r2)
  | [], _ => Some (rev_append out p2, r2)
  end.

(** [vdbeSorterMerge]: every turn of the loop consumes a node of one of
    the two lists, so their lengths bound the number of turns. *)
Definition vdbeSorterMerge (r2 : UnpackedRecord val)
    (p1 p2 : list SorterRecord)
  : option (list SorterRecord * UnpackedRecord val) :=
  vdbeSorterMerge_loop (length p1 + length p2) r2 p1 p2
    (match p2 with b :: _ => Some (pVal b) | [] => None end) [].

(** The inner loop of [vdbeSorterSort]: [p] is merged with the occupied
    slots from the front of [aSlot] on, each emptied in turn, and put
    into the first empty one.  [None] when the loop runs off the end of
    the slot array. *)
Fixpoint carrySlots (r2 : UnpackedRecord val) (p : list SorterRecord)
    (aSlot : list (list SorterRecord))
  : option (list (list SorterRecord) * UnpackedRecord val) :=
  match aSlot with
  | [] => None
  | [] :: rest => Some (p :: rest, r2)
  | slot :: rest =>
      r ← vdbeSorterMerge r2 p slot;
      let '(p, r2) := r in
      r ← carrySlots r2 p rest;
      let '(rest, r2) := r in
      Some ([] :: rest, r2)
  end.

(** The first loop of [vdbeSorterSort], over the records of the list. *)
Fixpoint fillSlots (r2 : UnpackedRecord val) (p : list SorterRecord)
    (aSlot : list (list SorterRecord))
  : option (list (list SorterRecord) * UnpackedRecord val) :=
  match p with
  | [] => Some (aSlot, r2)
  | rec :: next =>
      r ← carrySlots r2 [rec] aSlot;
      let '(aSlot, r2) := r in
      fillSlots r2 next aSlot
  end.

(** The second loop of [vdbeSorterSort], over the 64 slots. *)
Fixpoint sweepSlots (r2 : UnpackedRecord val) (p : list SorterRecord)
    (aSlot : list (list SorterRecord))
  : option (list SorterRecord * UnpackedRecord val) :=
  match aSlot with
  | [] => Some (p, r2)
  | slot :: rest =>
      r ← vdbeSorterMerge r2 p slot;
      let '(p, r2) := r in
      sweepSlots r2 p rest
  end.

(** [vdbeSorterSort] on the list headed at [pRecord]: the sorted list and
    the unpacked record left behind.  The allocation of [aSlot] is taken
    to succeed. *)
Definition vdbeSorterSort (r2 : UnpackedRecord val)
    (pRecord : list SorterRecord)
  : option (list SorterRecord * UnpackedRecord val) :=
  r ← fillSlots r2 pRecord (replicate 64 []);
  let '(aSlot, r2) := r in
  sweepSlots r2 [] aSlot.

(** *** The PMA iterator *)

(** The file system under the sorter and the varint codec of its
    buffers; none is part of the sources at hand.  [sqlite3OsRead fs file
    buf amt off] yields the result code and the buffer with its first
    [amt] bytes read, [None] when the call itself faults;
    [sqlite3OsWrite fs file data off] writes [data] at [off];
    [ReadVarint32] yields the value and the rest of the buffer;
    [WriteVarint64] yields the bytes of the varint. *)
Variable FS : Type.
Variable sqlite3OsRead :
  FS -> option Z -> list Z -> Z -> Z -> option (rcode * list Z).
Variable sqlite3OsWrite : FS -> option Z -> list Z -> Z -> rcode * FS.
Variable vdbeSorterOpenTempFile : FS -> rcode * option Z * FS.
Variable ReadVarint32 : list Z -> Z * list Z.
Variable WriteVarint64 : Z -> list Z.
Variable VarintLen : Z -> Z.

(** [VdbeSorterIter.Clear]. *)
Definition Clear : VdbeSorterIter :=
  {| iReadOff := 0; iEof := 0; File := None; Data := []; Key := [] |}.

(** [Data[lo : hi]]; [None] is the slice-bounds panic. *)
Definition slice (data : list Z) (lo hi : Z) : option (list Z) :=
  if (0 <=? lo) && (lo <=? hi) && (hi <=? zlen data)
  then Some (take (Z.to_nat (hi - lo)) (drop (Z.to_nat lo) data))
  else None.

(** The size the doubling loop of [Next] arrives at, from [nNew] on;
    [None] when the loop cannot end. *)
Fixpoint doubledSize (fuel : nat) (nNew need : Z) : option Z :=
  if need <=? nNew then Some nNew
  else
    match fuel with
    | O => None
    | S fuel' => if nNew <=? 0 then None else doubledSize fuel' (nNew * 2) need
    end.

(** [VdbeSorterIter.Next].  The buffer of the doubled size is built in a
    local variable and dropped at the end of its block, so [Data] keeps
    its length. *)
Definition Next (fs : FS) (pIter : VdbeSorterIter)
  : option (rcode * VdbeSorterIter) :=
  let nRead := if 5 <? iEof pIter - iReadOff pIter then 5
               else iEof pIter - iReadOff pIter in
  if nRead <=? 0 then Some (SQLITE_OK, Clear)
  else
    r ← sqlite3OsRead fs (File pIter) (Data pIter) nRead (iReadOff pIter);
    let '(rc, data) := r in
    r ← (if is_ok rc then
           let l := zlen data in
           let '(nRec, b) := ReadVarint32 data in
           let iOff := l - zlen b in
           if nRead <? iOff + nRec then
             _ ← (if l <? iOff + nRec
                  then doubledSize (Z.to_nat (iOff + nRec)) (l * 2) (iOff + nRec)
                  else Some l);
             let nRead2 := iOff + nRec - nRead in
             if zlen data <=? nRead then None
             else
               r ← sqlite3OsRead fs (File pIter) (drop (Z.to_nat nRead) data)
                     nRead2 (iReadOff pIter + nRead);
               let '(rc, tail) := r in
               Some (rc, take (Z.to_nat nRead) data ++ tail, nRec, iOff)
           else Some (rc, data, nRec, iOff)
         else Some (rc, data, 0, 0));
    let '(rc, data, nRec, iOff) := r in
    key ← slice data iOff (iOff + nRec);
    Some (rc, {| iReadOff := iReadOff pIter + zlen key; iEof := iEof pIter;
                 File := File pIter; Data := data; Key := key |}).

(** *** The tournament tree *)

Definition set_aTree (t : list Z) (r2 : UnpackedRecord val)
    (p : VdbeSorter val) : VdbeSorter val :=
  {| iWriteOff := iWriteOff p; nInMemory := nInMemory p; nTree := nTree p;
     nPMA := nPMA p; mnPmaSize := mnPmaSize p; mxPmaSize := mxPmaSize p;
     aIter := aIter p; aTree := t; pTemp1 := pTemp1 p;
     pRecord := pRecord p; pUnpacked := r2 |}.

Definition set_aIter (its : list VdbeSorterIter) (p : VdbeSorter val)
  : VdbeSorter val :=
  {| iWriteOff := iWriteOff p; nInMemory := nInMemory p; nTree := nTree p;
     nPMA := nPMA p; mnPmaSize := mnPmaSize p; mxPmaSize := mxPmaSize p;
     aIter := its; aTree := aTree p; pTemp1 := pTemp1 p;
     pRecord := pRecord p; pUnpacked := pUnpacked p |}.

Definition set_pRecord (l : list SorterRecord) (r2 : UnpackedRecord val)
    (p : VdbeSorter val) : VdbeSorter val :=
  {| iWriteOff := iWriteOff p; nInMemory := nInMemory p; nTree := nTree p;
     nPMA := nPMA p; mnPmaSize := mnPmaSize p; mxPmaSize := mxPmaSize p;
     aIter := aIter p; aTree := aTree p; pTemp1 := pTemp1 p;
     pRecord := l; pUnpacked := r2 |}.

(** [SorterDoCompare]. *)
Definition SorterDoCompare (iOut : Z) (p : VdbeSorter val)
  : option (VdbeSorter val) :=
  r ← (if Z.quot (nTree p) 2 <=? iOut then
         let i1 := (iOut - Z.quot (nTree p) 2) * 2 in
         Some (i1, i1 + 1)
       else
         i1 ← Btree.aget (aTree p) (iOut * 2);
         i2 ← Btree.aget (aTree p) (iOut * 2 + 1);
         Some (i1, i2));
  let '(i1, i2) := r in
  p1 ← Btree.aget (aIter p) i1;
  p2 ← Btree.aget (aIter p) i2;
  r ← match File p1, File p2 with
      | None, _ => Some (i2, pUnpacked p)
      | _, None => Some (i1, pUnpacked p)
      | _, _ =>
          r ← sorterCompare false (Key p1) (Some (Key p2)) (pUnpacked p);
          let '(res, r2) := r in
          Some (if res <=? 0 then i1 else i2, r2)
      end;
  let '(iRes, r2) := r in
  t ← Btree.aset (aTree p) iOut iRes;
  Some (set_aTree t r2 p).

(** The loop of [SorterNext]: [for i; i > 0; i = i / 2]. *)
Fixpoint recompute (fuel : nat) (i : Z) (p : VdbeSorter val)
  : option (VdbeSorter val) :=
  if 0 <? i then
    match fuel with
    | O => None
    | S fuel' =>
        p1 ← SorterDoCompare i p;
        recompute fuel' (Z.quot i 2) p1
    end
  else Some p.

(** The second loop of [SorterInitMerge], which fills [aTree]:
    [for i := nTree - 1; i > 0; i--], here from [i] down. *)
Fixpoint initTree (i : nat) (p : VdbeSorter val) : option (VdbeSorter val) :=
  match i with
  | O => Some p
  | S i' =>
      p1 ← SorterDoCompare (Z.of_nat i) p;
      initTree i' p1
  end.

(** [SorterNext]: the end-of-data flag, the result code and the sorter
    afterwards.  An index halves at every turn of the loop, so the index
    itself bounds the number of turns. *)
Definition SorterNext (fs : FS) (p : VdbeSorter val)
  : option (bool * rcode * VdbeSorter val) :=
  match aTree p with
  | [] =>
      match pRecord p with
      | [] => None
      | _ :: next =>
          Some (match next with [] => true | _ => false end, SQLITE_OK,
                set_pRecord next (pUnpacked p) p)
      end
  | _ =>
      iPrev ← Btree.aget (aTree p) 1;
      it ← Btree.aget (aIter p) iPrev;
      r ← Next fs it;
      let '(rc, it1) := r in
      its ← Btree.aset (aIter p) iPrev it1;
      let p1 := set_aIter its p in
      p2 ← (if is_ok rc then
              let i := Z.quot (nTree p1 + iPrev) 2 in
              recompute (Z.to_nat i) i p1
            else Some p1);
      w ← Btree.aget (aTree p2) 1;
      pw ← Btree.aget (aIter p2) w;
      Some (match File pw with None => true | Some _ => false end, rc, p2)
  end.

(** *** Writing records *)

(** [SorterWriteVarint]: the new offset, the result code, the files. *)
Definition SorterWriteVarint (fs : FS) (pFile : option Z) (iVal offset : Z)
  : Z * rcode * FS :=
  let buffer := WriteVarint64 iVal in
  let '(rc, fs) := sqlite3OsWrite fs pFile buffer offset in
  (offset + zlen buffer, rc, fs).

(** The loop of [vdbeSorterListToPMA] over the records: the offset, the
    result code, the files and the records not written. *)
Fixpoint writeRecords (fs : FS) (pFile : option Z) (iOff : Z)
    (p : list SorterRecord) : Z * rcode * FS * list SorterRecord :=
  match p with
  | [] => (iOff, SQLITE_OK, fs, [])
  | rec :: next =>
      let '(iOff, rc, fs) := SorterWriteVarint fs pFile (nVal rec) iOff in
      if is_ok rc then
        let '(rc, fs) :=
          sqlite3OsWrite fs pFile (take (Z.to_nat (nVal rec)) (pVal rec)) iOff in
        let iOff := iOff + nVal rec in
        if is_ok rc then writeRecords fs pFile iOff next
        else (iOff, rc, fs, next)
      else (iOff, rc, fs, next)
  end.

Definition set_flushed (off nPMA' : Z) (f : option Z) (l : list SorterRecord)
    (r2 : UnpackedRecord val) (p : VdbeSorter val) : VdbeSorter val :=
  {| iWriteOff := off; nInMemory := nInMemory p; nTree := nTree p;
     nPMA := nPMA'; mnPmaSize := mnPmaSize p; mxPmaSize := mxPmaSize p;
     aIter := aIter p; aTree := aTree p; pTemp1 := f;
     pRecord := l; pUnpacked := r2 |}.

(** [vdbeSorterListToPMA]. *)
Definition vdbeSorterListToPMA (fs : FS) (p : VdbeSorter val)
  : option (rcode * FS * VdbeSorter val) :=
  if nInMemory p =? 0 then Some (SQLITE_OK, fs, p)
  else
    r ← vdbeSorterSort (pUnpacked p) (pRecord p);
    let '(sorted, r2) := r in
    let '(rc, f, fs) :=
      match pTemp1 p with
      | None => vdbeSorterOpenTempFile fs
      | Some h => (SQLITE_OK, Some h, fs)
      end in
    if is_ok rc then
      let '(iOff, rc, fs) := SorterWriteVarint fs f (nInMemory p) (iWriteOff p) in
      let '(iOff, rc, fs, rest) :=
        if is_ok rc then writeRecords fs f iOff sorted
        else (iOff, rc, fs, sorted) in
      let '(rc, fs) :=
        if is_ok rc then sqlite3OsWrite fs f (replicate 8 0) iOff
        else (rc, fs) in
      Some (rc, fs, set_flushed iOff (nPMA p + 1) f rest r2 p)
    else Some (rc, fs, set_flushed (iWriteOff p) (nPMA p) f sorted r2 p).

Definition set_nInMemory (n : Z) (p : VdbeSorter val) : VdbeSorter val :=
  {| iWriteOff := iWriteOff p; nInMemory := n; nTree := nTree p;
     nPMA := nPMA p; mnPmaSize := mnPmaSize p; mxPmaSize := mxPmaSize p;
     aIter := aIter p; aTree := aTree p; pTemp1 := pTemp1 p;
     pRecord := pRecord p; pUnpacked := pUnpacked p |}.

(** [sqlite3VdbeSorterWrite] of the memory cell [(z, n)].  [allocOk]
    tells whether the allocation of the list element succeeds and
    [heapNearlyFull] is the answer of [IsHeapNearlyFull]. *)
Definition sqlite3VdbeSorterWrite (fs : FS) (p : VdbeSorter val)
    (z : list Z) (n : Z) (allocOk heapNearlyFull : bool)
  : option (rcode * FS * VdbeSorter val) :=
  let p := set_nInMemory (nInMemory p + (VarintLen n + n)) p in
  let '(rc, p) :=
    if allocOk then
      (SQLITE_OK,
       set_pRecord ({| pVal := take (Z.to_nat n) z; nVal := n |} :: pRecord p)
         (pUnpacked p) p)
    else (SQLITE_NOMEM, p) in
  if is_ok rc && (0 <? mxPmaSize p)
     && ((mxPmaSize p <? nInMemory p)
         || ((mnPmaSize p <? nInMemory p) && heapNearlyFull))
  then
    r ← vdbeSorterListToPMA fs p;
    let '(rc, fs, p) := r in
    Some (rc, fs, set_nInMemory 0 p)
  else Some (rc, fs, p).

(** *** Facts about the comparison *)

Lemma sorterCompare_key k1 k2 r2 :
  sorterCompare false k1 (Some k2) r2 =
  Some (keyCompare k1 k2, sqlite3VdbeRecordUnpack pKeyInfo k2).
Proof. reflexivity. Qed.

Lemma sorterCompare_cached k1 k2 :
  sorterCompare false k1 None (sqlite3VdbeRecordUnpack pKeyInfo k2) =
  Some (keyCompare k1 k2, sqlite3VdbeRecordUnpack pKeyInfo k2).
Proof. reflexivity. Qed.

(** *** The merge as a function of the two lists *)

(** What the loop of [vdbeSorterMerge] appends to its output: the head of
    [p1] while it is not greater than the head of [p2], the head of [p2]
    otherwise. *)
Fixpoint mergeLists (p1 : list SorterRecord) : list SorterRecord -> list SorterRecord :=
  fix mergeInto (p2 : list SorterRecord) : list SorterRecord :=
    match p1, p2 with
    | [], _ => p2
    | _, [] => p1
    | a :: p1', b :: p2' =>
        if keyCompare (pVal a) (pVal b) <=? 0
        then a :: mergeLists p1' p2
        else b :: mergeInto p2'
    end.

Lemma mergeLists_nil_r p1 : mergeLists p1 [] = p1.
Proof. destruct p1; reflexivity. Qed.

Lemma mergeLists_cons a p1 b p2 :
  mergeLists (a :: p1) (b :: p2) =
  if keyCompare (pVal a) (pVal b) <=? 0
  then a :: mergeLists p1 (b :: p2)
  else b :: mergeLists (a :: p1) p2.
Proof. reflexivity. Qed.

(** The key cached in [pUnpacked] is the head of [p2] whenever the loop
    passes the nil key. *)
Definition cacheFits (pVal2 : option (list Z)) (r2 : UnpackedRecord val)
    (p2 : list SorterRecord) : Prop :=
  match p2 with
  | b :: _ =>
      pVal2 = Some (pVal b) \/
      (pVal2 = None /\ r2 = sqlite3VdbeRecordUnpack pKeyInfo (pVal b))
  | [] => True
  end.

Lemma sorterCompare_head a b p2 pVal2 r2 :
  cacheFits pVal2 r2 (b :: p2) ->
  sorterCompare false a pVal2 r2 =
  Some (keyCompare a (pVal b), sqlite3VdbeRecordUnpack pKeyInfo (pVal b)).
Proof.
  intros [-> | [-> ->]].
  - apply sorterCompare_key.
  - apply sorterCompare_cached.
Qed.

Lemma vdbeSorterMerge_loop_spec fuel : forall r2 p1 p2 pVal2 out,
  (length p1 + length p2 <= fuel)%nat ->
  cacheFits pVal2 r2 p2 ->
  exists r2',
    vdbeSorterMerge_loop fuel r2 p1 p2 pVal2 out =
    Some (rev_append out (mergeLists p1 p2), r2').
Proof.
  induction fuel as [| fuel IH]; intros r2 p1 p2 pVal2 out Hlen Hc.
  - destruct p1 as [| a p1]; [| simpl in Hlen; lia].
    destruct p2 as [| b p2]; [| simpl in Hlen; lia].
    exists r2. reflexivity.
  - destruct p1 as [| a p1].
    { exists r2. destruct p2; reflexivity. }
    destruct p2 as [| b p2].
    { exists r2. reflexivity. }
    cbn [vdbeSorterMerge_loop].
    rewrite (sorterCompare_head (pVal a) b p2 pVal2 r2 Hc).
    cbn [mbind option_bind].
    rewrite mergeLists_cons.
    destruct (keyCompare (pVal a) (pVal b) <=? 0).
    + destruct (IH (sqlite3VdbeRecordUnpack pKeyInfo (pVal b)) p1 (b :: p2)
                  None (a :: out)) as [r2' Hr].
      * simpl in *. lia.
      * right. split; reflexivity.
      * exists r2'. rewrite Hr. reflexivity.
    + destruct p2 as [| b' p2].
      * eexists. simpl. reflexivity.
      * destruct (IH (sqlite3VdbeRecordUnpack pKeyInfo (pVal b)) (a :: p1)
                    (b' :: p2) (Some (pVal b')) (b :: out)) as [r2' Hr].
        -- simpl in *. lia.
        -- left. reflexivity.
        -- exists r2'. rewrite Hr. reflexivity.
Qed.

(** [vdbeSorterMerge] always returns, and returns the merge. *)
Lemma vdbeSorterMerge_spec r2 p1 p2 :
  exists r2', vdbeSorterMerge r2 p1 p2 = Some (mergeLists p1 p2, r2').
Proof.
  unfold vdbeSorterMerge.
  destruct (vdbeSorterMerge_loop_spec (length p1 + length p2) r2 p1 p2
              (match p2 with b :: _ => Some (pVal b) | [] => None end) [])
    as [r2' H].
  - lia.
  - destruct p2; simpl; auto.
  - exists r2'. rewrite H. reflexivity.
Qed.

Lemma mergeLists_perm p1 : forall p2,
  Permutation (mergeLists p1 p2) (p1 ++ p2).
Proof.
  induction p1 as [| a p1 IH1]; intros p2.
  - destruct p2; reflexivity.
  - induction p2 as [| b p2 IH2].
    + rewrite mergeLists_nil_r, app_nil_r. reflexivity.
    + rewrite mergeLists_cons.
      destruct (keyCompare (pVal a) (pVal b) <=? 0).
      * simpl. apply perm_skip. apply IH1.
      * etransitivity; [apply perm_skip; apply IH2 |].
        apply (Permutation_middle (a :: p1) p2 b).
Qed.

Lemma mergeLists_length p1 p2 :
  length (mergeLists p1 p2) = (length p1 + length p2)%nat.
Proof.
  rewrite (Permutation_length (mergeLists_perm p1 p2)). apply length_app.
Qed.

Section Ordered.

(** The comparison is total: of two keys, one is not greater than the
    other. *)
Hypothesis keyCompare_total :
  forall k1 k2, 0 < keyCompare k1 k2 -> keyCompare k2 k1 <= 0.

Lemma mergeLists_HdRel x p1 : forall p2,
  HdRel recLe x p1 -> HdRel recLe x p2 -> HdRel recLe x (mergeLists p1 p2).
Proof.
  destruct p1 as [| a p1]; intros p2 H1 H2.
  - destruct p2; assumption.
  - destruct p2 as [| b p2]; [assumption |].
    rewrite mergeLists_cons.
    destruct (keyCompare (pVal a) (pVal b) <=? 0).
    + inversion H1; subst. constructor. assumption.
    + inversion H2; subst. constructor. assumption.
Qed.

Lemma mergeLists_sorted p1 : forall p2,
  Sorted recLe p1 -> Sorted recLe p2 -> Sorted recLe (mergeLists p1 p2).
Proof.
  induction p1 as [| a p1 IH1]; intros p2 H1 H2.
  - destruct p2; assumption.
  - induction p2 as [| b p2 IH2].
    + rewrite mergeLists_nil_r. assumption.
    + rewrite mergeLists_cons.
      destruct (keyCompare (pVal a) (pVal b) <=? 0) eqn:Hc.
      * apply Z.leb_le in Hc. inversion H1; subst.
        constructor; [apply IH1; assumption |].
        apply mergeLists_HdRel; [assumption |].
        constructor. exact Hc.
      * apply Z.leb_gt in Hc. inversion H2; subst.
        constructor; [apply IH2; assumption |].
        apply mergeLists_HdRel; [| assumption].
        constructor. apply keyCompare_total. exact Hc.
Qed.

(** *** The slots of [vdbeSorterSort] *)

(** Slot [i] of [aSlot] is empty or holds a sorted list of [2^i]
    records: the slots count the records taken so far in binary.  The
    first slot of the list given is slot number [i]. *)
Fixpoint slotsOk (i : Z) (aSlot : list (list SorterRecord)) : Prop :=
  match aSlot with
  | [] => True
  | slot :: rest =>
      (slot = [] \/ Z.of_nat (length slot) = 2 ^ i) /\
      Sorted recLe slot /\
      slotsOk (i + 1) rest
  end.

Lemma slotsOk_empty n : forall i, slotsOk i (replicate n []).
Proof.
  induction n as [| n IH]; intros i; simpl; [exact I |].
  split; [left; reflexivity |]. split; [constructor | apply IH].
Qed.

Lemma concat_replicate_nil {A} n : concat (replicate n (@nil A)) = [].
Proof. induction n as [| n IH]; simpl; [reflexivity | exact IH]. Qed.

Lemma carrySlots_spec aSlot : forall i p r2,
  0 <= i ->
  slotsOk i aSlot ->
  Z.of_nat (length p) = 2 ^ i ->
  Sorted recLe p ->
  Z.of_nat (length (concat aSlot))
    < 2 ^ i * (2 ^ Z.of_nat (length aSlot) - 1) ->
  exists aSlot' r2',
    carrySlots r2 p aSlot = Some (aSlot', r2') /\
    slotsOk i aSlot' /\
    length aSlot' = length aSlot /\
    Permutation (concat aSlot') (p ++ concat aSlot).
Proof.
  induction aSlot as [| slot rest IH]; intros i p r2 Hi Hok Hp Hs Hroom.
  - simpl in Hroom. lia.
  - destruct Hok as (Hslot & Hsorted & Hrest).
    destruct slot as [| r slot].
    + exists (p :: rest), r2. simpl.
      split; [reflexivity |].
      split; [| split; reflexivity].
      split; [right; exact Hp |]. split; assumption.
    + destruct Hslot as [Hnil | Hlen]; [discriminate |].
      cbn [carrySlots].
      destruct (vdbeSorterMerge_spec r2 p (r :: slot)) as [r2a Hm].
      rewrite Hm. cbn [mbind option_bind].
      assert (Hpow : 2 ^ (i + 1) = 2 * 2 ^ i).
      { rewrite Z.pow_add_r by lia. lia. }
      assert (Hpos : 0 < 2 ^ i) by (apply Z.pow_pos_nonneg; lia).
      assert (Hn : 0 < 2 ^ Z.of_nat (length rest))
        by (apply Z.pow_pos_nonneg; lia).
      destruct (IH (i + 1) (mergeLists p (r :: slot)) r2a) as
        (rest' & r2' & Hc & Hok' & Hl' & Hperm).
      * lia.
      * exact Hrest.
      * rewrite mergeLists_length, Nat2Z.inj_add. lia.
      * apply mergeLists_sorted; assumption.
      * change (concat ((r :: slot) :: rest))
          with ((r :: slot) ++ concat rest) in Hroom.
        rewrite length_app, Nat2Z.inj_add in Hroom.
        change (length ((r :: slot) :: rest)) with (S (length rest)) in Hroom.
        rewrite Nat2Z.inj_succ, Z.pow_succ_r in Hroom by lia.
        nia.
      * rewrite Hc. exists ([] :: rest'), r2'.
        split; [reflexivity |].
        split; [simpl; split; [left; reflexivity |];
                split; [constructor | exact Hok'] |].
        split; [simpl; congruence |].
        change (concat ([] :: rest')) with (concat rest').
        rewrite Hperm.
        change (concat ((r :: slot) :: rest))
          with ((r :: slot) ++ concat rest).
        rewrite (mergeLists_perm p (r :: slot)).
        rewrite <- app_assoc. reflexivity.
Qed.

Lemma fillSlots_spec p : forall aSlot r2,
  slotsOk 0 aSlot ->
  Z.of_nat (length (concat aSlot)) + Z.of_nat (length p)
    < 2 ^ Z.of_nat (length aSlot) ->
  exists aSlot' r2',
    fillSlots r2 p aSlot = Some (aSlot', r2') /\
    slotsOk 0 aSlot' /\
    length aSlot' = length aSlot /\
    Permutation (concat aSlot') (p ++ concat aSlot).
Proof.
  induction p as [| rec next IH]; intros aSlot r2 Hok Hroom.
  - exists aSlot, r2. simpl. auto.
  - cbn [fillSlots].
    destruct (carrySlots_spec aSlot 0 [rec] r2) as
      (aSlot1 & r2a & Hc & Hok1 & Hl1 & Hperm1).
    + lia.
    + exact Hok.
    + reflexivity.
    + repeat constructor.
    + simpl length in Hroom. lia.
    + rewrite Hc. cbn [mbind option_bind].
      destruct (IH aSlot1 r2a) as (aSlot2 & r2b & Hf & Hok2 & Hl2 & Hperm2).
      * exact Hok1.
      * rewrite Hl1. rewrite (Permutation_length Hperm1).
        simpl length in *. lia.
      * exists aSlot2, r2b. rewrite Hf.
        split; [reflexivity |]. split; [exact Hok2 |].
        split; [congruence |].
        rewrite Hperm2, Hperm1. simpl.
        apply Permutation_sym, Permutation_middle.
Qed.

Lemma sweepSlots_spec aSlot : forall i p r2,
  slotsOk i aSlot ->
  Sorted recLe p ->
  exists res r2',
    sweepSlots r2 p aSlot = Some (res, r2') /\
    Permutation res (p ++ concat aSlot) /\
    Sorted recLe res.
Proof.
  induction aSlot as [| slot rest IH]; intros i p r2 Hok Hs.
  - exists p, r2. simpl. rewrite app_nil_r. auto.
  - destruct Hok as (_ & Hsorted & Hrest).
    cbn [sweepSlots].
    destruct (vdbeSorterMerge_spec r2 p slot) as [r2a Hm].
    rewrite Hm. cbn [mbind option_bind].
    destruct (IH (i + 1) (mergeLists p slot) r2a Hrest) as
      (res & r2' & Hsw & Hperm & Hres).
    + apply mergeLists_sorted; assumption.
    + exists res, r2'. rewrite Hsw. split; [reflexivity |].
      split; [| exact Hres].
      rewrite Hperm, (mergeLists_perm p slot). simpl.
      rewrite <- app_assoc. reflexivity.
Qed.


End Ordered.

(** With the rowid rule on, a NULL among the first [pKeyInfo.nField]
    cells unpacked from the second key settles the comparison at [-1],
    whatever the first key. *)
Lemma sorterCompare_null_in_key2 pKey1 k2 r2 :
  anyNull (Z.to_nat (keyFields pKeyInfo)) 0
    (aMem (sqlite3VdbeRecordUnpack pKeyInfo k2)) = Some true ->
  exists r2', sorterCompare true pKey1 (Some k2) r2 = Some (-1, r2').
Proof.
  intros H. unfold sorterCompare. cbn [nField aMem]. rewrite H.
  eexists. reflexivity.
Qed.

(** Without such a NULL the first key is compared as it is, its own
    NULLs not looked for. *)
Lemma sorterCompare_no_null_in_key2 pKey1 k2 r2 :
  anyNull (Z.to_nat (keyFields pKeyInfo)) 0
    (aMem (sqlite3VdbeRecordUnpack pKeyInfo k2)) = Some false ->
  sorterCompare true pKey1 (Some k2) r2 =
  let u := sqlite3VdbeRecordUnpack pKeyInfo k2 in
  let r := {| nField := keyFields pKeyInfo; aMem := aMem u;
              flags := Z.lor (flags u) UNPACKED_PREFIX_MATCH |} in
  Some (RecordCompare pKey1 r, r).
Proof.
  intros H. unfold sorterCompare. cbn [nField aMem]. rewrite H.
  reflexivity.
Qed.

(** *** The iterator at the end and inside a PMA *)

(** With nothing left to read the iterator is cleared, its file handle
    set to nil, and the result is [SQLITE_OK]. *)
Lemma Next_at_eof fs pIter :
  iEof pIter <= iReadOff pIter ->
  Next fs pIter = Some (SQLITE_OK, Clear).
Proof.
  intros H. unfold Next.
  destruct (5 <? iEof pIter - iReadOff pIter) eqn:E5.
  - apply Z.ltb_lt in E5. lia.
  - assert (Hn : (iEof pIter - iReadOff pIter <=? 0) = true)
      by (apply Z.leb_le; lia).
    rewrite Hn. reflexivity.
Qed.

(** Short of the end, the read offset moves on by the length of the key
    and by nothing else. *)
Lemma Next_advances_by_key fs pIter rc pIter' :
  iReadOff pIter < iEof pIter ->
  Next fs pIter = Some (rc, pIter') ->
  iReadOff pIter' = iReadOff pIter + zlen (Key pIter') /\
  iEof pIter' = iEof pIter /\ File pIter' = File pIter.
Proof.
  intros Hlt. unfold Next.
  assert (Hn : ((if 5 <? iEof pIter - iReadOff pIter then 5
                 else iEof pIter - iReadOff pIter) <=? 0) = false).
  { destruct (5 <? _); apply Z.leb_gt; lia. }
  rewrite Hn. clear Hn.
  destruct (sqlite3OsRead fs _ _ _ _) as [[rc0 data] |]; [| discriminate].
  cbn [mbind option_bind].
  match goal with
  | |- (?m ≫= _) = _ -> _ => destruct m as [[[[rc1 d1] nRec] iOff] |]
  end; [| discriminate].
  cbn [mbind option_bind].
  destruct (slice d1 iOff (iOff + nRec)) as [key |]; [| discriminate].
  cbn [mbind option_bind]. intros H. inversion H; subst. simpl. auto.
Qed.

(** *** Flushing on write *)

Lemma writeRecords_ok : forall p fs pFile iOff iOff' fs' rest,
  writeRecords fs pFile iOff p = (iOff', SQLITE_OK, fs', rest) -> rest = [].
Proof.
  induction p as [| rec next IH]; intros fs pFile iOff iOff' fs' rest H.
  - simpl in H. inversion H. reflexivity.
  - simpl in H.
    destruct (SorterWriteVarint fs pFile (nVal rec) iOff) as [[o1 rc1] fs1].
    destruct rc1; simpl in H; try (inversion H; fail).
    destruct (sqlite3OsWrite fs1 pFile _ o1) as [rc2 fs2].
    destruct rc2; simpl in H; try (inversion H; fail).
    eapply IH. exact H.
Qed.

(** A successful flush of a list that counts bytes makes one more PMA
    and leaves the in-memory list empty. *)
Lemma vdbeSorterListToPMA_ok fs p fs' p' :
  nInMemory p <> 0 ->
  vdbeSorterListToPMA fs p = Some (SQLITE_OK, fs', p') ->
  nPMA p' = nPMA p + 1 /\ pRecord p' = [] /\ nInMemory p' = nInMemory p.
Proof.
  intros Hn. unfold vdbeSorterListToPMA.
  apply Z.eqb_neq in Hn. rewrite Hn.
  destruct (vdbeSorterSort (pUnpacked p) (pRecord p)) as [[sorted r2] |];
    [| discriminate].
  cbn [mbind option_bind].
  destruct (match pTemp1 p with
            | Some h => (SQLITE_OK, Some h, fs)
            | None => vdbeSorterOpenTempFile fs
            end) as [[rc f] fs0].
  destruct rc; simpl; try (intros H; inversion H; fail).
  destruct (SorterWriteVarint fs0 f (nInMemory p) (iWriteOff p))
    as [[o1 rc1] fs1].
  destruct rc1; simpl; try (intros H; inversion H; fail).
  destruct (writeRecords fs1 f o1 sorted) as [[[o2 rc2] fs2] rest] eqn:Hw.
  destruct rc2; simpl; try (intros H; inversion H; fail).
  apply writeRecords_ok in Hw. subst rest.
  destruct (sqlite3OsWrite fs2 f _ o2) as [rc3 fs3].
  intros H. inversion H; subst. simpl. auto.
Qed.

(** C7 (amended).  A write that returns [SQLITE_OK] has prepended the
    record to the in-memory list and added [VarintLen n + n] to the byte
    count; the list is then flushed to a PMA exactly when [mxPmaSize] is
    positive and the new count exceeds [mxPmaSize], or exceeds
    [mnPmaSize] with the heap nearly full, after which the count is
    zero, the list is empty and there is one more PMA; otherwise the
    files are left as they were. *)
Theorem sqlite3VdbeSorterWrite_flush_rule fs p z n allocOk heapNearlyFull
    fs' p' :
  sqlite3VdbeSorterWrite fs p z n allocOk heapNearlyFull
    = Some (SQLITE_OK, fs', p') ->
  let total := nInMemory p + (VarintLen n + n) in
  let p1 :=
    set_pRecord ({| pVal := take (Z.to_nat n) z; nVal := n |} :: pRecord p)
      (pUnpacked p) (set_nInMemory total p) in
  (0 < mxPmaSize p /\
   (mxPmaSize p < total \/ (mnPmaSize p < total /\ heapNearlyFull = true)) ->
   exists p2,
     vdbeSorterListToPMA fs p1 = Some (SQLITE_OK, fs', p2) /\
     p' = set_nInMemory 0 p2 /\
     (total <> 0 -> nPMA p' = nPMA p + 1 /\ pRecord p' = [])) /\
  (~ (0 < mxPmaSize p /\
      (mxPmaSize p < total \/ (mnPmaSize p < total /\ heapNearlyFull = true))) ->
   fs' = fs /\ p' = p1).
Proof.
  intros H total p1. unfold sqlite3VdbeSorterWrite in H.
  destruct allocOk.
  - change (set_pRecord _ _ (set_nInMemory _ p)) with p1 in H.
    cbn [is_ok andb] in H.
    change (mxPmaSize p1) with (mxPmaSize p) in H.
    change (mnPmaSize p1) with (mnPmaSize p) in H.
    change (nInMemory p1) with total in H.
    destruct ((0 <? mxPmaSize p)
              && ((mxPmaSize p <? total)
                  || ((mnPmaSize p <? total) && heapNearlyFull))) eqn:Ec.
    + split.
      * intros _.
        destruct (vdbeSorterListToPMA fs p1) as [[[rc fs2] p2] |] eqn:Hf;
          [| discriminate].
        cbn [mbind option_bind] in H. inversion H; subst.
        exists p2. split; [reflexivity |]. split; [reflexivity |].
        intros Ht.
        destruct (vdbeSorterListToPMA_ok fs p1 fs' p2 Ht Hf) as (H1 & H2 & _).
        simpl. split; [exact H1 | exact H2].
      * intros Hc. exfalso. apply Hc.
        apply andb_true_iff in Ec. destruct Ec as [E1 E2].
        apply Z.ltb_lt in E1. split; [exact E1 |].
        apply orb_true_iff in E2. destruct E2 as [E2 | E2].
        -- left. apply Z.ltb_lt. exact E2.
        -- right. apply andb_true_iff in E2. destruct E2 as [E2 E3].
           apply Z.ltb_lt in E2. auto.
    + split.
      * intros [Hm Hd]. exfalso.
        apply Z.ltb_lt in Hm. rewrite Hm in Ec. simpl in Ec.
        destruct Hd as [Hd | [Hd Hh]].
        -- apply Z.ltb_lt in Hd. rewrite Hd in Ec. discriminate.
        -- apply Z.ltb_lt in Hd. rewrite Hd, Hh in Ec.
           rewrite orb_true_r in Ec. discriminate.
      * intros _. inversion H; subst. auto.
  - cbn [is_ok andb] in H. inversion H.
Qed.

(** *** The tournament over the iterators *)

(** What node [j] of the tree stands for: an iterator itself from
    [nTree] on, the winner recorded in [aTree] below. *)
Definition nodeVal (p : VdbeSorter val) (j : Z) : option Z :=
  if nTree p <=? j then Some (j - nTree p) else Btree.aget (aTree p) j.

(** The choice [SorterDoCompare] makes between iterators [i1] and [i2]. *)
Definition pickIter (its : list VdbeSorterIter) (i1 i2 : Z) : option Z :=
  p1 ← Btree.aget its i1;
  p2 ← Btree.aget its i2;
  Some (match File p1, File p2 with
        | None, _ => i2
        | _, None => i1
        | _, _ => if keyCompare (Key p1) (Key p2) <=? 0 then i1 else i2
        end).

(** Node [j] holds the choice between its two children. *)
Definition nodeOk (p : VdbeSorter val) (j : Z) : Prop :=
  exists a b r,
    nodeVal p (2 * j) = Some a /\ nodeVal p (2 * j + 1) = Some b /\
    pickIter (aIter p) a b = Some r /\
    Btree.aget (aTree p) j = Some r.

Definition treeOk (p : VdbeSorter val) : Prop :=
  forall j, 1 <= j < nTree p -> nodeOk p j.

(** [nTree] is [2^k] with [k >= 1], and both arrays have that many
    entries at least. *)
Definition wellSized (k : nat) (p : VdbeSorter val) : Prop :=
  (1 <= k)%nat /\ nTree p = 2 ^ Z.of_nat k /\
  nTree p <= zlen (aTree p) /\ nTree p <= zlen (aIter p).

(** The order on iterators: by current key, an iterator at EOF being
    greater than any with a key. *)
Definition iterLe (p q : VdbeSorterIter) : Prop :=
  match File p, File q with
  | Some _, Some _ => keyCompare (Key p) (Key q) <= 0
  | Some _, None => True
  | None, Some _ => False
  | None, None => True
  end.

(** Iterator [w] wins among the iterators [lo .. lo + sz - 1]: it is not
    greater than any of them and, unless it is at EOF, every one of them
    with a lower index is greater. *)
Definition winner (its : list VdbeSorterIter) (lo sz w : Z) : Prop :=
  lo <= w < lo + sz /\
  exists pw, Btree.aget its w = Some pw /\
    forall x px, lo <= x < lo + sz -> Btree.aget its x = Some px ->
      iterLe pw px /\ (x < w -> File pw <> None -> ~ iterLe px pw).

(** The nodes from [i] up to the root: [i], [i / 2], [i / 4], ... *)
Definition onPath (i j : Z) : Prop :=
  exists t : nat, j = i / 2 ^ Z.of_nat t.

Section Tournament.

Hypothesis keyCompare_total :
  forall k1 k2, 0 < keyCompare k1 k2 -> keyCompare k2 k1 <= 0.
Hypothesis keyCompare_trans :
  forall k1 k2 k3,
    keyCompare k1 k2 <= 0 -> keyCompare k2 k3 <= 0 -> keyCompare k1 k3 <= 0.

Lemma keyCompare_refl k : keyCompare k k <= 0.
Proof.
  destruct (Z_le_gt_dec (keyCompare k k) 0) as [H | H]; [exact H |].
  apply keyCompare_total. lia.
Qed.

Lemma iterLe_refl p : iterLe p p.
Proof. unfold iterLe. destruct (File p); [apply keyCompare_refl | exact I]. Qed.

Lemma iterLe_total p q : ~ iterLe p q -> iterLe q p.
Proof.
  unfold iterLe. destruct (File p), (File q); intros H;
    try exact I; try (exfalso; apply H; exact I).
  apply keyCompare_total. lia.
Qed.

Lemma iterLe_trans p q r : iterLe p q -> iterLe q r -> iterLe p r.
Proof.
  unfold iterLe. destruct (File p), (File q), (File r); intros H1 H2;
    try exact I; try contradiction.
  exact (keyCompare_trans _ _ _ H1 H2).
Qed.

Lemma iterLe_eof p q : File q = None -> iterLe p q.
Proof. unfold iterLe. intros ->. destruct (File p); exact I. Qed.

Lemma iterLe_from_eof p q : File p = None -> iterLe p q -> File q = None.
Proof.
  unfold iterLe. intros ->.
  destruct (File q); intros H; [contradiction | reflexivity].
Qed.

(** The choice between the winners of two adjacent ranges wins over
    both. *)
Lemma pickIter_winner its lo sz a b r :
  winner its lo sz a ->
  winner its (lo + sz) sz b ->
  pickIter its a b = Some r ->
  winner its lo (2 * sz) r.
Proof.
  intros (Ha & pa & Hpa & Wa) (Hb & pb & Hpb & Wb) Hr.
  unfold pickIter in Hr. rewrite Hpa, Hpb in Hr. cbn in Hr.
  assert (Hab : iterLe pa pb \/ ~ iterLe pa pb).
  { unfold iterLe. destruct (File pa), (File pb).
    - destruct (Z_le_gt_dec (keyCompare (Key pa) (Key pb)) 0);
        [left | right]; lia.
    - left. exact I.
    - right. intros H. exact H.
    - left. exact I. }
  assert (Hcase :
    (r = a /\ File pa <> None /\ iterLe pa pb) \/
    (r = b /\ (File pa = None \/ ~ iterLe pa pb))).
  { unfold iterLe in *. destruct (File pa) as [fa |] eqn:Efa.
    - destruct (File pb) as [fb |] eqn:Efb.
      + destruct (keyCompare (Key pa) (Key pb) <=? 0) eqn:Ec;
          inversion Hr; subst.
        * left. apply Z.leb_le in Ec. repeat split; [discriminate | exact Ec].
        * right. apply Z.leb_gt in Ec. split; [reflexivity |]. right. lia.
      + inversion Hr; subst. left. repeat split. discriminate.
    - inversion Hr; subst. right. split; [reflexivity |]. left. reflexivity. }
  clear Hr Hab.
  destruct Hcase as [(-> & Hfa & Hle) | (-> & Hwhy)].
  - split; [lia |]. exists pa. split; [exact Hpa |].
    intros x px Hx Hpx.
    destruct (Z_lt_ge_dec x (lo + sz)) as [Hl | Hr].
    + apply Wa; [lia | exact Hpx].
    + split.
      * apply iterLe_trans with pb; [exact Hle |].
        destruct (Wb x px ltac:(lia) Hpx) as [Hbx _]. exact Hbx.
      * intros Hxa. lia.
  - assert (Hba : iterLe pb pa).
    { destruct Hwhy as [Hn | Hn];
        [apply iterLe_eof; exact Hn | apply iterLe_total; exact Hn]. }
    split; [lia |]. exists pb. split; [exact Hpb |].
    intros x px Hx Hpx.
    destruct (Z_lt_ge_dec x (lo + sz)) as [Hl | Hr].
    + destruct (Wa x px ltac:(lia) Hpx) as [Hax _].
      split.
      * apply iterLe_trans with pa; assumption.
      * intros _ Hfb Hxb.
        destruct Hwhy as [Hn | Hn].
        -- (* pa at EOF: so is px, and pb is not *)
           pose proof (iterLe_from_eof pa px Hn Hax) as Hpxn.
           pose proof (iterLe_from_eof px pb Hpxn Hxb). contradiction.
        -- apply Hn. apply iterLe_trans with px; assumption.
    + apply Wb; [lia | exact Hpx].
Qed.

Lemma pow2_succ h : 2 ^ Z.of_nat (S h) = 2 * 2 ^ Z.of_nat h.
Proof. rewrite Nat2Z.inj_succ, Z.pow_succ_r by lia. reflexivity. Qed.

Lemma pow2_pos h : 0 < 2 ^ Z.of_nat h.
Proof. apply Z.pow_pos_nonneg; lia. Qed.

Lemma aget_lt {A} (l : list A) i :
  0 <= i < zlen l -> exists x, Btree.aget l i = Some x.
Proof.
  intros [H0 H1]. unfold zlen in H1.
  destruct (lookup_lt_is_Some_2 l (Z.to_nat i)) as [x Hx]; [lia |].
  exists x. apply Btree.aget_Some. auto.
Qed.

Lemma aget_range {A} (l : list A) i x :
  Btree.aget l i = Some x -> 0 <= i < zlen l.
Proof.
  intros H. apply Btree.aget_Some in H. destruct H as [H0 H].
  apply lookup_lt_Some in H. unfold zlen. lia.
Qed.

(** In a tree whose nodes all hold the choice between their children,
    the node [j] of depth [d], [h] levels above the iterators, holds the
    winner among the [2^h] iterators below it. *)
Lemma tree_winner k p :
  wellSized k p -> treeOk p ->
  forall h d, (d + h = k)%nat ->
  forall j, 2 ^ Z.of_nat d <= j < 2 ^ Z.of_nat (S d) ->
  exists w, nodeVal p j = Some w /\
    winner (aIter p) (j * 2 ^ Z.of_nat h - nTree p) (2 ^ Z.of_nat h) w.
Proof.
  intros (Hk & HN & HT & HI) Hok.
  induction h as [| h IH]; intros d Hd j Hj.
  - assert (d = k) by lia. subst d.
    rewrite pow2_succ, <- HN in Hj.
    unfold nodeVal.
    assert (Hge : (nTree p <=? j) = true) by (apply Z.leb_le; lia).
    rewrite Hge. exists (j - nTree p). split; [reflexivity |].
    change (2 ^ Z.of_nat 0) with 1. rewrite Z.mul_1_r.
    split; [lia |].
    destruct (aget_lt (aIter p) (j - nTree p)) as [pw Hpw]; [lia |].
    exists pw. split; [exact Hpw |].
    intros x px Hx Hpx. assert (x = j - nTree p) by lia. subst x.
    rewrite Hpw in Hpx. inversion Hpx; subst.
    split; [apply iterLe_refl | lia].
  - pose proof (pow2_pos d) as Hpd. pose proof (pow2_pos h) as Hph.
    assert (HjN : 1 <= j < nTree p).
    { split; [lia |]. rewrite HN.
      apply Z.lt_le_trans with (2 ^ Z.of_nat (S d)); [lia |].
      apply Z.pow_le_mono_r; lia. }
    destruct (Hok j HjN) as (a & b & r & Hva & Hvb & Hpick & Hr).
    rewrite pow2_succ in Hj.
    destruct (IH (S d) ltac:(lia) (2 * j)) as (a' & Hva' & Wa).
    { rewrite !pow2_succ. lia. }
    destruct (IH (S d) ltac:(lia) (2 * j + 1)) as (b' & Hvb' & Wb).
    { rewrite !pow2_succ. lia. }
    rewrite Hva in Hva'. inversion Hva'; subst a'.
    rewrite Hvb in Hvb'. inversion Hvb'; subst b'.
    exists r. split.
    + unfold nodeVal.
      assert (Hlt : (nTree p <=? j) = false) by (apply Z.leb_gt; lia).
      rewrite Hlt. exact Hr.
    + rewrite pow2_succ.
      replace (j * (2 * 2 ^ Z.of_nat h) - nTree p)
        with (2 * j * 2 ^ Z.of_nat h - nTree p) by lia.
      apply pickIter_winner with a b; [exact Wa | | exact Hpick].
      replace (2 * j * 2 ^ Z.of_nat h - nTree p + 2 ^ Z.of_nat h)
        with ((2 * j + 1) * 2 ^ Z.of_nat h - nTree p) by lia.
      exact Wb.
Qed.

(** The root holds the winner among all iterators. *)
Lemma root_winner k p :
  wellSized k p -> treeOk p ->
  exists w, Btree.aget (aTree p) 1 = Some w /\
    winner (aIter p) 0 (nTree p) w.
Proof.
  intros Hw Hok.
  destruct (tree_winner k p Hw Hok k 0%nat ltac:(lia) 1) as (w & Hv & W).
  { change (2 ^ Z.of_nat 0) with 1. change (2 ^ Z.of_nat 1) with 2. lia. }
  destruct Hw as (Hk & HN & _).
  exists w. split.
  - unfold nodeVal in Hv.
    assert (Hlt : (nTree p <=? 1) = false).
    { apply Z.leb_gt. rewrite HN.
      apply Z.lt_le_trans with (2 ^ 1); [reflexivity |].
      apply Z.pow_le_mono_r; lia. }
    rewrite Hlt in Hv. exact Hv.
  - rewrite Z.mul_1_l, <- HN, Z.sub_diag in W. exact W.
Qed.

(** *** The path [SorterNext] recomputes *)

Lemma onPath_self i : onPath i i.
Proof. exists 0%nat. change (2 ^ Z.of_nat 0) with 1. rewrite Z.div_1_r. reflexivity. Qed.

Lemma half_pow i t : i / 2 / 2 ^ Z.of_nat t = i / 2 ^ Z.of_nat (S t).
Proof.
  pose proof (pow2_pos t). rewrite Z.div_div by lia.
  rewrite pow2_succ. reflexivity.
Qed.

Lemma onPath_up i j : onPath (i / 2) j -> onPath i j.
Proof. intros [t ->]. exists (S t). apply half_pow. Qed.

Lemma onPath_step i j : onPath i j -> j = i \/ onPath (i / 2) j.
Proof.
  intros [[| t] ->].
  - left. change (2 ^ Z.of_nat 0) with 1. apply Z.div_1_r.
  - right. exists t. symmetry. apply half_pow.
Qed.

Lemma onPath_zero j : onPath 0 j -> j = 0.
Proof. intros [t ->]. apply Z.div_0_l. pose proof (pow2_pos t). lia. Qed.

Lemma onPath_le i j : 0 <= i -> onPath i j -> 0 <= j <= i.
Proof.
  intros Hi [t ->]. pose proof (pow2_pos t). split.
  - apply Z.div_pos; lia.
  - apply Z.div_le_upper_bound; [lia |]. nia.
Qed.

Lemma depth_exists k : forall c,
  1 <= c < 2 ^ Z.of_nat (S k) ->
  exists d h, (d + h = k)%nat /\ 2 ^ Z.of_nat d <= c < 2 ^ Z.of_nat (S d).
Proof.
  induction k as [| k IH]; intros c Hc.
  - exists 0%nat, 0%nat. split; [reflexivity | exact Hc].
  - destruct (Z_lt_ge_dec c (2 ^ Z.of_nat (S k))) as [Hlt | Hge].
    + destruct (IH c ltac:(lia)) as (d & h & Hd & Hr).
      exists d, (S h). split; [lia | exact Hr].
    + exists (S k), 0%nat. split; [lia | lia].
Qed.

(** The value of a node names an iterator below it: the parent of the
    node lies on the path that iterator recomputes. *)
Lemma nodeVal_onPath k p c w :
  wellSized k p -> treeOk p ->
  2 <= c < 2 * nTree p ->
  nodeVal p c = Some w ->
  0 <= w < nTree p /\ onPath ((nTree p + w) / 2) (c / 2).
Proof.
  intros Hw Hok Hc Hv.
  pose proof Hw as (Hk & HN & _).
  destruct (depth_exists k c) as (d & h & Hd & Hr).
  { rewrite pow2_succ, <- HN. lia. }
  destruct (tree_winner k p Hw Hok h d Hd c Hr) as (w' & Hv' & (Hrange & _)).
  rewrite Hv in Hv'. inversion Hv'; subst w'.
  pose proof (pow2_pos h) as Hph. pose proof (pow2_pos d) as Hpd.
  assert (Hpow : 2 ^ Z.of_nat (S d) * 2 ^ Z.of_nat h = 2 * nTree p).
  { rewrite HN, <- Z.pow_add_r by lia.
    rewrite <- pow2_succ. f_equal. lia. }
  rewrite pow2_succ in Hr, Hpow.
  split; [nia |].
  exists h.
  rewrite (Z.div_div (nTree p + w) 2 (2 ^ Z.of_nat h)) by lia.
  rewrite (Z.mul_comm 2), <- Z.div_div by lia.
  f_equal.
  apply Z.div_unique_pos with (r := nTree p + w - c * 2 ^ Z.of_nat h); lia.
Qed.

Lemma aget_insert_ne {A} (l : list A) i j x :
  0 <= i -> i <> j ->
  Btree.aget (<[Z.to_nat i := x]> l) j = Btree.aget l j.
Proof.
  intros Hi Hne. unfold Btree.aget.
  destruct (j <? 0) eqn:Hj; [reflexivity |].
  apply Z.ltb_ge in Hj. apply list_lookup_insert_ne. lia.
Qed.

Lemma aget_insert_eq {A} (l : list A) i x :
  0 <= i < zlen l ->
  Btree.aget (<[Z.to_nat i := x]> l) i = Some x.
Proof.
  intros [H0 H1]. apply Btree.aget_Some. split; [exact H0 |].
  apply list_lookup_insert_eq. unfold zlen in H1. lia.
Qed.

Lemma half_nTree k p :
  wellSized k p -> Z.quot (nTree p) 2 = nTree p / 2 /\
  nTree p = 2 * (nTree p / 2) /\ 2 <= nTree p.
Proof.
  intros (Hk & HN & _). destruct k as [| k]; [lia |].
  rewrite pow2_succ in HN. pose proof (pow2_pos k).
  rewrite Z.quot_div_nonneg by lia.
  rewrite HN, Z.mul_comm, Z.div_mul by lia. lia.
Qed.

(** [SorterDoCompare] writes into [aTree[iOut]] the choice between the
    children of node [iOut]. *)
Lemma SorterDoCompare_spec k p iOut a b r :
  wellSized k p ->
  1 <= iOut < nTree p ->
  nodeVal p (2 * iOut) = Some a ->
  nodeVal p (2 * iOut + 1) = Some b ->
  pickIter (aIter p) a b = Some r ->
  exists r2,
    SorterDoCompare iOut p =
    Some (set_aTree (<[Z.to_nat iOut := r]> (aTree p)) r2 p).
Proof.
  intros Hw Hi Ha Hb Hr.
  destruct (half_nTree k p Hw) as (Hq & Hhalf & _).
  destruct Hw as (_ & _ & HT & _).
  unfold SorterDoCompare. rewrite Hq.
  assert (Hpair :
    (if nTree p / 2 <=? iOut
     then Some ((iOut - nTree p / 2) * 2, (iOut - nTree p / 2) * 2 + 1)
     else i1 ← Btree.aget (aTree p) (iOut * 2);
          i2 ← Btree.aget (aTree p) (iOut * 2 + 1); Some (i1, i2))
    = Some (a, b)).
  { unfold nodeVal in Ha, Hb.
    destruct (nTree p / 2 <=? iOut) eqn:Eh.
    - apply Z.leb_le in Eh.
      assert (E1 : (nTree p <=? 2 * iOut) = true) by (apply Z.leb_le; lia).
      assert (E2 : (nTree p <=? 2 * iOut + 1) = true) by (apply Z.leb_le; lia).
      rewrite E1 in Ha. rewrite E2 in Hb.
      inversion Ha; inversion Hb; subst. f_equal. f_equal; lia.
    - apply Z.leb_gt in Eh.
      assert (E1 : (nTree p <=? 2 * iOut) = false) by (apply Z.leb_gt; lia).
      assert (E2 : (nTree p <=? 2 * iOut + 1) = false) by (apply Z.leb_gt; lia).
      rewrite E1 in Ha. rewrite E2 in Hb.
      rewrite (Z.mul_comm iOut 2), Ha. cbn. rewrite Hb. reflexivity. }
  rewrite Hpair. cbn [mbind option_bind].
  unfold pickIter in Hr.
  destruct (Btree.aget (aIter p) a) as [p1 |]; [| discriminate].
  destruct (Btree.aget (aIter p) b) as [p2 |]; [| discriminate].
  cbn in Hr. cbn [mbind option_bind].
  assert (Hset : forall x, Btree.aset (aTree p) iOut x
                          = Some (<[Z.to_nat iOut := x]> (aTree p))).
  { intros x. apply Btree.aset_Some. unfold zlen in HT. lia. }
  destruct (File p1) as [f1 |].
  - destruct (File p2) as [f2 |].
    + rewrite sorterCompare_key. cbn [mbind option_bind].
      rewrite Hset. inversion Hr; subst. eexists. reflexivity.
    + cbn [mbind option_bind]. rewrite Hset.
      inversion Hr; subst. eexists. reflexivity.
  - cbn [mbind option_bind]. rewrite Hset.
    inversion Hr; subst. eexists. reflexivity.
Qed.

(** Every node off the path from [i] to the root holds the choice
    between its children. *)
Definition okOff (i : Z) (p : VdbeSorter val) : Prop :=
  forall j, 1 <= j < nTree p -> ~ onPath i j -> nodeOk p j.

Lemma nodeOk_valid p j :
  nodeOk p j ->
  exists r, Btree.aget (aTree p) j = Some r /\ 0 <= r < zlen (aIter p).
Proof.
  intros (a & b & r & _ & _ & Hr & Ht). exists r. split; [exact Ht |].
  unfold pickIter in Hr.
  destruct (Btree.aget (aIter p) a) as [p1 |] eqn:E1; [| discriminate].
  destruct (Btree.aget (aIter p) b) as [p2 |] eqn:E2; [| discriminate].
  cbn in Hr. apply aget_range in E1. apply aget_range in E2.
  destruct (File p1), (File p2); try destruct (_ <=? 0);
    inversion Hr; subst; assumption.
Qed.

Lemma nodeOk_ext p p1 j :
  nTree p1 = nTree p -> aIter p1 = aIter p ->
  Btree.aget (aTree p1) j = Btree.aget (aTree p) j ->
  Btree.aget (aTree p1) (2 * j) = Btree.aget (aTree p) (2 * j) ->
  Btree.aget (aTree p1) (2 * j + 1) = Btree.aget (aTree p) (2 * j + 1) ->
  nodeOk p j -> nodeOk p1 j.
Proof.
  intros HN HI H0 H1 H2 (a & b & r & Ha & Hb & Hr & Ht).
  exists a, b, r. unfold nodeVal in *. rewrite HN, HI, H0, H1, H2. auto.
Qed.

Lemma children_chosen k p i :
  wellSized k p ->
  (forall c, 2 * i <= c <= 2 * i + 1 -> c < nTree p -> nodeOk p c) ->
  1 <= i < nTree p ->
  exists a b r,
    nodeVal p (2 * i) = Some a /\ nodeVal p (2 * i + 1) = Some b /\
    pickIter (aIter p) a b = Some r.
Proof.
  intros Hw Hok Hi.
  pose proof Hw as (_ & _ & HT & HI).
  assert (Hval : forall c, 2 * i <= c <= 2 * i + 1 ->
            exists v pv, nodeVal p c = Some v /\
                         Btree.aget (aIter p) v = Some pv).
  { intros c Hc. unfold nodeVal.
    destruct (nTree p <=? c) eqn:E.
    - apply Z.leb_le in E.
      destruct (aget_lt (aIter p) (c - nTree p)) as [pv Hpv]; [lia |].
      exists (c - nTree p), pv. auto.
    - apply Z.leb_gt in E.
      destruct (nodeOk_valid p c (Hok c Hc E)) as (v & Hv & Hr).
      destruct (aget_lt (aIter p) v Hr) as [pv Hpv].
      exists v, pv. auto. }
  destruct (Hval (2 * i) ltac:(lia)) as (a & pa & Ha & Hpa).
  destruct (Hval (2 * i + 1) ltac:(lia)) as (b & pb & Hb & Hpb).
  exists a, b. unfold pickIter. rewrite Hpa, Hpb. cbn. eauto.
Qed.

(** [SorterDoCompare] on node [i] makes that node hold the choice
    between its children and leaves alone every node that is neither
    [i] nor its parent. *)
Lemma SorterDoCompare_node k p i :
  wellSized k p ->
  (forall c, 2 * i <= c <= 2 * i + 1 -> c < nTree p -> nodeOk p c) ->
  1 <= i < nTree p ->
  exists p1,
    SorterDoCompare i p = Some p1 /\
    wellSized k p1 /\ aIter p1 = aIter p /\ nTree p1 = nTree p /\
    (forall j, j <> i -> Btree.aget (aTree p1) j = Btree.aget (aTree p) j) /\
    nodeOk p1 i /\
    (forall j, j <> i -> j <> i / 2 -> nodeOk p j -> nodeOk p1 j).
Proof.
  intros Hw Hok Hi.
  destruct (children_chosen k p i Hw Hok Hi) as (a & b & r & Ha & Hb & Hr).
  destruct (SorterDoCompare_spec k p i a b r Hw Hi Ha Hb Hr) as [r2 Hdo].
  pose proof Hw as (Hk & HN & HT & HI).
  set (p1 := set_aTree (<[Z.to_nat i := r]> (aTree p)) r2 p) in *.
  assert (Hstep : forall j, j <> i ->
            Btree.aget (aTree p1) j = Btree.aget (aTree p) j).
  { intros j Hj. simpl. apply aget_insert_ne; lia. }
  exists p1. split; [exact Hdo |].
  split.
  { split; [exact Hk |]. split; [exact HN |]. split; [| exact HI].
    unfold zlen. simpl. rewrite length_insert. exact HT. }
  split; [reflexivity |]. split; [reflexivity |]. split; [exact Hstep |].
  split.
  - exists a, b, r. unfold nodeVal in *. simpl nTree.
    change (aIter p1) with (aIter p).
    rewrite !Hstep by lia.
    split; [exact Ha |]. split; [exact Hb |]. split; [exact Hr |].
    simpl. apply aget_insert_eq. lia.
  - intros j Hji Hjh Hj.
    apply nodeOk_ext with p; try reflexivity; try exact Hj.
    + apply Hstep. exact Hji.
    + apply Hstep. intros E. apply Hjh. subst i.
      rewrite Z.mul_comm, Z.div_mul; lia.
    + apply Hstep. intros E. apply Hjh. subst i.
      rewrite Z.mul_comm, Z.div_add_l; [| lia].
      change (1 / 2) with 0. lia.
Qed.

(** The loop of [SorterInitMerge] over the tree, run from [nTree - 1]
    down to 1, returns and makes every node hold the choice between its
    children. *)
Lemma initTree_spec k : forall i p,
  wellSized k p ->
  Z.of_nat i < nTree p ->
  (forall j, Z.of_nat i < j < nTree p -> nodeOk p j) ->
  exists p',
    initTree i p = Some p' /\ treeOk p' /\ wellSized k p' /\
    aIter p' = aIter p.
Proof.
  induction i as [| i IH]; intros p Hw Hi Hok.
  - exists p. split; [reflexivity |]. split; [| auto].
    intros j Hj. apply Hok. lia.
  - cbn [initTree].
    destruct (SorterDoCompare_node k p (Z.of_nat (S i)) Hw)
      as (p1 & Hdo & Hw1 & HI1 & HN1 & _ & Hnode & Hkeep).
    + intros c Hc Hlt. apply Hok. lia.
    + lia.
    + rewrite Hdo. cbn [mbind option_bind].
      destruct (IH p1 Hw1) as (p' & Hinit & Ht' & Hw' & HI').
      * rewrite HN1. lia.
      * intros j Hj. rewrite HN1 in Hj.
        destruct (Z.eq_dec j (Z.of_nat (S i))) as [-> | Hne];
          [exact Hnode |].
        apply Hkeep; [exact Hne | | apply Hok; lia].
        intros E. assert (Z.of_nat (S i) / 2 <= Z.of_nat (S i));
          [apply Z.div_le_upper_bound; lia | lia].
      * exists p'. split; [exact Hinit |]. split; [exact Ht' |].
        split; [exact Hw' |]. congruence.
Qed.

Lemma initTree_all k p :
  wellSized k p ->
  exists p',
    initTree (Z.to_nat (nTree p - 1)) p = Some p' /\ treeOk p' /\
    wellSized k p' /\ aIter p' = aIter p.
Proof.
  intros Hw. destruct (half_nTree k p Hw) as (_ & _ & H2).
  apply initTree_spec; [exact Hw | lia |].
  intros j Hj. lia.
Qed.

(** The loop of [SorterNext] ends, and leaves every node holding the
    choice between its children; it writes on the path only. *)
Lemma recompute_spec k : forall fuel i p,
  wellSized k p ->
  0 <= i < nTree p ->
  (Z.to_nat i <= fuel)%nat ->
  okOff i p ->
  exists p',
    recompute fuel i p = Some p' /\
    treeOk p' /\ wellSized k p' /\
    aIter p' = aIter p /\ nTree p' = nTree p /\
    (forall j, ~ onPath i j ->
       Btree.aget (aTree p') j = Btree.aget (aTree p) j).
Proof.
  clear sqlite3OsWrite vdbeSorterOpenTempFile WriteVarint64 VarintLen.
  induction fuel as [| fuel IH]; intros i p Hw Hi Hfuel Hok.
  - assert (i = 0) by lia. subst i. exists p.
    split; [reflexivity |]. split; [| auto].
    intros j Hj. apply Hok; [exact Hj |].
    intros Hp. apply onPath_zero in Hp. lia.
  - destruct (Z.eq_dec i 0) as [-> | Hne].
    + exists p. split; [reflexivity |]. split; [| auto].
      intros j Hj. apply Hok; [exact Hj |].
      intros Hp. apply onPath_zero in Hp. lia.
    + assert (Hpos : (0 <? i) = true) by (apply Z.ltb_lt; lia).
      cbn [recompute]. rewrite Hpos.
      destruct (SorterDoCompare_node k p i Hw)
        as (p1 & Hdo & Hw1 & HI1 & HN1 & Hstep & Hnode & Hkeep).
      { intros c Hc Hlt. apply Hok; [lia |].
        intros Hp. apply onPath_le in Hp; lia. }
      { lia. }
      rewrite Hdo. cbn [mbind option_bind].
      rewrite Z.quot_div_nonneg by lia.
      assert (Hok1 : okOff (i / 2) p1).
      { intros j Hj Hoff. rewrite HN1 in Hj.
        destruct (Z.eq_dec j i) as [-> | Hji]; [exact Hnode |].
        apply Hkeep; [exact Hji | |].
        - intros ->. apply Hoff, onPath_self.
        - apply Hok; [exact Hj |]. intros Hp.
          apply onPath_step in Hp.
          destruct Hp as [Hp | Hp]; [contradiction | exact (Hoff Hp)]. }
      destruct (IH (i / 2) p1 Hw1) as (p' & Hrec & Ht' & Hw' & HI' & HN' & Hfr).
      * rewrite HN1. Z.to_euclidean_division_equations; lia.
      * Z.to_euclidean_division_equations; lia.
      * exact Hok1.
      * exists p'. split; [exact Hrec |]. split; [exact Ht' |].
        split; [exact Hw' |]. split; [congruence |]. split; [congruence |].
        intros j Hoff. rewrite Hfr.
        -- apply Hstep. intros ->. apply Hoff, onPath_self.
        -- intros Hp. apply Hoff, onPath_up, Hp.
Qed.

(** Replacing one iterator leaves every node off its path as it was. *)
Lemma okOff_after_advance k p iPrev it1 :
  wellSized k p -> treeOk p ->
  0 <= iPrev < nTree p ->
  okOff ((nTree p + iPrev) / 2)
        (set_aIter (<[Z.to_nat iPrev := it1]> (aIter p)) p).
Proof.
  clear sqlite3OsWrite vdbeSorterOpenTempFile WriteVarint64 VarintLen.
  intros Hw Hok Hi j Hj Hoff. simpl nTree in Hj.
  destruct (Hok j Hj) as (a & b & r & Ha & Hb & Hr & Ht).
  assert (Hna : a <> iPrev).
  { intros ->.
    destruct (nodeVal_onPath k p (2 * j) iPrev Hw Hok ltac:(lia) Ha)
      as [_ Hp].
    assert (E : 2 * j / 2 = j)
      by (Z.to_euclidean_division_equations; lia).
    rewrite E in Hp. apply Hoff. exact Hp. }
  assert (Hnb : b <> iPrev).
  { intros ->.
    destruct (nodeVal_onPath k p (2 * j + 1) iPrev Hw Hok ltac:(lia) Hb)
      as [_ Hp].
    assert (E : (2 * j + 1) / 2 = j)
      by (Z.to_euclidean_division_equations; lia).
    rewrite E in Hp. apply Hoff. exact Hp. }
  exists a, b, r. unfold nodeVal in *. simpl.
  split; [exact Ha |]. split; [exact Hb |]. split; [| exact Ht].
  unfold pickIter in *.
  rewrite !aget_insert_ne by lia. exact Hr.
Qed.

(** C4 (amended).  In a sorter whose tree of [nTree = 2^k] entries holds
    at every node the choice between its two children, a [SorterNext]
    whose advance of iterator [iPrev = aTree[1]] succeeds returns
    [SQLITE_OK] after recomputing [aTree] on the path from
    [(nTree + iPrev) / 2] up to 1 and nowhere else.  Afterwards every
    node again holds the choice between its children, and [aTree[1]]
    indexes an iterator whose key is not greater than that of any other
    of the [nTree] iterators, an iterator at EOF counting as greater
    than any key; unless all iterators are at EOF, every iterator with a
    lower index is greater.  The flag returned tells whether that
    iterator is at EOF. *)
Theorem SorterNext_keeps_tournament k fs p iPrev it it1 :
  wellSized k p -> treeOk p ->
  Btree.aget (aTree p) 1 = Some iPrev ->
  Btree.aget (aIter p) iPrev = Some it ->
  Next fs it = Some (SQLITE_OK, it1) ->
  exists eof p' w pw,
    SorterNext fs p = Some (eof, SQLITE_OK, p') /\
    aIter p' = <[Z.to_nat iPrev := it1]> (aIter p) /\
    (forall j, ~ onPath ((nTree p + iPrev) / 2) j ->
       Btree.aget (aTree p') j = Btree.aget (aTree p) j) /\
    wellSized k p' /\ treeOk p' /\
    Btree.aget (aTree p') 1 = Some w /\
    Btree.aget (aIter p') w = Some pw /\
    (eof = true <-> File pw = None) /\
    winner (aIter p') 0 (nTree p') w.
Proof.
  clear sqlite3OsWrite vdbeSorterOpenTempFile WriteVarint64 VarintLen.
  intros Hw Hok Hroot Hit Hnext.
  pose proof Hw as (Hk & HN & HT & HI).
  destruct (half_nTree k p Hw) as (_ & _ & H2).
  destruct (root_winner k p Hw Hok) as (w0 & Hw0 & (Hr0 & _)).
  rewrite Hroot in Hw0. inversion Hw0; subst w0.
  set (p1 := set_aIter (<[Z.to_nat iPrev := it1]> (aIter p)) p).
  assert (Hw1 : wellSized k p1).
  { split; [exact Hk |]. split; [exact HN |]. split; [exact HT |].
    unfold zlen. simpl. rewrite length_insert. exact HI. }
  destruct (recompute_spec k (Z.to_nat ((nTree p + iPrev) / 2))
              ((nTree p + iPrev) / 2) p1 Hw1)
    as (p2 & Hrec & Ht2 & Hw2 & HI2 & HN2 & Hfr).
  { simpl nTree. Z.to_euclidean_division_equations; lia. }
  { lia. }
  { apply (okOff_after_advance k); assumption. }
  destruct (root_winner k p2 Hw2 Ht2) as (w & Hwr & Hwin).
  pose proof Hwin as (_ & pw & Hpw & _).
  exists (match File pw with None => true | Some _ => false end), p2, w, pw.
  split.
  - assert (Hbr : forall (x y : option (bool * rcode * VdbeSorter val)),
              match aTree p with [] => x | _ :: _ => y end = y).
    { intros x y. destruct (aTree p) as [| t0 ts] eqn:Et; [| reflexivity].
      unfold zlen in HT. simpl in HT. lia. }
    unfold SorterNext. rewrite Hbr.
    rewrite Hroot. cbn [mbind option_bind].
    rewrite Hit. cbn [mbind option_bind].
    rewrite Hnext. cbn [mbind option_bind].
    rewrite (Btree.aset_Some (aIter p) iPrev) by (unfold zlen in HI; lia).
    cbn [mbind option_bind is_ok].
    change (set_aIter (<[Z.to_nat iPrev := it1]> (aIter p)) p) with p1.
    change (nTree p1) with (nTree p).
    rewrite Z.quot_div_nonneg by lia.
    rewrite Hrec. cbn [mbind option_bind].
    rewrite Hwr. cbn [mbind option_bind].
    rewrite Hpw. reflexivity.
  - split; [exact HI2 |]. split; [exact Hfr |].
    split; [exact Hw2 |]. split; [exact Ht2 |].
    split; [exact Hwr |]. split; [exact Hpw |].
    split; [| exact Hwin].
    destruct (File pw); split; intros H;
      first [discriminate H | reflexivity].
Qed.

End Tournament.

(** *** Records that compare equal *)

(** Two records neither of which is greater than the other. *)
Definition sameKey (x y : SorterRecord) : bool :=
  (keyCompare (pVal x) (pVal y) <=? 0) && (keyCompare (pVal y) (pVal x) <=? 0).

Section Stable.

Hypothesis keyCompare_total :
  forall k1 k2, 0 < keyCompare k1 k2 -> keyCompare k2 k1 <= 0.
Hypothesis keyCompare_trans :
  forall k1 k2 k3,
    keyCompare k1 k2 <= 0 -> keyCompare k2 k3 <= 0 -> keyCompare k1 k3 <= 0.

Lemma recLe_refl a : recLe a a.
Proof.
  unfold recLe.
  destruct (Z_le_gt_dec (keyCompare (pVal a) (pVal a)) 0) as [H | H];
    [exact H |].
  apply keyCompare_total. lia.
Qed.

Lemma Sorted_from_head a l : Sorted recLe (a :: l) -> Forall (recLe a) (a :: l).
Proof.
  intros H. constructor; [apply recLe_refl |].
  apply Sorted_extends; [| exact H].
  intros x y z. apply keyCompare_trans.
Qed.

(** No record of a sorted list compares equal to a record that is less
    than its head. *)
Lemma filter_sameKey_above x a b l :
  Sorted recLe (a :: l) ->
  0 < keyCompare (pVal a) (pVal b) ->
  sameKey x b = true ->
  List.filter (sameKey x) (a :: l) = [].
Proof.
  intros Hs Hab Hxb.
  apply Sorted_from_head in Hs.
  apply andb_true_iff in Hxb. destruct Hxb as [Hxb _].
  apply Z.leb_le in Hxb.
  induction Hs as [| y l' Hy _ IH]; [reflexivity |].
  cbn [List.filter]. rewrite IH.
  destruct (sameKey x y) eqn:E; [| reflexivity].
  apply andb_true_iff in E. destruct E as [_ E]. apply Z.leb_le in E.
  unfold recLe in Hy.
  pose proof (keyCompare_trans _ _ _ Hy
                (keyCompare_trans _ _ _ E Hxb)). lia.
Qed.

Lemma mergeLists_filter x p1 : forall p2,
  Sorted recLe p1 ->
  List.filter (sameKey x) (mergeLists p1 p2) =
  List.filter (sameKey x) p1 ++ List.filter (sameKey x) p2.
Proof.
  induction p1 as [| a p1 IH1]; intros p2 H1.
  - destruct p2; reflexivity.
  - induction p2 as [| b p2 IH2].
    + rewrite mergeLists_nil_r, app_nil_r. reflexivity.
    + rewrite mergeLists_cons.
      destruct (keyCompare (pVal a) (pVal b) <=? 0) eqn:Hc.
      * cbn [List.filter]. rewrite IH1 by (inversion H1; assumption).
        destruct (sameKey x a); reflexivity.
      * apply Z.leb_gt in Hc.
        change (List.filter (sameKey x) (b :: mergeLists (a :: p1) p2))
          with (if sameKey x b
                then b :: List.filter (sameKey x) (mergeLists (a :: p1) p2)
                else List.filter (sameKey x) (mergeLists (a :: p1) p2)).
        change (List.filter (sameKey x) (b :: p2))
          with (if sameKey x b then b :: List.filter (sameKey x) p2
                else List.filter (sameKey x) p2).
        rewrite IH2.
        destruct (sameKey x b) eqn:Eb; [| reflexivity].
        rewrite (filter_sameKey_above x a b p1 H1 Hc Eb). reflexivity.
Qed.

(** X9.  [vdbeSorterMerge] always returns.  The list it returns holds the
    records of [p1] and [p2] and no other; when [p1] and [p2] are sorted
    it is sorted, and records that compare equal keep the order they had,
    those of [p1] coming before those of [p2]. *)
Theorem vdbeSorterMerge_merges_in_order r2 p1 p2 :
  Sorted recLe p1 -> Sorted recLe p2 ->
  exists res r2',
    vdbeSorterMerge r2 p1 p2 = Some (res, r2') /\
    Permutation res (p1 ++ p2) /\
    Sorted recLe res /\
    forall x, List.filter (sameKey x) res =
              List.filter (sameKey x) p1 ++ List.filter (sameKey x) p2.
Proof.
  intros H1 H2.
  destruct (vdbeSorterMerge_spec r2 p1 p2) as [r2' Hm].
  exists (mergeLists p1 p2), r2'. split; [exact Hm |].
  split; [apply mergeLists_perm |].
  split; [apply mergeLists_sorted; assumption |].
  intros x. apply mergeLists_filter. exact H1.
Qed.

Lemma carrySlots_filter x aSlot : forall i p r2 aSlot' r2',
  slotsOk i aSlot ->
  Sorted recLe p ->
  carrySlots r2 p aSlot = Some (aSlot', r2') ->
  List.filter (sameKey x) (concat aSlot') =
  List.filter (sameKey x) p ++ List.filter (sameKey x) (concat aSlot).
Proof.
  induction aSlot as [| slot rest IH]; intros i p r2 aSlot' r2' Hok Hs Hc.
  - discriminate.
  - destruct Hok as (_ & Hsorted & Hrest).
    destruct slot as [| r slot].
    + simpl in Hc. inversion Hc; subst. simpl.
      apply List.filter_app.
    + cbn [carrySlots] in Hc.
      destruct (vdbeSorterMerge_spec r2 p (r :: slot)) as [r2a Hm].
      rewrite Hm in Hc. cbn [mbind option_bind] in Hc.
      destruct (carrySlots r2a (mergeLists p (r :: slot)) rest)
        as [[rest' r2b] |] eqn:Hcr; [| discriminate].
      cbn [mbind option_bind] in Hc. inversion Hc; subst.
      change (concat ([] :: rest')) with (concat rest').
      rewrite (IH (i + 1) _ _ _ _ Hrest
                 (mergeLists_sorted keyCompare_total _ _ Hs Hsorted) Hcr).
      rewrite (mergeLists_filter x p (r :: slot) Hs).
      change (concat ((r :: slot) :: rest)) with ((r :: slot) ++ concat rest).
      rewrite List.filter_app, app_assoc. reflexivity.
Qed.

Lemma fillSlots_filter x p : forall aSlot r2 aSlot' r2',
  slotsOk 0 aSlot ->
  Z.of_nat (length (concat aSlot)) + Z.of_nat (length p)
    < 2 ^ Z.of_nat (length aSlot) ->
  fillSlots r2 p aSlot = Some (aSlot', r2') ->
  slotsOk 0 aSlot' /\
  List.filter (sameKey x) (concat aSlot') =
  rev (List.filter (sameKey x) p) ++ List.filter (sameKey x) (concat aSlot).
Proof.
  induction p as [| rec next IH]; intros aSlot r2 aSlot' r2' Hok Hroom Hf.
  - simpl in Hf. inversion Hf; subst. split; [exact Hok | reflexivity].
  - cbn [fillSlots] in Hf.
    destruct (carrySlots_spec keyCompare_total aSlot 0 [rec] r2) as
      (aSlot1 & r2a & Hc & Hok1 & Hl1 & Hperm1).
    + lia.
    + exact Hok.
    + reflexivity.
    + repeat constructor.
    + simpl length in Hroom. lia.
    + rewrite Hc in Hf. cbn [mbind option_bind] in Hf.
      destruct (IH aSlot1 r2a aSlot' r2' Hok1) as [Hok2 Hfl].
      * rewrite Hl1. rewrite (Permutation_length Hperm1).
        simpl length in *. lia.
      * exact Hf.
      * split; [exact Hok2 |].
        rewrite Hfl.
        rewrite (carrySlots_filter x aSlot 0 [rec] r2 aSlot1 r2a Hok
                   ltac:(repeat constructor) Hc).
        cbn [List.filter].
        destruct (sameKey x rec); simpl.
        -- rewrite <- app_assoc. reflexivity.
        -- reflexivity.
Qed.

Lemma sweepSlots_filter x aSlot : forall i p r2 res r2',
  slotsOk i aSlot ->
  Sorted recLe p ->
  sweepSlots r2 p aSlot = Some (res, r2') ->
  List.filter (sameKey x) res =
  List.filter (sameKey x) p ++ List.filter (sameKey x) (concat aSlot).
Proof.
  induction aSlot as [| slot rest IH]; intros i p r2 res r2' Hok Hs Hsw.
  - simpl in Hsw. inversion Hsw; subst. simpl. rewrite app_nil_r. reflexivity.
  - destruct Hok as (_ & Hsorted & Hrest).
    cbn [sweepSlots] in Hsw.
    destruct (vdbeSorterMerge_spec r2 p slot) as [r2a Hm].
    rewrite Hm in Hsw. cbn [mbind option_bind] in Hsw.
    rewrite (IH (i + 1) _ _ _ _ Hrest
               (mergeLists_sorted keyCompare_total _ _ Hs Hsorted) Hsw).
    rewrite (mergeLists_filter x p slot Hs).
    change (concat (slot :: rest)) with (slot ++ concat rest).
    rewrite List.filter_app, app_assoc. reflexivity.
Qed.

(** What [vdbeSorterSort] returns on a list the slots can count. *)
Lemma vdbeSorterSort_result r2 pRecord :
  Z.of_nat (length pRecord) < 2 ^ 64 ->
  exists sorted r2',
    vdbeSorterSort r2 pRecord = Some (sorted, r2') /\
    Permutation pRecord sorted /\
    Sorted recLe sorted /\
    forall x, List.filter (sameKey x) sorted =
              rev (List.filter (sameKey x) pRecord).
Proof.
  intros Hlen. unfold vdbeSorterSort.
  assert (Hroom : Z.of_nat (length (concat (replicate 64 (@nil SorterRecord))))
                  + Z.of_nat (length pRecord)
                  < 2 ^ Z.of_nat (length (replicate 64 (@nil SorterRecord)))).
  { rewrite concat_replicate_nil, length_replicate.
    change (Z.of_nat 64) with 64. simpl length. lia. }
  destruct (fillSlots_spec keyCompare_total pRecord (replicate 64 []) r2
              (slotsOk_empty 64 0) Hroom) as
    (aSlot & r2a & Hf & Hok & _ & Hperm).
  rewrite Hf. cbn [mbind option_bind].
  destruct (sweepSlots_spec keyCompare_total aSlot 0 [] r2a Hok) as
    (res & r2' & Hsw & Hperm2 & Hres).
  { constructor. }
  exists res, r2'. split; [exact Hsw |].
  split.
  { rewrite Hperm2. simpl. rewrite Hperm.
    rewrite concat_replicate_nil, app_nil_r. reflexivity. }
  split; [exact Hres |].
  intros x.
  rewrite (sweepSlots_filter x aSlot 0 [] r2a res r2' Hok
             ltac:(constructor) Hsw).
  destruct (fillSlots_filter x pRecord (replicate 64 []) r2 aSlot r2a
              (slotsOk_empty 64 0) Hroom Hf) as [_ Hfl].
  rewrite Hfl, concat_replicate_nil. simpl. rewrite app_nil_r. reflexivity.
Qed.


End Stable.

(** *** Setting up a merge *)

(** The decoder of a 64-bit varint, the closing of a file and the
    allocator of the unpacked record are not part of the sources at hand.
    [ReadVarint64] yields the value and the rest of the buffer, as
    [ReadVarint32] does. *)
Variable ReadVarint64 : list Z -> Z * list Z.
Variable sqlite3OsCloseFree : FS -> option Z -> FS.

(** [sqlite3_file.ReadVarint]: the value, the offset past the varint and
    the result code.  After a failed read the value is zero and the
    offset the one given. *)
Definition ReadVarint (fs : FS) (pFile : option Z) (offset : Z)
  : option (Z * Z * rcode) :=
  r ← sqlite3OsRead fs pFile (replicate 9 0) 9 offset;
  let '(rc, aVarint) := r in
  if is_ok rc then
    let '(v, buffer) := ReadVarint64 aVarint in
    Some (v, 9 - zlen buffer + offset, rc)
  else Some (0, 0 + offset, rc).

(** [VdbeSorter.InitializeIterator] on the iterator [pIter], for the PMA
    that starts at [iStart] of [pSorter.pTemp1]: the byte count, the
    result code and the iterator. *)
Definition InitializeIterator (fs : FS) (pTemp1 : option Z)
    (pIter : VdbeSorterIter) (iStart nByteIn : Z)
  : option (Z * rcode * VdbeSorterIter) :=
  r ← ReadVarint fs pTemp1 iStart;
  let '(nByte, off, rc) := r in
  let it := {| iReadOff := off; iEof := off + nByte; File := pTemp1;
               Data := replicate 128 0; Key := Key pIter |} in
  let nByte := nByte + nByteIn in
  if is_ok rc then
    r ← Next fs it;
    let '(rc, it) := r in
    Some (nByte, rc, it)
  else Some (nByte, rc, it).

Definition SORTER_MAX_MERGE_COUNT : Z := 16.

(** The first loop of [SorterInitMerge], with [n] turns left at iterator
    [i]: the read offset of the sorter, the bytes counted, the result
    code and the sorter.  [iReadOff] is [pSorter.iReadOff], which the
    record of the sorter does not hold. *)
Fixpoint initIters (n : nat) (fs : FS) (i iReadOff nByte : Z) (rc : rcode)
    (p : VdbeSorter val) : option (Z * Z * rcode * VdbeSorter val) :=
  match n with
  | O => Some (iReadOff, nByte, rc, p)
  | S n' =>
      pIter ← Btree.aget (aIter p) i;
      r ← InitializeIterator fs (pTemp1 p) pIter iReadOff nByte;
      let '(nByte, rc, it) := r in
      its ← Btree.aset (aIter p) i it;
      let p := set_aIter its p in
      let iReadOff := iEof it in
      if negb (is_ok rc) || (iWriteOff p <=? iReadOff)
      then Some (iReadOff, nByte, rc, p)
      else initIters n' fs (i + 1) iReadOff nByte rc p
  end.

(** [SorterInitMerge]: the iterators, then the tree. *)
Definition SorterInitMerge (fs : FS) (iReadOff : Z) (p : VdbeSorter val)
  : option (Z * Z * rcode * VdbeSorter val) :=
  r ← initIters (Z.to_nat SORTER_MAX_MERGE_COUNT) fs 0 iReadOff 0 SQLITE_OK p;
  let '(iReadOff, nByte, rc, p) := r in
  if is_ok rc then
    p ← initTree (Z.to_nat (nTree p - 1)) p;
    Some (iReadOff, nByte, rc, p)
  else Some (iReadOff, nByte, rc, p).

(** *** Rewinding and reading *)

(** The loop [for ; N < nIter; N += N] of [sqlite3VdbeSorterRewind]. *)
Fixpoint treeSize (fuel : nat) (N nIter : Z) : option Z :=
  if N <? nIter then
    match fuel with
    | O => None
    | S fuel' => treeSize fuel' (N + N) nIter
    end
  else Some N.

Definition set_tree (its : list VdbeSorterIter) (t : list Z) (n : Z)
    (p : VdbeSorter val) : VdbeSorter val :=
  {| iWriteOff := iWriteOff p; nInMemory := nInMemory p; nTree := n;
     nPMA := nPMA p; mnPmaSize := mnPmaSize p; mxPmaSize := mxPmaSize p;
     aIter := its; aTree := t; pTemp1 := pTemp1 p;
     pRecord := pRecord p; pUnpacked := pUnpacked p |}.

Definition set_swapped (n : Z) (f : option Z) (off : Z) (p : VdbeSorter val)
  : VdbeSorter val :=
  {| iWriteOff := off; nInMemory := nInMemory p; nTree := nTree p;
     nPMA := n; mnPmaSize := mnPmaSize p; mxPmaSize := mxPmaSize p;
     aIter := aIter p; aTree := aTree p; pTemp1 := f;
     pRecord := pRecord p; pUnpacked := pUnpacked p |}.

(** The innermost loop of [sqlite3VdbeSorterRewind], which writes the
    merged keys to [pTemp2] until the merge is at EOF: the write offset,
    the result code, the files and the sorter. *)
Fixpoint mergeToFile (fuel : nat) (fs : FS) (pTemp2 : option Z) (iWrite2 : Z)
    (p : VdbeSorter val) : option (Z * rcode * FS * VdbeSorter val) :=
  match fuel with
  | O => None
  | S fuel' =>
      w ← Btree.aget (aTree p) 1;
      pIter ← Btree.aget (aIter p) w;
      let nToWrite := zlen (Key pIter) + VarintLen (zlen (Key pIter)) in
      let '(rc, fs) :=
        sqlite3OsWrite fs pTemp2 (take (Z.to_nat nToWrite) (Data pIter))
          iWrite2 in
      let iWrite2 := iWrite2 + nToWrite in
      if is_ok rc then
        r ← SorterNext fs p;
        let '(bEof, rc, p) := r in
        if is_ok rc && negb bEof
        then mergeToFile fuel' fs pTemp2 iWrite2 p
        else Some (iWrite2, rc, fs, p)
      else Some (iWrite2, rc, fs, p)
  end.

(** The loop over [iNew] of [sqlite3VdbeSorterRewind], one turn for every
    [SORTER_MAX_MERGE_COUNT] PMAs of [pTemp1]; [iNew] is read after the
    loop. *)
Fixpoint mergeGroups (fuel : nat) (fs : FS) (rc : rcode) (iNew iReadOff : Z)
    (pTemp2 : option Z) (iWrite2 : Z) (p : VdbeSorter val)
  : option (FS * rcode * Z * Z * option Z * Z * VdbeSorter val) :=
  if is_ok rc && (iNew * SORTER_MAX_MERGE_COUNT <? nPMA p) then
    match fuel with
    | O => None
    | S fuel' =>
        r ← SorterInitMerge fs iReadOff p;
        let '(iReadOff, nWrite, rc, p) := r in
        if negb (is_ok rc) || (nPMA p <=? SORTER_MAX_MERGE_COUNT)
        then Some (fs, rc, iNew, iReadOff, pTemp2, iWrite2, p)
        else
          let '(rc, pTemp2, fs) :=
            match pTemp2 with
            | None => vdbeSorterOpenTempFile fs
            | Some _ => (rc, pTemp2, fs)
            end in
          let '(iWrite2, rc, fs) :=
            if is_ok rc then SorterWriteVarint fs pTemp2 nWrite iWrite2
            else (iWrite2, rc, fs) in
          r ← (if is_ok rc then mergeToFile fuel' fs pTemp2 iWrite2 p
               else Some (iWrite2, rc, fs, p));
          let '(iWrite2, rc, fs, p) := r in
          mergeGroups fuel' fs rc (iNew + 1) iReadOff pTemp2 iWrite2 p
    end
  else Some (fs, rc, iNew, iReadOff, pTemp2, iWrite2, p).

(** The [do ... while rc == SQLITE_OK] of [sqlite3VdbeSorterRewind]: a
    pass over the PMAs of [pTemp1], after which the two files change
    places unless [SORTER_MAX_MERGE_COUNT] iterators cover them all. *)
Fixpoint mergePasses (fuel : nat) (fs : FS) (rc : rcode) (iReadOff : Z)
    (pTemp2 : option Z) (iWrite2 : Z) (p : VdbeSorter val)
  : option (FS * rcode * Z * option Z * VdbeSorter val) :=
  match fuel with
  | O => None
  | S fuel' =>
      r ← mergeGroups fuel' fs rc 0 iReadOff pTemp2 iWrite2 p;
      let '(fs, rc, iNew, iReadOff, pTemp2, iWrite2, p) := r in
      if nPMA p <=? SORTER_MAX_MERGE_COUNT
      then Some (fs, rc, iReadOff, pTemp2, p)
      else
        let pTmp := pTemp1 p in
        let p := set_swapped iNew pTemp2 iWrite2 p in
        if is_ok rc then mergePasses fuel' fs rc 0 pTmp 0 p
        else Some (fs, rc, 0, pTmp, p)
  end.

(** [sqlite3VdbeSorterRewind]: what it stores in [*pbEof], if anything,
    the result code, the files, [pSorter.iReadOff] and the sorter.
    [allocOk] tells whether the allocation of [aIter] and [aTree]
    succeeds. *)
Definition sqlite3VdbeSorterRewind (fuel : nat) (fs : FS) (iReadOff : Z)
    (allocOk : bool) (p : VdbeSorter val)
  : option (option bool * rcode * FS * Z * VdbeSorter val) :=
  if nPMA p =? 0 then
    let bEof := match pRecord p with [] => true | _ => false end in
    r ← vdbeSorterSort (pUnpacked p) (pRecord p);
    let '(sorted, r2) := r in
    Some (Some bEof, SQLITE_OK, fs, iReadOff, set_pRecord sorted r2 p)
  else
    r ← vdbeSorterListToPMA fs p;
    let '(rc, fs, p) := r in
    if negb (is_ok rc) then Some (None, rc, fs, iReadOff, p)
    else
      let nIter := if SORTER_MAX_MERGE_COUNT <? nPMA p
                   then SORTER_MAX_MERGE_COUNT else nPMA p in
      N ← treeSize (Z.to_nat nIter) 2 nIter;
      if negb allocOk
      then Some (None, SQLITE_NOMEM, fs, iReadOff, set_aIter [] p)
      else
        let p := set_tree (replicate (Z.to_nat N) Clear)
                   (replicate (Z.to_nat N) 0) N p in
        r ← mergePasses fuel fs rc iReadOff None 0 p;
        let '(fs, rc, iReadOff, pTemp2, p) := r in
        let fs := match pTemp2 with
                  | Some _ => sqlite3OsCloseFree fs pTemp2
                  | None => fs
                  end in
        w ← Btree.aget (aTree p) 1;
        pw ← Btree.aget (aIter p) w;
        Some (Some (match File pw with None => true | Some _ => false end),
              rc, fs, iReadOff, p).


(** *** Creating a sorter *)




(** *** A caller of the sorter *)



(** *** Facts about setting up a merge *)

(** X11.  [InitializeIterator] leaves the iterator at EOF when the PMA is
    empty: if the size varint read at [iStart] is zero, it returns
    [SQLITE_OK] with the iterator cleared, its file handle nil, and adds
    nothing to the byte count. *)
Theorem InitializeIterator_empty_PMA fs pTemp1 pIter iStart nByteIn off :
  ReadVarint fs pTemp1 iStart = Some (0, off, SQLITE_OK) ->
  InitializeIterator fs pTemp1 pIter iStart nByteIn
    = Some (nByteIn, SQLITE_OK, Clear).
Proof.
  intros Hr. unfold InitializeIterator. rewrite Hr.
  cbn [mbind option_bind is_ok].
  rewrite Next_at_eof by (simpl; lia).
  reflexivity.
Qed.

(** The first loop of [SorterInitMerge] writes iterators [i] to
    [i + n - 1] at most, and nothing else of the sorter. *)
Lemma initIters_shape n : forall fs i iReadOff nByte rc p iReadOff' nByte' rc' p',
  initIters n fs i iReadOff nByte rc p = Some (iReadOff', nByte', rc', p') ->
  nTree p' = nTree p /\ aTree p' = aTree p /\
  length (aIter p') = length (aIter p) /\
  nPMA p' = nPMA p /\ pRecord p' = pRecord p /\ pTemp1 p' = pTemp1 p /\
  iWriteOff p' = iWriteOff p /\
  (forall j, j < i \/ i + Z.of_nat n <= j ->
     Btree.aget (aIter p') j = Btree.aget (aIter p) j).
Proof.
  induction n as [| n IH];
    intros fs i iReadOff nByte rc p iReadOff' nByte' rc' p' H.
  - simpl in H. inversion H; subst. repeat split; reflexivity.
  - cbn [initIters] in H.
    destruct (Btree.aget (aIter p) i) as [pIter |] eqn:Hit; [| discriminate].
    cbn [mbind option_bind] in H.
    destruct (InitializeIterator fs (pTemp1 p) pIter iReadOff nByte)
      as [[[nB rc1] it] |]; [| discriminate].
    cbn [mbind option_bind] in H.
    destruct (Btree.aset (aIter p) i it) as [its |] eqn:Hset; [| discriminate].
    cbn [mbind option_bind] in H.
    assert (Hits : its = <[Z.to_nat i := it]> (aIter p) /\ 0 <= i).
    { unfold Btree.aset in Hset.
      destruct ((0 <=? i) && (i <? Z.of_nat (length (aIter p)))) eqn:E;
        [| discriminate].
      apply andb_true_iff in E. destruct E as [E _]. apply Z.leb_le in E.
      inversion Hset. auto. }
    destruct Hits as [-> Hi0].
    assert (Hone : forall j, j < i \/ i + 1 <= j ->
              Btree.aget (<[Z.to_nat i := it]> (aIter p)) j
              = Btree.aget (aIter p) j).
    { intros j Hj. unfold Btree.aget.
      destruct (j <? 0) eqn:Ej; [reflexivity |].
      apply Z.ltb_ge in Ej.
      apply list_lookup_insert_ne. lia. }
    destruct (negb (is_ok rc1) || _).
    + inversion H; subst. simpl.
      rewrite length_insert.
      repeat (split; [reflexivity |]).
      intros j Hj. apply Hone. lia.
    + apply IH in H. simpl in H.
      destruct H as (H1 & H2 & H3 & H4 & H5 & H6 & H7 & H8).
      rewrite length_insert in H3.
      repeat (split; [assumption |]).
      intros j Hj. rewrite H8 by lia. apply Hone. lia.
Qed.

(** The tree loops write [aTree] and the unpacked record only. *)
Lemma SorterDoCompare_fields i p p' :
  SorterDoCompare i p = Some p' ->
  nPMA p' = nPMA p /\ pRecord p' = pRecord p /\
  pTemp1 p' = pTemp1 p /\ iWriteOff p' = iWriteOff p.
Proof.
  unfold SorterDoCompare. intros Hd.
  destruct (if Z.quot (nTree p) 2 <=? i then _ else _) as [[i1 i2] |];
    [| discriminate].
  cbn [mbind option_bind] in Hd.
  destruct (Btree.aget (aIter p) i1) as [q1 |]; [| discriminate].
  cbn [mbind option_bind] in Hd.
  destruct (Btree.aget (aIter p) i2) as [q2 |]; [| discriminate].
  cbn [mbind option_bind] in Hd.
  match type of Hd with
  | (?m ≫= _) = Some _ => destruct m as [[iRes r2] |]; [| discriminate]
  end.
  cbn [mbind option_bind] in Hd.
  destruct (Btree.aset (aTree p) i iRes) as [t |]; [| discriminate].
  cbn [mbind option_bind] in Hd. inversion Hd; subst p'. simpl. auto.
Qed.

Lemma initTree_fields n : forall p p',
  initTree n p = Some p' ->
  nPMA p' = nPMA p /\ pRecord p' = pRecord p /\
  pTemp1 p' = pTemp1 p /\ iWriteOff p' = iWriteOff p.
Proof.
  induction n as [| n IH]; intros p p' H.
  - simpl in H. inversion H; subst. auto.
  - cbn [initTree] in H.
    destruct (SorterDoCompare (Z.of_nat (S n)) p) as [p2 |] eqn:Hd;
      [| discriminate].
    cbn [mbind option_bind] in H.
    apply IH in H. apply SorterDoCompare_fields in Hd.
    destruct H as (A1 & A2 & A3 & A4), Hd as (B1 & B2 & B3 & B4).
    repeat split; congruence.
Qed.

(** *** Facts about rewinding *)

Lemma treeSize_pow2 nIter :
  1 <= nIter <= SORTER_MAX_MERGE_COUNT ->
  exists k : nat,
    (1 <= k <= 4)%nat /\
    treeSize (Z.to_nat nIter) 2 nIter = Some (2 ^ Z.of_nat k) /\
    nIter <= 2 ^ Z.of_nat k.
Proof.
  unfold SORTER_MAX_MERGE_COUNT. intros H.
  assert (Hc : nIter = 1 \/ nIter = 2 \/ nIter = 3 \/ nIter = 4 \/
               nIter = 5 \/ nIter = 6 \/ nIter = 7 \/ nIter = 8 \/
               nIter = 9 \/ nIter = 10 \/ nIter = 11 \/ nIter = 12 \/
               nIter = 13 \/ nIter = 14 \/ nIter = 15 \/ nIter = 16) by lia.
  repeat (destruct Hc as [-> | Hc]); try subst nIter;
    first [ exists 1%nat; split; [lia |]; split; [reflexivity |];
            vm_compute; discriminate
          | exists 2%nat; split; [lia |]; split; [reflexivity |];
            vm_compute; discriminate
          | exists 3%nat; split; [lia |]; split; [reflexivity |];
            vm_compute; discriminate
          | exists 4%nat; split; [lia |]; split; [reflexivity |];
            vm_compute; discriminate ].
Qed.

(** The part of a sorter that a merge leaves as it is: the size of the
    tree and of the two arrays. *)
Definition sameShape (p p' : VdbeSorter val) : Prop :=
  nTree p' = nTree p /\ length (aTree p') = length (aTree p) /\
  length (aIter p') = length (aIter p).

Lemma sameShape_refl p : sameShape p p.
Proof. repeat split. Qed.

Lemma sameShape_trans p q r : sameShape p q -> sameShape q r -> sameShape p r.
Proof.
  intros (A1 & A2 & A3) (B1 & B2 & B3). repeat split; congruence.
Qed.

Lemma sameShape_wellSized k p p' :
  sameShape p p' -> wellSized k p -> wellSized k p'.
Proof.
  intros (A1 & A2 & A3) (Hk & HN & HT & HI).
  split; [exact Hk |]. unfold zlen in *. rewrite A1, A2, A3. auto.
Qed.

Lemma SorterDoCompare_shape i p p' :
  SorterDoCompare i p = Some p' -> sameShape p p' /\ nPMA p' = nPMA p.
Proof.
  unfold SorterDoCompare. intros Hd.
  destruct (if Z.quot (nTree p) 2 <=? i then _ else _) as [[i1 i2] |];
    [| discriminate].
  cbn [mbind option_bind] in Hd.
  destruct (Btree.aget (aIter p) i1) as [q1 |]; [| discriminate].
  cbn [mbind option_bind] in Hd.
  destruct (Btree.aget (aIter p) i2) as [q2 |]; [| discriminate].
  cbn [mbind option_bind] in Hd.
  match type of Hd with
  | (?m ≫= _) = Some _ => destruct m as [[iRes r2] |]; [| discriminate]
  end.
  cbn [mbind option_bind] in Hd.
  destruct (Btree.aset (aTree p) i iRes) as [t |] eqn:Ht; [| discriminate].
  cbn [mbind option_bind] in Hd. inversion Hd; subst p'. simpl.
  apply Btree.aset_length in Ht.
  repeat split; auto.
Qed.

Lemma recompute_shape fuel : forall i p p',
  recompute fuel i p = Some p' -> sameShape p p' /\ nPMA p' = nPMA p.
Proof.
  induction fuel as [| fuel IH]; intros i p p' H; simpl in H.
  - destruct (0 <? i); [discriminate |]. inversion H; subst.
    split; [apply sameShape_refl | reflexivity].
  - destruct (0 <? i).
    + destruct (SorterDoCompare i p) as [p1 |] eqn:Hd; [| discriminate].
      cbn [mbind option_bind] in H.
      apply SorterDoCompare_shape in Hd. apply IH in H.
      destruct Hd as [S1 N1], H as [S2 N2].
      split; [eapply sameShape_trans; eassumption | congruence].
    + inversion H; subst. split; [apply sameShape_refl | reflexivity].
Qed.

Lemma SorterNext_shape fs p eof rc p' :
  SorterNext fs p = Some (eof, rc, p') -> sameShape p p' /\ nPMA p' = nPMA p.
Proof.
  unfold SorterNext. intros H.
  destruct (aTree p) as [| t0 tree] eqn:Et.
  - destruct (pRecord p); [discriminate |].
    inversion H; subst. unfold sameShape. simpl. rewrite Et. auto.
  - rewrite <- Et in H.
    destruct (Btree.aget (aTree p) 1) as [iPrev |]; [| discriminate].
    cbn [mbind option_bind] in H.
    destruct (Btree.aget (aIter p) iPrev) as [it |]; [| discriminate].
    cbn [mbind option_bind] in H.
    destruct (Next fs it) as [[rc1 it1] |]; [| discriminate].
    cbn [mbind option_bind] in H.
    destruct (Btree.aset (aIter p) iPrev it1) as [its |] eqn:Hs;
      [| discriminate].
    cbn [mbind option_bind] in H.
    apply Btree.aset_length in Hs.
    match type of H with
    | (?m ≫= _) = Some _ => destruct m as [p2 |] eqn:Hr; [| discriminate]
    end.
    cbn [mbind option_bind] in H.
    destruct (Btree.aget (aTree p2) 1) as [w |]; [| discriminate].
    cbn [mbind option_bind] in H.
    destruct (Btree.aget (aIter p2) w) as [pw |]; [| discriminate].
    cbn [mbind option_bind] in H. inversion H; subst p'.
    assert (Hp2 : sameShape (set_aIter its p) p2
                  /\ nPMA p2 = nPMA (set_aIter its p)).
    { destruct (is_ok rc1).
      - eapply recompute_shape. exact Hr.
      - inversion Hr; subst. split; [apply sameShape_refl | reflexivity]. }
    destruct Hp2 as [(B1 & B2 & B3) B4]. simpl in *.
    unfold sameShape. repeat split; congruence.
Qed.

Lemma mergeToFile_shape fuel : forall fs pTemp2 iWrite2 p iWrite2' rc fs' p',
  mergeToFile fuel fs pTemp2 iWrite2 p = Some (iWrite2', rc, fs', p') ->
  sameShape p p' /\ nPMA p' = nPMA p.
Proof.
  induction fuel as [| fuel IH];
    intros fs pTemp2 iWrite2 p iWrite2' rc fs' p' H; [discriminate |].
  cbn [mergeToFile] in H.
  destruct (Btree.aget (aTree p) 1) as [w |]; [| discriminate].
  cbn [mbind option_bind] in H.
  destruct (Btree.aget (aIter p) w) as [pIter |]; [| discriminate].
  cbn [mbind option_bind] in H.
  destruct (sqlite3OsWrite fs pTemp2 _ iWrite2) as [rc1 fs1].
  destruct (is_ok rc1).
  - destruct (SorterNext fs1 p) as [[[bEof rc2] p2] |] eqn:Hn; [| discriminate].
    cbn [mbind option_bind] in H.
    apply SorterNext_shape in Hn. destruct Hn as [S1 N1].
    destruct (is_ok rc2 && negb bEof).
    + apply IH in H. destruct H as [S2 N2].
      split; [eapply sameShape_trans; eassumption | congruence].
    + inversion H; subst. auto.
  - inversion H; subst. split; [apply sameShape_refl | reflexivity].
Qed.

(** *** A sorter that stays in memory *)


(** The bytes a list of records takes in a PMA: every record behind the
    varint of its length. *)
Definition pmaBytes (l : list SorterRecord) : Z :=
  foldr (fun r acc => VarintLen (nVal r) + nVal r + acc) 0 l.


Lemma pmaBytes_app l1 l2 : pmaBytes (l1 ++ l2) = pmaBytes l1 + pmaBytes l2.
Proof.
  induction l1 as [| r l1 IH]; simpl; [reflexivity |].
  unfold pmaBytes in *. simpl. rewrite IH. lia.
Qed.

Lemma pmaBytes_perm l1 l2 : Permutation l1 l2 -> pmaBytes l1 = pmaBytes l2.
Proof.
  induction 1 as [| x l l' _ IH | x y l | l l' l'' _ IH1 _ IH2].
  - reflexivity.
  - unfold pmaBytes in *. simpl. rewrite IH. reflexivity.
  - unfold pmaBytes. simpl. lia.
  - congruence.
Qed.





(** *** The bytes counted and the bytes written *)

(** X17.  A write that returns [SQLITE_OK] keeps [nInMemory] equal to the
    bytes the in-memory list would take in a PMA, every record behind the
    varint of its length: if that holds before the write it holds after
    it, whether or not the write flushed the list. *)
Theorem sqlite3VdbeSorterWrite_keeps_byte_count fs p z n heapNearlyFull
    fs' p' :
  nInMemory p = pmaBytes (pRecord p) ->
  sqlite3VdbeSorterWrite fs p z n true heapNearlyFull
    = Some (SQLITE_OK, fs', p') ->
  nInMemory p' = pmaBytes (pRecord p').
Proof.
  intros Hinv H. unfold sqlite3VdbeSorterWrite in H.
  cbn [is_ok andb] in H.
  match type of H with
  | (if ?c then _ else _) = _ => destruct c
  end.
  - match type of H with
    | (vdbeSorterListToPMA fs ?q ≫= _) = _ => set (p1 := q) in *
    end.
    destruct (vdbeSorterListToPMA fs p1) as [[[rc fs2] p2] |] eqn:Hf;
      [| discriminate].
    cbn [mbind option_bind] in H. inversion H; subst. simpl.
    destruct (Z.eq_dec (nInMemory p1) 0) as [E0 | E0].
    + unfold vdbeSorterListToPMA in Hf.
      apply Z.eqb_eq in E0. rewrite E0 in Hf. apply Z.eqb_eq in E0.
      inversion Hf; subst p2. simpl in *.
      unfold pmaBytes in *. simpl. lia.
    + destruct (vdbeSorterListToPMA_ok fs p1 fs' p2 E0 Hf) as (_ & HR & _).
      rewrite HR. reflexivity.
  - inversion H; subst. simpl. unfold pmaBytes in *. simpl. lia.
Qed.

Lemma writeRecords_offset : forall l fs f iOff iOff' fs' rest,
  (forall v, zlen (WriteVarint64 v) = VarintLen v) ->
  writeRecords fs f iOff l = (iOff', SQLITE_OK, fs', rest) ->
  iOff' = iOff + pmaBytes l.
Proof.
  induction l as [| rec next IH]; intros fs f iOff iOff' fs' rest Hv H.
  - simpl in H. inversion H. unfold pmaBytes. simpl. lia.
  - simpl in H. unfold SorterWriteVarint in H.
    destruct (sqlite3OsWrite fs f (WriteVarint64 (nVal rec)) iOff)
      as [rc1 fs1].
    destruct rc1; simpl in H; try (inversion H; fail).
    destruct (sqlite3OsWrite fs1 f _ _) as [rc2 fs2].
    destruct rc2; simpl in H; try (inversion H; fail).
    apply IH in H; [| exact Hv].
    rewrite H, Hv. unfold pmaBytes. simpl. lia.
Qed.

Section Merging.

Hypothesis keyCompare_total :
  forall k1 k2, 0 < keyCompare k1 k2 -> keyCompare k2 k1 <= 0.
Hypothesis keyCompare_trans :
  forall k1 k2 k3,
    keyCompare k1 k2 <= 0 -> keyCompare k2 k3 <= 0 -> keyCompare k1 k3 <= 0.

Lemma SorterInitMerge_result k fs iReadOff p iReadOff' nByte p1 :
  wellSized k p ->
  initIters (Z.to_nat SORTER_MAX_MERGE_COUNT) fs 0 iReadOff 0 SQLITE_OK p
    = Some (iReadOff', nByte, SQLITE_OK, p1) ->
  exists p',
    SorterInitMerge fs iReadOff p = Some (iReadOff', nByte, SQLITE_OK, p') /\
    aIter p' = aIter p1 /\
    nPMA p' = nPMA p /\ pRecord p' = pRecord p /\ pTemp1 p' = pTemp1 p /\
    iWriteOff p' = iWriteOff p /\
    wellSized k p' /\ treeOk p' /\
    (forall j, SORTER_MAX_MERGE_COUNT <= j ->
       Btree.aget (aIter p') j = Btree.aget (aIter p) j) /\
    exists w, Btree.aget (aTree p') 1 = Some w /\
      winner (aIter p') 0 (nTree p') w.
Proof.
  intros Hw Hinit.
  destruct (initIters_shape _ _ _ _ _ _ _ _ _ _ _ Hinit)
    as (HN & HT & HL & HP & HR & HF & HO & Hfar).
  assert (Hw1 : wellSized k p1).
  { destruct Hw as (Hk & HN0 & HT0 & HI0).
    split; [exact Hk |]. unfold zlen in *. rewrite HN, HT, HL. auto. }
  destruct (initTree_all k p1 Hw1) as (p' & Htree & Hok & Hw' & HI').
  pose proof (initTree_fields _ _ _ Htree) as Hfields.
  destruct Hfields as (F1 & F2 & F3 & F4).
  exists p'. unfold SorterInitMerge. rewrite Hinit.
  cbn [mbind option_bind is_ok]. rewrite Htree. cbn [mbind option_bind].
  split; [reflexivity |]. split; [exact HI' |].
  split; [congruence |]. split; [congruence |]. split; [congruence |].
  split; [congruence |].
  split; [exact Hw' |]. split; [exact Hok |].
  split.
  - intros j Hj. rewrite HI'. apply Hfar.
    right. unfold SORTER_MAX_MERGE_COUNT in *. lia.
  - apply (root_winner keyCompare_total keyCompare_trans k p' Hw' Hok).
Qed.

(** X12.  Once the first loop of [SorterInitMerge] has set up its
    iterators without error on a sorter whose arrays have [nTree = 2^k]
    entries, the second loop always runs to its end and leaves a complete
    tournament: every node of [aTree] holds the choice between its two
    children, and [aTree[1]] indexes an iterator whose key no other
    iterator undercuts, an iterator at EOF counting as greater than any
    key.  Iterators from [SORTER_MAX_MERGE_COUNT] on are not touched. *)
Theorem SorterInitMerge_builds_tournament k fs iReadOff p iReadOff' nByte p1 :
  wellSized k p ->
  initIters (Z.to_nat SORTER_MAX_MERGE_COUNT) fs 0 iReadOff 0 SQLITE_OK p
    = Some (iReadOff', nByte, SQLITE_OK, p1) ->
  exists p',
    SorterInitMerge fs iReadOff p = Some (iReadOff', nByte, SQLITE_OK, p') /\
    aIter p' = aIter p1 /\
    wellSized k p' /\ treeOk p' /\
    (forall j, SORTER_MAX_MERGE_COUNT <= j ->
       Btree.aget (aIter p') j = Btree.aget (aIter p) j) /\
    exists w, Btree.aget (aTree p') 1 = Some w /\
      winner (aIter p') 0 (nTree p') w.
Proof.
  intros Hw Hinit.
  destruct (SorterInitMerge_result k fs iReadOff p iReadOff' nByte p1 Hw Hinit)
    as (p' & H1 & H2 & _ & _ & _ & _ & H3 & H4 & H5 & H6).
  exists p'. repeat (split; [assumption |]). exact H6.
Qed.

(** The tournament is complete: every node holds the choice between its
    children and the root names a winner among all iterators. *)
Definition tournamentSet (p : VdbeSorter val) : Prop :=
  treeOk p /\
  exists w, Btree.aget (aTree p) 1 = Some w /\
    winner (aIter p) 0 (nTree p) w.

Lemma SorterInitMerge_inv k fs off p off' nB rc p' :
  wellSized k p ->
  SorterInitMerge fs off p = Some (off', nB, rc, p') ->
  wellSized k p' /\ nPMA p' = nPMA p /\
  (rc = SQLITE_OK -> tournamentSet p').
Proof.
  intros Hw H.
  destruct (initIters (Z.to_nat SORTER_MAX_MERGE_COUNT) fs 0 off 0 SQLITE_OK p)
    as [[[[o1 nb1] rc1] p1] |] eqn:Hi.
  - destruct (rcode_eqb rc1 SQLITE_OK) eqn:Erc.
    + apply rcode_eqb_eq in Erc. subst rc1.
      destruct (SorterInitMerge_result k fs off p o1 nb1 p1 Hw Hi)
        as (p2 & Heq & _ & HP & _ & _ & _ & Hw2 & Hok & _ & Hwin).
      rewrite Heq in H. inversion H; subst.
      split; [exact Hw2 |]. split; [exact HP |].
      intros _. split; assumption.
    + unfold SorterInitMerge in H. rewrite Hi in H.
      cbn [mbind option_bind] in H.
      destruct rc1; try discriminate Erc;
        cbn [is_ok] in H; inversion H; subst;
        destruct (initIters_shape _ _ _ _ _ _ _ _ _ _ _ Hi)
          as (HN & HT & HL & HP & _);
        (split; [apply (sameShape_wellSized k p);
                   [split; [exact HN |];
                    split; [rewrite HT; reflexivity | exact HL]
                   | exact Hw] |];
         split; [exact HP |]; intros C; discriminate C).
  - unfold SorterInitMerge in H. rewrite Hi in H. discriminate.
Qed.

Lemma mergeGroups_inv k fuel :
  forall fs rc iNew off pT2 iW2 p fs' rc' iNew' off' pT2' iW2' p',
  wellSized k p ->
  mergeGroups fuel fs rc iNew off pT2 iW2 p
    = Some (fs', rc', iNew', off', pT2', iW2', p') ->
  wellSized k p' /\ nPMA p' = nPMA p /\
  (rc' = SQLITE_OK ->
     (nPMA p <= SORTER_MAX_MERGE_COUNT ->
      iNew * SORTER_MAX_MERGE_COUNT < nPMA p -> tournamentSet p') /\
     (SORTER_MAX_MERGE_COUNT < nPMA p ->
      nPMA p <= iNew' * SORTER_MAX_MERGE_COUNT)).
Proof.
  induction fuel as [| fuel IH];
    intros fs rc iNew off pT2 iW2 p fs' rc' iNew' off' pT2' iW2' p' Hw H.
  - simpl in H.
    destruct (is_ok rc && (iNew * SORTER_MAX_MERGE_COUNT <? nPMA p)) eqn:Ec;
      [discriminate |].
    inversion H; subst.
    split; [exact Hw |]. split; [reflexivity |].
    intros ->. simpl in Ec. apply Z.ltb_ge in Ec. split; intros; lia.
  - cbn [mergeGroups] in H.
    destruct (is_ok rc && (iNew * SORTER_MAX_MERGE_COUNT <? nPMA p)) eqn:Ec.
    + destruct (SorterInitMerge fs off p) as [[[[o1 nW] rc1] p1] |] eqn:Hm;
        [| discriminate].
      cbn [mbind option_bind] in H.
      destruct (SorterInitMerge_inv k fs off p o1 nW rc1 p1 Hw Hm)
        as (Hw1 & HP1 & Ht1).
      destruct (negb (is_ok rc1) || (nPMA p1 <=? SORTER_MAX_MERGE_COUNT))
        eqn:Eb.
      * inversion H; subst.
        split; [exact Hw1 |]. split; [exact HP1 |].
        intros ->. split; [intros _ _; apply Ht1; reflexivity |].
        intros Hgt. simpl in Eb. apply Z.leb_le in Eb. lia.
      * apply orb_false_iff in Eb. destruct Eb as [Eb1 Eb2].
        apply Z.leb_gt in Eb2.
        destruct (match pT2 with
                  | Some _ => (rc1, pT2, fs)
                  | None => vdbeSorterOpenTempFile fs
                  end) as [[rc2 pT2a] fs2].
        destruct (if is_ok rc2 then SorterWriteVarint fs2 pT2a nW iW2
                  else (iW2, rc2, fs2)) as [[iW2a rc3] fs3].
        match type of H with
        | (?m ≫= _) = Some _ =>
            destruct m as [[[[iW2b rc4] fs4] p2] |] eqn:Hf; [| discriminate]
        end.
        cbn [mbind option_bind] in H.
        assert (Hs2 : sameShape p1 p2 /\ nPMA p2 = nPMA p1).
        { destruct (is_ok rc3).
          - eapply mergeToFile_shape. exact Hf.
          - inversion Hf; subst.
            split; [apply sameShape_refl | reflexivity]. }
        destruct Hs2 as [Hs2 HP2].
        apply IH in H; [| exact (sameShape_wellSized k p1 p2 Hs2 Hw1)].
        destruct H as (Hw' & HP' & Hrest).
        split; [exact Hw' |]. split; [congruence |].
        intros Hrc. destruct (Hrest Hrc) as [_ Hb].
        split; [intros; lia |].
        intros Hgt. rewrite HP2, HP1 in Hb. apply Hb. exact Hgt.
    + inversion H; subst.
      split; [exact Hw |]. split; [reflexivity |].
      intros ->. simpl in Ec. apply Z.ltb_ge in Ec. split; intros; lia.
Qed.

Lemma mergePasses_inv k fuel : forall fs rc off pT2 iW2 p fs' off' pT2' p',
  wellSized k p -> 0 < nPMA p ->
  mergePasses fuel fs rc off pT2 iW2 p
    = Some (fs', SQLITE_OK, off', pT2', p') ->
  wellSized k p' /\ tournamentSet p'.
Proof.
  induction fuel as [| fuel IH];
    intros fs rc off pT2 iW2 p fs' off' pT2' p' Hw Hn H; [discriminate |].
  cbn [mergePasses] in H.
  destruct (mergeGroups fuel fs rc 0 off pT2 iW2 p)
    as [[[[[[[fs1 rc1] iNew] off1] pT2a] iW2a] p1] |] eqn:Hg; [| discriminate].
  cbn [mbind option_bind] in H.
  destruct (mergeGroups_inv k fuel _ _ _ _ _ _ _ _ _ _ _ _ _ _ Hw Hg)
    as (Hw1 & HP1 & Hrest).
  destruct (nPMA p1 <=? SORTER_MAX_MERGE_COUNT) eqn:Ele.
  - inversion H; subst. apply Z.leb_le in Ele.
    split; [exact Hw1 |].
    apply (Hrest eq_refl); lia.
  - apply Z.leb_gt in Ele.
    destruct (rcode_eqb rc1 SQLITE_OK) eqn:Erc.
    + apply rcode_eqb_eq in Erc. subst rc1. cbn [is_ok] in H.
      destruct (Hrest eq_refl) as [_ Hb].
      apply IH in H; [exact H | |].
      * destruct Hw1 as (A & B & C & D). repeat split; assumption.
      * simpl. unfold SORTER_MAX_MERGE_COUNT in *. lia.
    + destruct rc1; try discriminate Erc; cbn [is_ok] in H; discriminate H.
Qed.

Lemma vdbeSorterListToPMA_nPMA fs p rc fs' p' :
  vdbeSorterListToPMA fs p = Some (rc, fs', p') ->
  nPMA p <= nPMA p' <= nPMA p + 1.
Proof.
  unfold vdbeSorterListToPMA.
  destruct (nInMemory p =? 0).
  - intros H. inversion H; subst. lia.
  - destruct (vdbeSorterSort (pUnpacked p) (pRecord p)) as [[sorted r2] |];
      [| discriminate].
    cbn [mbind option_bind].
    destruct (match pTemp1 p with
              | Some h => (SQLITE_OK, Some h, fs)
              | None => vdbeSorterOpenTempFile fs
              end) as [[rc0 f] fs0].
    destruct (is_ok rc0).
    + destruct (SorterWriteVarint fs0 f (nInMemory p) (iWriteOff p))
        as [[o1 rc1] fs1].
      destruct (if is_ok rc1 then writeRecords fs1 f o1 sorted
                else (o1, rc1, fs1, sorted)) as [[[o2 rc2] fs2] rest].
      destruct (if is_ok rc2 then sqlite3OsWrite fs2 f (replicate 8 0) o2
                else (rc2, fs2)) as [rc3 fs3].
      intros H. inversion H; subst. simpl. lia.
    + intros H. inversion H; subst. simpl. lia.
Qed.

(** X13.  Whenever [sqlite3VdbeSorterRewind] returns [SQLITE_OK] on a
    sorter that has PMAs on disk, however many merge passes it took, it
    leaves a complete tournament over a tree of 2, 4, 8 or 16 entries:
    every node of [aTree] holds the choice between its two children,
    [aTree[1]] indexes an iterator whose key no other iterator undercuts,
    and [*pbEof] tells whether that iterator is at EOF. *)
Theorem Rewind_leaves_tournament fuel fs iReadOff allocOk p eof fs' iReadOff'
    p' :
  0 < nPMA p ->
  sqlite3VdbeSorterRewind fuel fs iReadOff allocOk p
    = Some (eof, SQLITE_OK, fs', iReadOff', p') ->
  exists k w pw,
    (1 <= k <= 4)%nat /\ wellSized k p' /\ treeOk p' /\
    Btree.aget (aTree p') 1 = Some w /\
    Btree.aget (aIter p') w = Some pw /\
    eof = Some (match File pw with None => true | Some _ => false end) /\
    winner (aIter p') 0 (nTree p') w.
Proof.
  intros Hn H. unfold sqlite3VdbeSorterRewind in H.
  assert (E0 : (nPMA p =? 0) = false) by (apply Z.eqb_neq; lia).
  rewrite E0 in H.
  destruct (vdbeSorterListToPMA fs p) as [[[rc1 fs1] p1] |] eqn:Hl;
    [| discriminate].
  cbn [mbind option_bind] in H.
  apply vdbeSorterListToPMA_nPMA in Hl.
  destruct (rcode_eqb rc1 SQLITE_OK) eqn:Erc;
    [| destruct rc1; try discriminate Erc; cbn [is_ok negb] in H;
       discriminate H].
  apply rcode_eqb_eq in Erc. subst rc1. cbn [is_ok negb] in H.
  set (nIter := if SORTER_MAX_MERGE_COUNT <? nPMA p1
                then SORTER_MAX_MERGE_COUNT else nPMA p1) in *.
  destruct (treeSize_pow2 nIter) as (k & Hk & Hts & Hge).
  { unfold nIter, SORTER_MAX_MERGE_COUNT.
    destruct (16 <? nPMA p1) eqn:E; [lia |]. apply Z.ltb_ge in E. lia. }
  rewrite Hts in H. cbn [mbind option_bind] in H.
  destruct allocOk; cbn [negb] in H; [| discriminate].
  match type of H with
  | (mergePasses fuel fs1 SQLITE_OK iReadOff None 0 ?q ≫= _) = _ =>
      set (p2 := q) in *
  end.
  destruct (mergePasses fuel fs1 SQLITE_OK iReadOff None 0 p2)
    as [[[[[fs3 rc3] off3] pT3] p3] |] eqn:Hp; [| discriminate].
  cbn [mbind option_bind] in H.
  destruct (Btree.aget (aTree p3) 1) as [w |] eqn:Hw; [| discriminate].
  cbn [mbind option_bind] in H.
  destruct (Btree.aget (aIter p3) w) as [pw |] eqn:Hpw; [| discriminate].
  cbn [mbind option_bind] in H. inversion H; subst.
  assert (Hw2 : wellSized k p2).
  { assert (Hpos : 0 < 2 ^ Z.of_nat k) by (apply Z.pow_pos_nonneg; lia).
    split; [lia |]. unfold p2, zlen. simpl.
    rewrite !length_replicate. split; [reflexivity |]. lia. }
  destruct (mergePasses_inv k fuel _ _ _ _ _ _ _ _ _ _ Hw2
              ltac:(unfold p2; simpl; lia) Hp) as (Hw3 & Hok & w' & Hw' & Hwin).
  rewrite Hw in Hw'. inversion Hw'; subst w'.
  exists k, w, pw. repeat (split; [assumption || reflexivity || lia |]).
  exact Hwin.
Qed.




(** X18.  When the varint written has the length [VarintLen] tells and
    [nInMemory] counts the bytes of the list as [sqlite3VdbeSorterWrite]
    does, a flush that returns [SQLITE_OK] has moved the write offset by
    exactly the size varint and the [nInMemory] bytes it announces, has
    counted one more PMA and has left the list empty. *)
Theorem vdbeSorterListToPMA_writes_the_bytes_counted fs p fs' p' :
  (forall v, zlen (WriteVarint64 v) = VarintLen v) ->
  Z.of_nat (length (pRecord p)) < 2 ^ 64 ->
  nInMemory p = pmaBytes (pRecord p) ->
  nInMemory p <> 0 ->
  vdbeSorterListToPMA fs p = Some (SQLITE_OK, fs', p') ->
  iWriteOff p' = iWriteOff p + VarintLen (nInMemory p) + nInMemory p /\
  nPMA p' = nPMA p + 1 /\ pRecord p' = [].
Proof.
  intros Hv Hlen Hinv Hn H.
  destruct (vdbeSorterListToPMA_ok fs p fs' p' Hn H) as (HP & HR & _).
  split; [| split; assumption].
  unfold vdbeSorterListToPMA in H.
  apply Z.eqb_neq in Hn. rewrite Hn in H.
  destruct (vdbeSorterSort_result keyCompare_total keyCompare_trans
              (pUnpacked p) (pRecord p) Hlen)
    as (sorted & r2 & Hs & Hperm & _).
  rewrite Hs in H. cbn [mbind option_bind] in H.
  destruct (match pTemp1 p with
            | Some h => (SQLITE_OK, Some h, fs)
            | None => vdbeSorterOpenTempFile fs
            end) as [[rc f] fs0].
  destruct rc; simpl in H; try (inversion H; fail).
  unfold SorterWriteVarint in H.
  destruct (sqlite3OsWrite fs0 f (WriteVarint64 (nInMemory p)) (iWriteOff p))
    as [rc1 fs1].
  destruct rc1; simpl in H; try (inversion H; fail).
  destruct (writeRecords fs1 f _ sorted) as [[[o2 rc2] fs2] rest] eqn:Hw.
  destruct rc2; simpl in H; try (inversion H; fail).
  apply writeRecords_offset in Hw; [| exact Hv].
  destruct (sqlite3OsWrite fs2 f _ o2) as [rc3 fs3].
  inversion H; subst. simpl.
  rewrite Hv, Hinv, (pmaBytes_perm _ _ Hperm). lia.
Qed.

End Merging.

End Compare.

(** *** A record format to run the sorter on *)

(** Modelled from the spec: the record serialiser is not in the sources
    at hand; the spec asks of it "a record (de)serializer" and "a
    callable (bytes, bytes) -> {Less, Equal, Greater} plus an nField for
    the composite-key arity".  Here every byte of a key is one field, the
    byte 0 being NULL, which sorts first; the rowid is the last field. *)
Definition demoUnpack (ki : KeyInfo) (k : list Z) : UnpackedRecord Z :=
  {| nField := Z.of_nat (length k);
     aMem := map (fun b => {| Value := if b =? 0 then None else Some b |}) k;
     flags := 0 |}.

Definition memByte (m : Mem Z) : Z :=
  match Value m with Some b => b | None => 0 end.

(** Field by field; when one key runs out of fields, keys with a common
    prefix are equal if [prefixMatch] is set, and the longer key is the
    larger if not. *)
Fixpoint lexCompare (prefixMatch : bool) (a b : list Z) : Z :=
  match a, b with
  | x :: a', y :: b' =>
      if x <? y then -1 else if y <? x then 1
      else lexCompare prefixMatch a' b'
  | [], [] => 0
  | [], _ :: _ => if prefixMatch then 0 else -1
  | _ :: _, [] => if prefixMatch then 0 else 1
  end.

(** The first [nField] fields of the unpacked record are compared, under
    the prefix rule when the flag [UNPACKED_PREFIX_MATCH], taken to be 2,
    is set. *)
Definition demoCompare (k1 : list Z) (r2 : UnpackedRecord Z) : Z :=
  lexCompare (Z.testbit (flags r2) 1) k1
    (take (Z.to_nat (nField r2)) (map memByte (aMem r2))).

Definition mkRecord (k : list Z) : SorterRecord :=
  {| pVal := k; nVal := Z.of_nat (length k) |}.

Lemma lexCompare_antisym a : forall b,
  lexCompare false a b = - lexCompare false b a.
Proof.
  induction a as [| x a IH]; intros [| y b]; simpl; try reflexivity.
  destruct (x <? y) eqn:E1, (y <? x) eqn:E2;
    rewrite ?Z.ltb_lt, ?Z.ltb_ge in *; try lia.
  apply IH.
Qed.

Lemma lexCompare_range a : forall b, -1 <= lexCompare false a b <= 1.
Proof.
  induction a as [| x a IH]; intros [| y b]; simpl; try lia.
  destruct (x <? y), (y <? x); try lia. apply IH.
Qed.

Lemma lexCompare_trans a : forall b c,
  lexCompare false a b <= 0 -> lexCompare false b c <= 0 ->
  lexCompare false a c <= 0.
Proof.
  induction a as [| x a IH]; intros [| y b] [| z c]; simpl; try lia.
  destruct (x <? y) eqn:E1, (y <? x) eqn:E2, (y <? z) eqn:E3,
    (z <? y) eqn:E4, (x <? z) eqn:E5, (z <? x) eqn:E6;
    rewrite ?Z.ltb_lt, ?Z.ltb_ge in *; try lia.
  apply IH.
Qed.

Lemma demo_fields k (ki : KeyInfo) :
  take (Z.to_nat (nField (demoUnpack ki k)))
       (map memByte (aMem (demoUnpack ki k))) = k.
Proof.
  simpl. rewrite Nat2Z.id.
  rewrite take_ge by (rewrite !length_map; lia).
  rewrite map_map. rewrite <- (map_id k) at 2.
  apply map_ext. intros b. unfold memByte. simpl.
  destruct (b =? 0) eqn:E; [apply Z.eqb_eq in E; subst |]; reflexivity.
Qed.

Lemma demo_keyCompare ki k1 k2 :
  keyCompare Z demoUnpack demoCompare ki k1 k2 = lexCompare false k1 k2.
Proof. unfold keyCompare, demoCompare. rewrite demo_fields. reflexivity. Qed.

Lemma demo_total ki k1 k2 :
  0 < keyCompare Z demoUnpack demoCompare ki k1 k2 ->
  keyCompare Z demoUnpack demoCompare ki k2 k1 <= 0.
Proof.
  rewrite !demo_keyCompare. rewrite (lexCompare_antisym k2 k1). lia.
Qed.

Lemma demo_trans ki k1 k2 k3 :
  keyCompare Z demoUnpack demoCompare ki k1 k2 <= 0 ->
  keyCompare Z demoUnpack demoCompare ki k2 k3 <= 0 ->
  keyCompare Z demoUnpack demoCompare ki k1 k3 <= 0.
Proof. rewrite !demo_keyCompare. apply lexCompare_trans. Qed.

Definition emptyUnpacked : UnpackedRecord Z :=
  {| nField := 0; aMem := []; flags := 0 |}.


Example vdbeSorterSort_three :
  fst <$> vdbeSorterSort Z demoUnpack demoCompare 2 {| keyFields := 1 |}
            emptyUnpacked [mkRecord [3; 1]; mkRecord [1; 2]; mkRecord [2; 3]]
  = Some [mkRecord [1; 2]; mkRecord [2; 3]; mkRecord [3; 1]].
Proof. vm_compute. reflexivity. Qed.

(** C9, at the failing inputs.  With the rowid rule on and one key
    field, the probe [5] compared with the sorter key NULL yields [-1]:
    the record holding the NULL comes out as the greater one.  With two
    key fields, the probe [(7, NULL)] compared with the sorter key
    [(3, 4)] yields [1]: a NULL in the first record does not make it the
    smaller one.  The last byte of each key is its rowid. *)
Theorem sorterCompare_null_not_first :
  fst <$> sorterCompare Z demoUnpack demoCompare 2 {| keyFields := 1 |}
            true [5; 9] (Some [0; 7]) emptyUnpacked = Some (-1) /\
  fst <$> sorterCompare Z demoUnpack demoCompare 2 {| keyFields := 2 |}
            true [7; 0; 1] (Some [3; 4; 2]) emptyUnpacked = Some 1.
Proof. split; vm_compute; reflexivity. Qed.

(** *** Files in memory *)

(** Modelled from the spec: the VFS is not in the sources at hand ("VFS
    contract (consumed): open, close, read(off, len), write(off,
    bytes)").  A file is its bytes.  A read past the end of the file is a
    short read: an error, the missing bytes zero.  A read larger than the
    buffer it is handed, or on a nil handle, faults. *)
Definition memRead (fs : gmap Z (list Z)) (file : option Z) (buf : list Z)
    (amt off : Z) : option (rcode * list Z) :=
  h ← file;
  content ← fs !! h;
  if (amt <? 0) || (off <? 0) || (zlen buf <? amt) then None
  else
    let got := take (Z.to_nat amt) (drop (Z.to_nat off) content) in
    let rest := drop (Z.to_nat amt) buf in
    if zlen got =? amt then Some (SQLITE_OK, got ++ rest)
    else Some (SQLITE_IOERR,
               got ++ replicate (Z.to_nat amt - length got) 0 ++ rest).

Definition memWrite (fs : gmap Z (list Z)) (file : option Z) (data : list Z)
    (off : Z) : rcode * gmap Z (list Z) :=
  match file with
  | None => (SQLITE_IOERR, fs)
  | Some h =>
      let content := default [] (fs !! h) in
      let o := Z.to_nat off in
      let padded := content ++ replicate (o - length content) 0 in
      (SQLITE_OK,
       <[h := take o padded ++ data ++ drop (o + length data) content]> fs)
  end.

Definition memOpen (fs : gmap Z (list Z))
  : rcode * option Z * gmap Z (list Z) :=
  let h := 1 + foldr Z.max 0 (map fst (map_to_list fs)) in
  (SQLITE_OK, Some h, <[h := []]> fs).

(** Varints of one and two bytes, seven bits to the byte and the high
    bit set on the first of two: enough for values below 16384. *)
Definition demoReadVarint32 (buf : list Z) : Z * list Z :=
  match buf with
  | [] => (0, [])
  | b0 :: rest =>
      if b0 <? 128 then (b0, rest)
      else
        match rest with
        | [] => (b0 - 128, [])
        | b1 :: rest' => ((b0 - 128) * 128 + b1, rest')
        end
  end.

Definition demoWriteVarint64 (v : Z) : list Z :=
  if v <? 128 then [v] else [128 + v / 128; v mod 128].

Definition demoVarintLen (v : Z) : Z := zlen (demoWriteVarint64 v).

Definition demoNext :=
  Next (gmap Z (list Z)) memRead demoReadVarint32.

Definition demoWrite :=
  sqlite3VdbeSorterWrite Z demoUnpack demoCompare 2 {| keyFields := 1 |}
    (gmap Z (list Z)) memWrite memOpen demoWriteVarint64 demoVarintLen.

Definition mkSorter (mn mx : Z) : VdbeSorter Z :=
  {| iWriteOff := 0; nInMemory := 0; nTree := 0; nPMA := 0;
     mnPmaSize := mn; mxPmaSize := mx; aIter := []; aTree := [];
     pTemp1 := None; pRecord := []; pUnpacked := emptyUnpacked |}.

(** C7, counterexample.  A sorter with [mxPmaSize = 0], as it is for
    temporary data kept in memory, takes a one-byte record: the byte
    count becomes 2, above [mxPmaSize], the write succeeds, and nothing
    is flushed: no PMA, no file, the record still in the list. *)
Lemma sqlite3VdbeSorterWrite_no_limit_no_flush :
  exists p',
    demoWrite ∅ (mkSorter 0 0) [7] 1 true false = Some (SQLITE_OK, ∅, p') /\
    mxPmaSize p' < nInMemory p' /\
    nInMemory p' = 2 /\ nPMA p' = 0 /\ pTemp1 p' = None /\
    pRecord p' = [mkRecord [7]].
Proof.
  eexists. split; [vm_compute; reflexivity |].
  repeat split; vm_compute; congruence.
Qed.

Lemma sqlite3VdbeSorterWrite_flush_rule_witness :
  match demoWrite ∅ (mkSorter 1 2) [7; 3] 2 true false with
  | Some (SQLITE_OK, fs', p') =>
      nPMA p' = 1 /\ pRecord p' = [] /\ nInMemory p' = 0 /\
      fs' !! 1 = Some [3; 2; 7; 3; 0; 0; 0; 0; 0; 0; 0; 0]
  | _ => False
  end.
Proof.
  destruct (demoWrite ∅ (mkSorter 1 2) [7; 3] 2 true false)
    as [[[rc fs'] p'] |] eqn:Hrun.
  - destruct rc; try (vm_compute in Hrun; discriminate).
    destruct (sqlite3VdbeSorterWrite_flush_rule Z demoUnpack demoCompare 2
                {| keyFields := 1 |} (gmap Z (list Z)) memWrite memOpen
                demoWriteVarint64 demoVarintLen
                ∅ (mkSorter 1 2) [7; 3] 2 true false fs' p' Hrun)
      as [Hflush _].
    destruct Hflush as (p2 & _ & Hp' & Hn).
    + vm_compute. split; [reflexivity |]. left. reflexivity.
    + destruct Hn as [Hn1 Hn2]; [vm_compute; discriminate |].
      split; [exact Hn1 |]. split; [exact Hn2 |].
      split; [rewrite Hp'; reflexivity |].
      vm_compute in Hrun. inversion Hrun. reflexivity.
  - vm_compute in Hrun. discriminate.
Defined.

(** A PMA of two records, [(10, 11)] and [(12)], behind its one-byte
    size, and an iterator set on the first of them. *)
Definition twoRecordFile : gmap Z (list Z) :=
  {[ 1 := [5; 2; 10; 11; 1; 12; 0; 0; 0; 0; 0; 0; 0; 0] ]}.

Definition atFirstRecord : VdbeSorterIter :=
  {| iReadOff := 1; iEof := 6; File := Some 1; Data := replicate 128 0;
     Key := [] |}.

(** A PMA of one record of 130 bytes, its length a two-byte varint. *)
Definition longRecordFile : gmap Z (list Z) :=
  {[ 1 := [129; 4; 129; 2] ++ replicate 130 7 ++ replicate 8 0 ]}.

Definition atLongRecord : VdbeSorterIter :=
  {| iReadOff := 2; iEof := 134; File := Some 1; Data := replicate 128 0;
     Key := [] |}.

(** C8, at the failing inputs.  On the first record of [twoRecordFile],
    3 bytes long with its varint, [Next] yields the key [(10, 11)] and
    moves the read offset from 1 to 3, the last byte of that record,
    not to 4 where the second record starts; the following [Next] then
    takes [11] for a record length and ends in a short read.  On a
    record of 130 bytes, more than the 128 bytes of the buffer, [Next]
    does not return: the buffer has not grown. *)
Theorem Next_stops_short_of_next_record :
  (exists it1,
     demoNext twoRecordFile atFirstRecord = Some (SQLITE_OK, it1) /\
     Key it1 = [10; 11] /\
     iReadOff it1 = 3 /\
     fst <$> demoNext twoRecordFile it1 = Some SQLITE_IOERR) /\
  demoNext longRecordFile atLongRecord = None.
Proof.
  split.
  - eexists. split; [vm_compute; reflexivity |].
    repeat split; vm_compute; reflexivity.
  - vm_compute. reflexivity.
Qed.

(** **** The tournament on two iterators *)

Definition demoSorterNext :=
  SorterNext Z demoUnpack demoCompare 2 {| keyFields := 1 |}
    (gmap Z (list Z)) memRead demoReadVarint32.

Definition mkMerge (its : list VdbeSorterIter) (tree : list Z) : VdbeSorter Z :=
  {| iWriteOff := 14; nInMemory := 0; nTree := 2; nPMA := 2;
     mnPmaSize := 10; mxPmaSize := 20; aIter := its; aTree := tree;
     pTemp1 := Some 1; pRecord := []; pUnpacked := emptyUnpacked |}.

(** Iterator 0 has its last key and nothing left to read; iterator 1 is
    at EOF. *)
Definition lastKeyOfTwo : VdbeSorter Z :=
  mkMerge [ {| iReadOff := 6; iEof := 6; File := Some 1;
               Data := replicate 128 0; Key := [12] |}; Clear ]
          [0; 0].

(** Iterator 0 is in front of the first record of [twoRecordFile] with
    the key [(9)]; iterator 1 has the key [(20)]. *)
Definition mergingTwo : VdbeSorter Z :=
  mkMerge [ {| iReadOff := 1; iEof := 6; File := Some 1;
               Data := replicate 128 0; Key := [9] |};
            {| iReadOff := 6; iEof := 6; File := Some 1;
               Data := replicate 128 0; Key := [20] |} ]
          [0; 0].

Lemma two_wellSized its tree :
  (2 <= length its)%nat -> (2 <= length tree)%nat ->
  wellSized Z 1 (mkMerge its tree).
Proof.
  intros H1 H2. unfold wellSized, zlen. simpl.
  split; [lia |]. split; [reflexivity |]. split; lia.
Qed.

(** C4, counterexample.  In a tree that holds the choice between its
    two iterators, [SorterNext] takes iterator 0 past its last key.
    Both iterators are then at EOF, a tie, and [aTree[1]] indexes
    iterator 1, not the lower index 0. *)
Lemma SorterNext_eof_tie_takes_higher_index :
  wellSized Z 1 lastKeyOfTwo /\
  treeOk Z demoUnpack demoCompare {| keyFields := 1 |} lastKeyOfTwo /\
  exists p',
    demoSorterNext twoRecordFile lastKeyOfTwo = Some (true, SQLITE_OK, p') /\
    File <$> Btree.aget (aIter p') 0 = Some None /\
    File <$> Btree.aget (aIter p') 1 = Some None /\
    Btree.aget (aTree p') 1 = Some 1.
Proof.
  split; [apply two_wellSized; simpl; lia |].
  split.
  - intros j Hj. assert (j = 1) by (simpl in Hj; lia). subst j.
    exists 0, 1, 0. repeat split; vm_compute; reflexivity.
  - eexists. split; [vm_compute; reflexivity |].
    repeat split; vm_compute; reflexivity.
Qed.

Lemma SorterNext_keeps_tournament_witness :
  exists eof p' w,
    demoSorterNext twoRecordFile mergingTwo = Some (eof, SQLITE_OK, p') /\
    treeOk Z demoUnpack demoCompare {| keyFields := 1 |} p' /\
    Btree.aget (aTree p') 1 = Some w /\
    winner Z demoUnpack demoCompare {| keyFields := 1 |} (aIter p') 0 2 w.
Proof.
  destruct (SorterNext_keeps_tournament Z demoUnpack demoCompare 2
              {| keyFields := 1 |} (gmap Z (list Z)) memRead demoReadVarint32
              (demo_total {| keyFields := 1 |})
              (demo_trans {| keyFields := 1 |})
              1%nat twoRecordFile mergingTwo 0
              {| iReadOff := 1; iEof := 6; File := Some 1;
                 Data := replicate 128 0; Key := [9] |}
              {| iReadOff := 3; iEof := 6; File := Some 1;
                 Data := [2; 10; 11; 1; 12] ++ replicate 123 0;
                 Key := [10; 11] |})
    as (eof & p' & w & pw & Hrun & _ & _ & Hsz & Hok & Hroot & _ & _ & Hwin).
  - apply two_wellSized; simpl; lia.
  - intros j Hj. assert (j = 1) by (simpl in Hj; lia). subst j.
    exists 0, 1, 0. repeat split; vm_compute; reflexivity.
  - reflexivity.
  - reflexivity.
  - vm_compute. reflexivity.
  - exists eof, p', w. split; [exact Hrun |]. split; [exact Hok |].
    split; [exact Hroot |].
    destruct Hsz as (_ & HN & _). rewrite HN in Hwin. exact Hwin.
Defined.

(** **** Merging, sorting and reading back, run *)

Definition ki1 : KeyInfo := {| keyFields := 1 |}.

Definition demoReadVarint64 (buf : list Z) : Z * list Z := demoReadVarint32 buf.

(** Closing a temporary file deletes it. *)
Definition memClose (fs : gmap Z (list Z)) (file : option Z)
  : gmap Z (list Z) :=
  match file with
  | Some h => delete h fs
  | None => fs
  end.

Definition demoInitMerge :=
  SorterInitMerge Z demoUnpack demoCompare 2 ki1 (gmap Z (list Z)) memRead
    demoReadVarint32 demoReadVarint64.

Definition demoRewind :=
  sqlite3VdbeSorterRewind Z demoUnpack demoCompare 2 ki1 (gmap Z (list Z))
    memRead memWrite memOpen demoReadVarint32 demoWriteVarint64 demoVarintLen
    demoReadVarint64 memClose.



Definition demoListToPMA :=
  vdbeSorterListToPMA Z demoUnpack demoCompare 2 ki1 (gmap Z (list Z))
    memWrite memOpen demoWriteVarint64.

Lemma vdbeSorterMerge_merges_in_order_witness :
  exists res r2',
    vdbeSorterMerge Z demoUnpack demoCompare 2 ki1 emptyUnpacked
      [mkRecord [1; 2]; mkRecord [3; 1]] [mkRecord [2; 3]; mkRecord [3; 1]]
      = Some (res, r2') /\
    Permutation res ([mkRecord [1; 2]; mkRecord [3; 1]]
                     ++ [mkRecord [2; 3]; mkRecord [3; 1]]) /\
    Sorted (recLe Z demoUnpack demoCompare ki1) res /\
    forall x,
      List.filter (sameKey Z demoUnpack demoCompare ki1 x) res =
      List.filter (sameKey Z demoUnpack demoCompare ki1 x)
        [mkRecord [1; 2]; mkRecord [3; 1]] ++
      List.filter (sameKey Z demoUnpack demoCompare ki1 x)
        [mkRecord [2; 3]; mkRecord [3; 1]].
Proof.
  apply (vdbeSorterMerge_merges_in_order Z demoUnpack demoCompare 2 ki1
           (demo_total ki1) (demo_trans ki1) emptyUnpacked
           [mkRecord [1; 2]; mkRecord [3; 1]]
           [mkRecord [2; 3]; mkRecord [3; 1]]);
    repeat constructor; vm_compute; discriminate.
Defined.


(** A file that holds one empty PMA: the size 0 and the eight closing
    zeros. *)
Definition emptyPMAFile : gmap Z (list Z) :=
  {[ 1 := [0; 0; 0; 0; 0; 0; 0; 0; 0] ]}.

Lemma InitializeIterator_empty_PMA_witness :
  InitializeIterator (gmap Z (list Z)) memRead demoReadVarint32
    demoReadVarint64 emptyPMAFile (Some 1) Clear 0 0
  = Some (0, SQLITE_OK, Clear).
Proof.
  apply (InitializeIterator_empty_PMA (gmap Z (list Z)) memRead
           demoReadVarint32 demoReadVarint64 emptyPMAFile (Some 1) Clear 0 0
           1).
  vm_compute. reflexivity.
Defined.

(** A file of two PMAs, one with the record [(10, 11)] and one with the
    record [(12)], and a sorter about to merge them. *)
Definition twoPMAFile : gmap Z (list Z) :=
  {[ 1 := [3; 2; 10; 11; 2; 1; 12; 0; 0; 0; 0; 0; 0; 0; 0] ]}.

Definition overTwoPMAs (its : list VdbeSorterIter) (tree : list Z) (n : Z)
  : VdbeSorter Z :=
  {| iWriteOff := 7; nInMemory := 0; nTree := n; nPMA := 2;
     mnPmaSize := 10; mxPmaSize := 20; aIter := its; aTree := tree;
     pTemp1 := Some 1; pRecord := []; pUnpacked := emptyUnpacked |}.

Lemma SorterInitMerge_builds_tournament_witness :
  exists p',
    demoInitMerge twoPMAFile 0 (overTwoPMAs [Clear; Clear] [0; 0] 2)
      = Some (7, 5, SQLITE_OK, p') /\
    Key <$> Btree.aget (aIter p') 0 = Some [10; 11] /\
    Key <$> Btree.aget (aIter p') 1 = Some [12] /\
    treeOk Z demoUnpack demoCompare ki1 p' /\
    exists w, Btree.aget (aTree p') 1 = Some w /\
      winner Z demoUnpack demoCompare ki1 (aIter p') 0 (nTree p') w.
Proof.
  destruct (SorterInitMerge_builds_tournament Z demoUnpack demoCompare 2 ki1
              (gmap Z (list Z)) memRead demoReadVarint32 demoReadVarint64
              (demo_total ki1) (demo_trans ki1) 1%nat twoPMAFile 0
              (overTwoPMAs [Clear; Clear] [0; 0] 2) 7 5
              (overTwoPMAs
                 [ {| iReadOff := 3; iEof := 4; File := Some 1;
                      Data := [2; 10; 11] ++ replicate 125 0;
                      Key := [10; 11] |};
                   {| iReadOff := 6; iEof := 7; File := Some 1;
                      Data := [1; 12] ++ replicate 126 0;
                      Key := [12] |} ] [0; 0] 2))
    as (p' & Hrun & HI & _ & Hok & _ & Hwin).
  - unfold wellSized, zlen. simpl. split; [lia |]. split; [reflexivity |]. lia.
  - vm_compute. reflexivity.
  - exists p'. split; [exact Hrun |].
    split; [rewrite HI; reflexivity |]. split; [rewrite HI; reflexivity |].
    split; [exact Hok | exact Hwin].
Defined.

Lemma Rewind_leaves_tournament_witness :
  exists fs' p' w pw,
    demoRewind 5 twoPMAFile 0 true (overTwoPMAs [] [] 0)
      = Some (Some false, SQLITE_OK, fs', 7, p') /\
    nTree p' = 2 /\
    treeOk Z demoUnpack demoCompare ki1 p' /\
    Btree.aget (aTree p') 1 = Some w /\
    Btree.aget (aIter p') w = Some pw /\
    Key pw = [10; 11] /\
    winner Z demoUnpack demoCompare ki1 (aIter p') 0 (nTree p') w.
Proof.
  destruct (demoRewind 5 twoPMAFile 0 true (overTwoPMAs [] [] 0))
    as [[[[[eof rc] fs'] off'] p'] |] eqn:Hrun;
    [| vm_compute in Hrun; discriminate].
  assert (Hres : eof = Some false /\ rc = SQLITE_OK /\ off' = 7 /\
                 nTree p' = 2 /\
                 Key <$> (Btree.aget (aTree p') 1 ≫= Btree.aget (aIter p'))
                   = Some [10; 11]).
  { vm_compute in Hrun. inversion Hrun; subst.
    repeat split; vm_compute; reflexivity. }
  destruct Hres as (-> & -> & -> & HN & HK).
  destruct (Rewind_leaves_tournament Z demoUnpack demoCompare 2 ki1
              (gmap Z (list Z)) memRead memWrite memOpen demoReadVarint32
              demoWriteVarint64 demoVarintLen demoReadVarint64 memClose
              (demo_total ki1) (demo_trans ki1)
              5%nat twoPMAFile 0 true (overTwoPMAs [] [] 0)
              (Some false) fs' 7 p')
    as (k & w & pw & _ & _ & Hok & Hw & Hpw & _ & Hwin).
  - simpl. lia.
  - exact Hrun.
  - exists fs', p', w, pw. split; [reflexivity |]. split; [exact HN |].
    split; [exact Hok |]. split; [exact Hw |]. split; [exact Hpw |].
    split; [| exact Hwin].
    rewrite Hw in HK. simpl in HK. rewrite Hpw in HK. simpl in HK.
    inversion HK. reflexivity.
Defined.





Lemma sqlite3VdbeSorterWrite_keeps_byte_count_witness :
  exists fs' p',
    demoWrite ∅ (mkSorter 1 2) [7; 3] 2 true false
      = Some (SQLITE_OK, fs', p') /\
    nInMemory p' =
      pmaBytes demoVarintLen (pRecord p').
Proof.
  eexists _, _. split; [vm_compute; reflexivity |].
  eapply (sqlite3VdbeSorterWrite_keeps_byte_count Z demoUnpack demoCompare 2
            ki1 (gmap Z (list Z)) memWrite memOpen demoWriteVarint64
            demoVarintLen ∅ (mkSorter 1 2) [7; 3] 2 false).
  - reflexivity.
  - vm_compute. reflexivity.
Defined.

(** A sorter that holds one record of two bytes in memory. *)
Definition oneInMemory : VdbeSorter Z :=
  {| iWriteOff := 0; nInMemory := 3; nTree := 0; nPMA := 0;
     mnPmaSize := 1; mxPmaSize := 2; aIter := []; aTree := [];
     pTemp1 := None; pRecord := [mkRecord [7; 3]];
     pUnpacked := emptyUnpacked |}.

Lemma vdbeSorterListToPMA_writes_the_bytes_counted_witness :
  exists fs' p',
    demoListToPMA ∅ oneInMemory = Some (SQLITE_OK, fs', p') /\
    iWriteOff p' = 4 /\ nPMA p' = 1 /\ pRecord p' = [].
Proof.
  eexists _, _. split; [vm_compute; reflexivity |].
  eapply (vdbeSorterListToPMA_writes_the_bytes_counted Z demoUnpack
            demoCompare 2 ki1 (gmap Z (list Z)) memWrite memOpen
            demoWriteVarint64 demoVarintLen
            (demo_total ki1) (demo_trans ki1) ∅ oneInMemory).
  - intros v. reflexivity.
  - simpl. lia.
  - vm_compute. reflexivity.
  - simpl. lia.
  - vm_compute. reflexivity.
Defined.

End Sorter.
